(** * predict_location_NLG: the language-generator training pipeline

    A shallow embedding of [predict_location_NLG.py]: the index allocator
    [ActionObservationDictionary], the trajectory segmenter [load_data], the
    batch assembler [create_batch] and the early-stopping loop of [train],
    followed by the properties established about them.

    Conventions.  Python integers are [Z]; lengths, positions and tensor
    indices are [nat]; Python floats are binary64 [float]s; a [dict] keyed by
    strings is a [gmap string _]; a raised exception is [None] (or [inl] of
    the exception where the kind of failure matters). *)

From Stdlib Require Import PrimFloat.
From stdpp Require Import gmap strings list sorting.

Local Open Scope Z_scope.

(** ** Python values that may lack a length *)

(** The constructor of the index allocator calls [len] on both arguments.
    [PyNone] stands for an argument that has no length ([len(None)] raises
    [TypeError]); [PyList] is any sized collection. *)
Inductive pyval (A : Type) : Type :=
  | PyNone : pyval A
  | PyList : list A → pyval A.
Arguments PyNone {A}.
Arguments PyList {A} _.

Inductive exn : Type :=
  | TypeError
  | ValueError
  | IndexError.

Definition py_len {A} (v : pyval A) : exn + Z :=
  match v with
  | PyNone => inl TypeError
  | PyList l => inr (Z.of_nat (length l))
  end.

(** ** get_action *)

Definition msg_to_act : gmap string Z :=
  <["ACTION:FORWARD" := 3]> (<["ACTION:TURNRIGHT" := 2]> (<["ACTION:TURNLEFT" := 1]> ∅)).

Definition get_action (msg : string) : option Z := msg_to_act !! msg.

(** ** ActionObservationDictionary *)

(** The four token strings are imported from the module [dict], which is
    not part of this file; they are parameters of the development. *)
Class SpecialTokens := {
  START_TOKEN : string;
  END_TOKEN : string;
  UNK_TOKEN : string;
  PAD_TOKEN : string;
}.

Record ActionObservationDictionary := {
  pad_idx : Z;
  start_idx : Z;
  end_idx : Z;
  unk_idx : Z;
  tok2i : gmap string Z;
}.

Section Allocator.
Context `{SpecialTokens}.

(** [__init__] once both lengths are known. *)
Definition allocate (n_landmarks n_actions : Z) : ActionObservationDictionary :=
  let pad := n_landmarks + n_actions in
  let start := pad + 1 in
  let end_ := start + 1 in
  let unk := end_ + 1 in
  {| pad_idx := pad;
     start_idx := start;
     end_idx := end_;
     unk_idx := unk;
     tok2i := <[UNK_TOKEN := unk]> (<[PAD_TOKEN := pad]>
                (<[END_TOKEN := end_]> (<[START_TOKEN := start]> ∅))) |}.

(** [ActionObservationDictionary(landmarks, actions)]. *)
Definition new_ActionObservationDictionary {A B}
    (landmarks : pyval A) (actions : pyval B) : exn + ActionObservationDictionary :=
  match py_len landmarks with
  | inl e => inl e
  | inr L =>
      match py_len actions with
      | inl e => inl e
      | inr A => inr (allocate L A)
      end
  end.

(** The four token strings are pairwise different. *)
Definition tokens_distinct : bool :=
  bool_decide (NoDup [START_TOKEN; END_TOKEN; PAD_TOKEN; UNK_TOKEN]).
End Allocator.

(** ** External collaborators of the segmenter *)

(** The landmark map, the movement function, the text dictionary and the
    feature loaders live in other modules ([data_loader], [dict]).  The
    segmenter only calls them, so they are an interface here. *)
Class Collaborators := {
  Neighborhood : Type;
  Boundaries : Type;
  Location : Type;
  LandmarkSet : Type;
  TouristLoc : Type;
  Features : Type;
  Loader : Type;
  (** [loc[0]] and [loc[1]] *)
  loc_0 : Location → Z;
  loc_1 : Location → Z;
  (** [step_aware(act, loc, boundaries)] *)
  step_aware : Z → Location → Boundaries → Location;
  (** [landmark_map.get_landmarks_2d(neighborhood, boundaries, loc)] *)
  get_landmarks_2d : Neighborhood → Boundaries → Location → LandmarkSet * TouristLoc;
  (** [dictionary.encode(text, include_end=...)] *)
  encode : string → bool → list Z;
  (** [dictionary[PAD_TOKEN]] *)
  dictionary_pad : Z;
  (** [loader.get(neighborhood, loc)] *)
  loader_get_loc : Loader → Neighborhood → Location → Features;
  (** [loader.get(neighborhood, loc[0], loc[1])] *)
  loader_get_xy : Loader → Neighborhood → Z → Z → Features;
}.

(** ** Trajectories *)

Section Segmenter.
Context `{SpecialTokens} `{Collaborators}.

(** An element of a trajectory keeps its Python type: an [int] (action
    token, end marker) or a [dict] from modality name to features. *)
Inductive elem : Type :=
  | EInt : Z → elem
  | EObs : gmap string Features → elem.

(** [collections.deque(maxlen=...)]: [maxlen = None] is unbounded. *)
Record deque := {
  items : list elem;
  maxlen : option nat;
}.

Definition deque_new (maxlen : option nat) : deque :=
  {| items := []; maxlen := maxlen |}.

(** [d.append(x)]: once the bound is exceeded the oldest item is dropped
    (with [maxlen = 0] nothing is ever kept). *)
Definition deque_append (d : deque) (x : elem) : deque :=
  match maxlen d with
  | None => {| items := items d ++ [x]; maxlen := None |}
  | Some m =>
      let l := items d ++ [x] in
      {| items := drop (length l - m) l; maxlen := Some m |}
  end.

Definition deque_clear (d : deque) : deque :=
  {| items := []; maxlen := maxlen d |}.

(** [self.contextlen = args.num_steps if args.num_steps >= 0 else None] *)
Definition contextlen (num_steps : Z) : option nat :=
  if bool_decide (0 ≤ num_steps) then Some (Z.to_nat num_steps) else None.

Record message := {
  msg_id : string;
  msg_text : string;
}.

Record config := {
  start_location : Location;
  boundaries : Boundaries;
  neighborhood : Neighborhood;
  dialog : list message;
}.

(** The four parallel arrays [Xs, tourist_locs, landmarks, ys]. *)
Record data := {
  Xs : list (list elem);
  tourist_locs : list TouristLoc;
  landmarks : list LandmarkSet;
  ys : list (list Z);
}.

Definition data_empty : data :=
  {| Xs := []; tourist_locs := []; landmarks := []; ys := [] |}.

(** The loop [for k, loader in feature_loaders.items(): obs_emb[k] = ...]. *)
Definition obs_emb (feature_loaders : gmap string Loader)
    (nbh : Neighborhood) (loc : Location) : gmap string Features :=
  map_imap (λ k loader,
    Some (if bool_decide (k = "goldstandard")
          then loader_get_loc loader nbh loc
          else loader_get_xy loader nbh (loc_0 loc) (loc_1 loc)))
    feature_loaders.

(** What the dialogue loop carries from one message to the next. *)
Record walk := {
  loc : Location;
  act_obs_memory : deque;
  out : data;
}.

(** The body of [for msg in config['dialog']]. *)
Definition process_msg (aod : ActionObservationDictionary)
    (feature_loaders : gmap string Loader)
    (bnd : Boundaries) (nbh : Neighborhood)
    (w : walk) (msg : message) : option walk :=
  if bool_decide (msg_id msg = "Tourist") then
    match get_action (msg_text msg) with
    | None =>
        let y := encode (msg_text msg) true in
        let '(ls, tourist_loc) := get_landmarks_2d nbh bnd (loc w) in
        let mem := deque_append (act_obs_memory w)
                     (EObs (obs_emb feature_loaders nbh (loc w))) in
        end_marker ← tok2i aod !! END_TOKEN;
        Some {| loc := loc w;
                act_obs_memory := deque_clear mem;
                out := {| Xs := Xs (out w) ++ [items mem ++ [EInt end_marker]];
                          tourist_locs := tourist_locs (out w) ++ [tourist_loc];
                          landmarks := landmarks (out w) ++ [ls];
                          ys := ys (out w) ++ [y] |} |}
    | Some act =>
        let loc' := step_aware act (loc w) bnd in
        let mem := deque_append (act_obs_memory w) (EInt act) in
        if bool_decide (act = 2) then (* went forward *)
          let '(ls, _) := get_landmarks_2d nbh bnd loc' in
          Some {| loc := loc';
                  act_obs_memory :=
                    deque_append mem (EObs (obs_emb feature_loaders nbh loc'));
                  out := {| Xs := Xs (out w);
                            tourist_locs := tourist_locs (out w);
                            landmarks := landmarks (out w) ++ [ls];
                            ys := ys (out w) |} |}
        else
          Some {| loc := loc'; act_obs_memory := mem; out := out w |}
    end
  else Some w.

Fixpoint process_dialog (aod : ActionObservationDictionary)
    (feature_loaders : gmap string Loader)
    (bnd : Boundaries) (nbh : Neighborhood)
    (w : walk) (msgs : list message) : option walk :=
  match msgs with
  | [] => Some w
  | msg :: rest =>
      w' ← process_msg aod feature_loaders bnd nbh w msg;
      process_dialog aod feature_loaders bnd nbh w' rest
  end.

(** The body of [for config in dataset]. *)
Definition process_config (aod : ActionObservationDictionary)
    (feature_loaders : gmap string Loader) (ctxlen : option nat)
    (acc : data) (cfg : config) : option data :=
  w ← process_dialog aod feature_loaders (boundaries cfg) (neighborhood cfg)
        {| loc := start_location cfg;
           act_obs_memory := deque_new ctxlen;
           out := acc |}
        (dialog cfg);
  Some (out w).

Fixpoint build_data (aod : ActionObservationDictionary)
    (feature_loaders : gmap string Loader) (ctxlen : option nat)
    (acc : data) (dataset : list config) : option data :=
  match dataset with
  | [] => Some acc
  | cfg :: rest =>
      acc' ← process_config aod feature_loaders ctxlen acc cfg;
      build_data aod feature_loaders ctxlen acc' rest
  end.

(** [load_data]: [cache] is the content of the directory
    [<data_dir>/<dataset_name>_NLG_data/] when it exists.  The second
    component of the result is what gets written to that directory. *)
Definition load_data (aod : ActionObservationDictionary)
    (feature_loaders : gmap string Loader) (ctxlen : option nat)
    (cache : option data) (dataset : list config) (temp_build : bool)
    : option (data * option data) :=
  match cache with
  | Some d =>
      if negb temp_build then Some (d, None)
      else d' ← build_data aod feature_loaders ctxlen data_empty dataset;
           Some (d', None)
  | None =>
      d' ← build_data aod feature_loaders ctxlen data_empty dataset;
      Some (d', if negb temp_build then Some d' else None)
  end.
End Segmenter.

(** ** The batch assembler *)

(** [idxs] lists every index of [0 .. n-1] and has [n] entries: it is a
    rearrangement of [range(n)]. *)
Definition is_range_perm (idxs : list nat) (n : nat) : bool :=
  bool_decide (length idxs = n)
  && forallb (λ r, bool_decide (r ∈ idxs)) (seq 0 n).

(** [max(l)] of a Python list: [ValueError] on the empty list. *)
Definition py_max (l : list nat) : option nat :=
  match l with
  | [] => None
  | x :: rest => Some (foldl Nat.max x rest)
  end.

(** [sorted(l, reverse=True)] on a list of integers. *)
Definition sorted_reverse (l : list nat) : list nat :=
  merge_sort (flip (≤)%nat) l.

(** [for j, elem in enumerate(seq, start=j): row[j] = elem].  The rows it
    is used on are at least as long as [seq], so the index is in range. *)
Fixpoint fill_from {A} (j : nat) (seq : list A) (row : list A) : list A :=
  match seq with
  | [] => row
  | e :: rest => fill_from (S j) rest (<[j := e]> row)
  end.

(** [row[:k] = v] on a tensor row: the slice stops at the end of the row. *)
Definition set_prefix {A} (k : nat) (v : A) (row : list A) : list A :=
  replicate (k `min` length row) v ++ drop k row.

(** [row[:len(seq)] = seq] on a tensor row at least as long as [seq]. *)
Definition write_prefix {A} (seq : list A) (row : list A) : list A :=
  seq ++ drop (length seq) row.

(** [g[i] = f(g[i])], raising [IndexError] (here [None]) out of range. *)
Definition update_row {A} (i : nat) (f : A → A) (g : list A) : option (list A) :=
  r ← g !! i; Some (<[i := f r]> g).

Section Assembler.
Context `{SpecialTokens} `{Collaborators}.

(** [torch.sort(torch.LongTensor(seq_lens), descending=True)], a library
    call: it returns the sorted values and the indices that sort them. *)
Variable torch_sort_descending : list nat → list nat * list nat.

(** The first loop: [X_batch[i][j] = elem] and [mask[i, :len(seq)] = 1.0]. *)
Fixpoint fill_X (i : nat) (Xs : list (list elem))
    (st : list (list elem) * list (list float)) : list (list elem) * list (list float) :=
  match Xs with
  | [] => st
  | seq :: rest =>
      fill_X (S i) rest
        (alter (fill_from 0 seq) i st.1,
         alter (set_prefix (length seq) 1%float) i st.2)
  end.

(** The second loop: [y_batch[i, :len(seq)] = torch.LongTensor(seq)]. *)
Fixpoint fill_y (i : nat) (ys : list (list Z)) (y_batch : list (list Z))
    : option (list (list Z)) :=
  match ys with
  | [] => Some y_batch
  | seq :: rest =>
      y_batch' ← update_row i (write_prefix seq) y_batch;
      fill_y (S i) rest y_batch'
  end.

(** Everything built before the sort. *)
Record unsorted := {
  seq_lens : list nat;
  y_lens : list nat;
  max_y_len : nat;
  max_X_len : nat;
  X_batch : list (list elem);
  mask : list (list float);
  y_batch : list (list Z);
  tourist_loc_batch : list TouristLoc;
}.

Definition assemble (Xs : list (list elem)) (tourist_locs : list TouristLoc)
    (ys : list (list Z)) : option unsorted :=
  let batch_size := length Xs in
  let seq_lens := length <$> Xs in
  let y_lens := length <$> ys in
  max_y_len ← py_max y_lens;
  max_X_len ← py_max seq_lens;
  let '(X_batch, mask) :=
    fill_X 0 Xs (replicate batch_size (replicate max_X_len (EInt 0)),
                 replicate batch_size (replicate max_X_len 0%float)) in
  y_batch ← fill_y 0 ys (replicate batch_size (replicate max_y_len dictionary_pad));
  Some {| seq_lens := seq_lens; y_lens := y_lens;
          max_y_len := max_y_len; max_X_len := max_X_len;
          X_batch := X_batch; mask := mask; y_batch := y_batch;
          tourist_loc_batch := tourist_locs |}.

(** The tensors written by the loop over [sorted_indices].  A cell of
    [sorted_tourist_loc_batch] is [None] until it is assigned: the tensor
    is allocated without being initialised. *)
Record sorted_state := {
  sorted_X_batch : list (list elem);
  sorted_y_batch : list (list Z);
  sorted_tourist_loc_batch : list (option TouristLoc);
  sorted_mask : list (list float);
  sorted_y_lens : list nat;
}.

(** [for idx in sorted_indices: ...; i += 1] *)
Fixpoint sort_rows (u : unsorted) (sorted_seq_lens : list nat)
    (sorted_indices : list nat) (i : nat) (s : sorted_state) : option sorted_state :=
  match sorted_indices with
  | [] => Some s
  | idx :: rest =>
      x_row ← X_batch u !! idx;
      sX ← update_row i (λ _, x_row) (sorted_X_batch s);
      y_row ← y_batch u !! idx;
      sY ← update_row i (λ _, y_row) (sorted_y_batch s);
      y_len ← y_lens u !! i;
      t_loc ← tourist_loc_batch u !! idx;
      sL ← update_row i (λ _, Some t_loc) (sorted_tourist_loc_batch s);
      k ← sorted_seq_lens !! i;
      sM ← update_row i (set_prefix k 1%float) (sorted_mask s);
      sort_rows u sorted_seq_lens rest (S i)
        {| sorted_X_batch := sX; sorted_y_batch := sY;
           sorted_tourist_loc_batch := sL; sorted_mask := sM;
           sorted_y_lens := sorted_y_lens s ++ [y_len] |}
  end.

(** The value returned by [create_batch]. *)
Record batch := {
  b_X : list (list elem);
  b_mask : list (list float);
  b_tourist_loc : list (option TouristLoc);
  b_y : list (list Z);
  b_X_lengths : list nat;
  b_y_lengths : list nat;
  b_max_len : nat;
}.

Definition create_batch (aod : ActionObservationDictionary)
    (Xs : list (list elem)) (tourist_locs : list TouristLoc)
    (ys : list (list Z)) : option batch :=
  u ← assemble Xs tourist_locs ys;
  let batch_size := length Xs in
  let '(sorted_seq_lens, sorted_indices) := torch_sort_descending (seq_lens u) in
  pad ← tok2i aod !! PAD_TOKEN;
  s ← sort_rows u sorted_seq_lens sorted_indices 0
        {| sorted_X_batch := replicate batch_size (replicate (max_X_len u) (EInt pad));
           sorted_y_batch := replicate batch_size (replicate (max_y_len u) 0);
           sorted_tourist_loc_batch := replicate (length tourist_locs) None;
           sorted_mask := replicate batch_size (replicate (max_X_len u) 0%float);
           sorted_y_lens := [] |};
  Some {| b_X := sorted_X_batch s;
          b_mask := sorted_mask s;
          b_tourist_loc := sorted_tourist_loc_batch s;
          b_y := sorted_y_batch s;
          b_X_lengths := sorted_reverse (seq_lens u);
          b_y_lengths := sorted_y_lens s;
          b_max_len := max_y_len u |}.

(** What the code relies on from [torch.sort(..., descending=True)]:
    the indices are a rearrangement of [0 .. N-1], the values are the
    input read through the indices, and the values never increase. *)
Definition torch_sort_ok (input : list nat) (res : list nat * list nat) : bool :=
  is_range_perm res.2 (length input)
  && bool_decide (Some <$> res.1 = (λ idx, input !! idx) <$> res.2)
  && bool_decide (Sorted (flip (≤)%nat) res.1).
End Assembler.

(** ** The library sort *)

(** [p] is put in front of the first pair whose length is not greater than
    its own: in front of every pair of the same length already there. *)
Fixpoint insert_keyed (p : nat * nat) (l : list (nat * nat)) : list (nat * nat) :=
  match l with
  | [] => [p]
  | q :: rest =>
      if bool_decide (q.1 ≤ p.1)%nat then p :: q :: rest
      else q :: insert_keyed p rest
  end.

(** Modelled from the spec: [torch.sort(torch.LongTensor(seq_lens),
    descending=True)] is a call into the torch library, whose code is not
    among the sources.  The spec words it as "a stable descending sort over
    source lengths (ties preserve original relative order)": the lengths
    are paired with their row indices and the pairs are sorted by
    descending length, a row staying in front of the later rows of the
    same length.  The result is the sorted lengths and the row indices in
    that order. *)
Definition torch_sort (l : list nat) : list nat * list nat :=
  let keyed := foldr insert_keyed [] (zip l (seq 0 (length l))) in
  (keyed.*1, keyed.*2).

(** The pair (length, row index) [p] stands before [q] in such a sort: it
    is longer, or as long and earlier in the input. *)
Definition stands_before (p q : nat * nat) : Prop :=
  (q.1 < p.1 ∨ (q.1 = p.1 ∧ p.2 < q.2))%nat.

(** ** The training loop *)

(** [sklearn.utils.shuffle] draws one index order and reads every array it
    is given through it; [indices] is that draw. *)
Definition take_indices {A} (indices : list nat) (a : list A) : list A :=
  omap (λ i, a !! i) indices.

(** What the loop does to the outside world, in order. *)
Inductive event : Type :=
  | TrainEpoch : nat → event            (* the mini-batch loop of one epoch *)
  | EvalEpoch : event                   (* self.eval_epoch() *)
  | LrSchedulerStep : float → event     (* self.lr_scheduler.step(valid_loss) *)
  | NewBestValid : float → event        (* print of the new best loss *)
  | StillGood : Z → event               (* print of the patience counter *)
  | SaveModel : event                   (* self.save_model() *)
  | EvalTest : event.                   (* self.eval_test() and its print *)

Inductive stop : Type :=
  | PatienceExhausted                   (* the [return] inside the loop *)
  | EpochsExhausted.                    (* the loop ran to its end *)

Section Train.
Context `{Collaborators}.
Context {X : Type}.

(** The local variables of [train] that survive an epoch. *)
Record train_state := {
  t_Xs : list X;
  t_tourist_locs : list TouristLoc;
  t_landmarks : list LandmarkSet;
  t_ys : list (list Z);
  best_valid : float;
  valid_patience : Z;
}.

(** [Xs, tourist_locs, landmarks, ys = self.train_data] and the
    initialisation of the counters. *)
Definition train_init (Xs : list X) (tourist_locs : list TouristLoc)
    (landmarks : list LandmarkSet) (ys : list (list Z)) : train_state :=
  {| t_Xs := Xs; t_tourist_locs := tourist_locs; t_landmarks := landmarks;
     t_ys := ys; best_valid := infinity; valid_patience := 0 |}.

(** [Xs, tourist_locs, ys = shuffle(Xs, tourist_locs, ys)] *)
Definition shuffle_epoch (indices : list nat) (st : train_state) : train_state :=
  {| t_Xs := take_indices indices (t_Xs st);
     t_tourist_locs := take_indices indices (t_tourist_locs st);
     t_landmarks := t_landmarks st;
     t_ys := take_indices indices (t_ys st);
     best_valid := best_valid st;
     valid_patience := valid_patience st |}.

Record train_result := {
  final : train_state;
  log : list event;
  stopped : stop;
  epochs_run : nat;
}.

(** The comparison that follows [valid_loss = self.eval_epoch()].  The
    result is the new state, what was done, and whether [train] returns. *)
Definition after_validation (cfg_patience : Z) (st : train_state)
    (valid_loss : float) : train_state * list event * bool :=
  if (valid_loss <? best_valid st)%float then
    ({| t_Xs := t_Xs st; t_tourist_locs := t_tourist_locs st;
        t_landmarks := t_landmarks st; t_ys := t_ys st;
        best_valid := valid_loss; valid_patience := 0 |},
     [NewBestValid valid_loss], false)
  else
    let p := valid_patience st + 1 in
    let st' := {| t_Xs := t_Xs st; t_tourist_locs := t_tourist_locs st;
                  t_landmarks := t_landmarks st; t_ys := t_ys st;
                  best_valid := best_valid st; valid_patience := p |} in
    if bool_decide (p = cfg_patience)
    then (st', [StillGood p; SaveModel; EvalTest], true)
    else (st', [StillGood p], false).

(** [for epoch_num in range(self.num_epochs)], with the code after the
    loop.  [draw e] is the order drawn by [shuffle] in epoch [e] and
    [valid e] the loss returned by [eval_epoch] at its end.  The
    mini-batch loop only drives the model and the optimiser, which are
    external; it is recorded as [TrainEpoch]. *)
Fixpoint epochs (cfg_patience : Z) (draw : nat → list nat) (valid : nat → float)
    (remaining : nat) (epoch_num : nat) (st : train_state) (done : list event)
    : train_result :=
  match remaining with
  | O =>
      {| final := st;
         log := done ++ [SaveModel; EvalEpoch; EvalTest];
         stopped := EpochsExhausted;
         epochs_run := epoch_num |}
  | S remaining' =>
      let st1 := shuffle_epoch (draw epoch_num) st in
      let valid_loss := valid epoch_num in
      let '(st2, evs, ret) := after_validation cfg_patience st1 valid_loss in
      let done' := done ++ [TrainEpoch epoch_num; EvalEpoch;
                            LrSchedulerStep valid_loss] ++ evs in
      if ret then
        {| final := st2; log := done'; stopped := PatienceExhausted;
           epochs_run := S epoch_num |}
      else epochs cfg_patience draw valid remaining' (S epoch_num) st2 done'
  end.

(** [train]: the loop runs over [self.num_epochs] (the argument of the
    method is not read by it), here [num_epochs]; [cfg_patience] is
    [self.valid_patience]. *)
Definition train (num_epochs : Z) (cfg_patience : Z)
    (draw : nat → list nat) (valid : nat → float)
    (Xs : list X) (tourist_locs : list TouristLoc)
    (landmarks : list LandmarkSet) (ys : list (list Z)) : train_result :=
  epochs cfg_patience draw valid (Z.to_nat num_epochs) 0
    (train_init Xs tourist_locs landmarks ys) [].
End Train.

(** ** A small concrete world *)

(** One choice of token strings and of collaborators, on which the
    definitions above can be run. *)
Definition sample_tokens : SpecialTokens :=
  {| START_TOKEN := "__start__"; END_TOKEN := "__end__";
     UNK_TOKEN := "__unk__"; PAD_TOKEN := "__pad__" |}.

Definition sample_step (act : Z) (loc : list Z) (bnd : list Z) : list Z :=
  match loc with
  | [x; y; o] =>
      if bool_decide (act = 1) then [x; y; (o + 3) `mod` 4]
      else if bool_decide (act = 2) then [x; y; (o + 1) `mod` 4]
      else if bool_decide (act = 3) then [x; y + 1; o]
      else loc
  | _ => loc
  end.

Definition sample_world : Collaborators :=
  {| Neighborhood := string;
     Boundaries := list Z;
     Location := list Z;
     LandmarkSet := list Z;
     TouristLoc := Z * Z;
     Features := list Z;
     Loader := Z;
     loc_0 := λ loc, nth 0 loc 0;
     loc_1 := λ loc, nth 1 loc 0;
     step_aware := sample_step;
     get_landmarks_2d := λ _ bnd loc,
       ([nth 0 loc 0 + nth 1 loc 0],
        (nth 0 loc 0 - nth 0 bnd 0, nth 1 loc 0 - nth 1 bnd 0));
     encode := λ text include_end,
       Z.of_nat (String.length text) :: (if include_end then [1] else []);
     dictionary_pad := 0;
     loader_get_loc := λ ld _ loc, ld :: loc;
     loader_get_xy := λ ld _ x y, [ld; x; y] |}.

(** The sort used in the examples: it meets [torch_sort_ok] and keeps ties
    in input order. *)
Definition sample_sort (l : list nat) : list nat * list nat :=
  let keyed := foldr insert_keyed [] (zip l (seq 0 (length l))) in
  (keyed.*1, keyed.*2).

(** A batch of two examples, the shorter one first, and a batch of two
    examples of equal source length. *)
Definition sample_Xs : list (list (@elem sample_world)) :=
  [ [EObs (<["goldstandard" := [7; 0; 0; 0]%Z]> ∅); EInt 16];
    [EInt 1; EInt 3; EInt 16] ].

Definition sample_locs : list (@TouristLoc sample_world) := [(0, 0); (1, 2)].

Definition sample_ys : list (list Z) := [[5; 1]; [6; 7; 1]].

Definition tied_Xs : list (list (@elem sample_world)) :=
  [ [EInt 1; EInt 16]; [EInt 2; EInt 16] ].

(** ** Notions used in the statements *)

(** A constructor argument whose size is unknown or not positive. *)
Definition size_unknown_or_non_positive {A} (v : pyval A) : Prop :=
  match py_len v with
  | inl _ => True
  | inr n => n ≤ 0
  end.

(** No message of [msgs] is a tourist turn. *)
Definition no_tourist_turn `{Collaborators} (msgs : list message) : bool :=
  forallb (λ m, negb (bool_decide (msg_id m = "Tourist"))) msgs.

Section Alignment.
Context `{Collaborators} {X : Type}.

(** What the arrays of the loop are, in terms of the arrays [train]
    started from: the three shuffled arrays read through one common order
    [p], the landmarks untouched. *)
Definition aligned_through (p : list nat) (Xs : list X)
    (tourist_locs : list TouristLoc) (landmarks : list LandmarkSet)
    (ys : list (list Z)) st : Prop :=
  t_Xs st = take_indices p Xs
  ∧ t_tourist_locs st = take_indices p tourist_locs
  ∧ t_ys st = take_indices p ys
  ∧ t_landmarks st = landmarks.
End Alignment.

(** Two landmark sets, loaded next to [sample_Xs]. *)
Definition sample_landmarks : list (@LandmarkSet sample_world) := [[0]; [3]]%Z.

(** Validation losses 5, 4, 3, 3, 3, then 3 for ever. *)
Definition sample_valid (e : nat) : float :=
  nth e [5; 4; 3; 3; 3]%float 3%float.

(** * Further definitions *)

Local Open Scope nat_scope.

(** ** Reading a dialogue *)

(** What [d.append] keeps of a list appended element by element: all of it
    when the deque is unbounded, its last [k] elements when [maxlen = k]. *)
Definition keep_last {A} (ctx : option nat) (l : list A) : list A :=
  match ctx with
  | None => l
  | Some k => drop (length l - k) l
  end.

(** The command of a message: the token of a tourist turn that
    [get_action] recognises. *)
Definition command_of (m : message) : option Z :=
  if bool_decide (msg_id m = "Tourist") then get_action (msg_text m) else None.

(** A tourist turn that [get_action] does not recognise. *)
Definition is_utterance (m : message) : bool :=
  bool_decide (msg_id m = "Tourist") && bool_decide (get_action (msg_text m) = None).

Section Reading.
Context `{Collaborators}.

(** All messages of a dataset, in the order [load_data] visits them. *)
Definition all_messages (dataset : list config) : list message :=
  dataset ≫= dialog.

Definition n_utterances (msgs : list message) : nat :=
  length (List.filter is_utterance msgs).

(** Tourist turns carrying the token 2. *)
Definition n_token_2 (msgs : list message) : nat :=
  length (List.filter (λ m, bool_decide (command_of m = Some 2%Z)) msgs).

(** What the commands of [msgs] put into an unbounded window, starting
    at [loc]: each token, followed by the bundle of the new location when
    the token is 2. *)
Fixpoint happened (fl : gmap string Loader) (bnd : Boundaries) (nbh : Neighborhood)
    (loc : Location) (msgs : list message) : list elem :=
  match msgs with
  | [] => []
  | m :: rest =>
      match command_of m with
      | Some act =>
          let loc' := step_aware act loc bnd in
          EInt act
            :: (if bool_decide (act = 2%Z) then [EObs (obs_emb fl nbh loc')] else [])
            ++ happened fl bnd nbh loc' rest
      | None => happened fl bnd nbh loc rest
      end
  end.

(** Where the commands of [msgs] lead from [loc]. *)
Definition moved (bnd : Boundaries) (loc : Location) (msgs : list message) : Location :=
  foldl (λ l act, step_aware act l bnd) loc (omap command_of msgs).
End Reading.

(** An element a command can put into the window: a token 1, 2 or 3, or a
    bundle. *)
Definition is_step `{Collaborators} (e : elem) : bool :=
  match e with
  | EInt a => bool_decide (a = 1 ∨ a = 2 ∨ a = 3)%Z
  | EObs _ => true
  end.

(** The window respects its bound. *)
Definition within `{Collaborators} (d : deque) : Prop :=
  ∀ k, maxlen d = Some k → length (items d) ≤ k.

(** A trajectory as [load_data] builds it: elements of the window, at most
    [k] of them when the window is bounded by [k], then the marker [e]. *)
Definition well_formed_trajectory `{Collaborators} (ctx : option nat) (e : Z)
    (t : list elem) : Prop :=
  ∃ body, t = body ++ [EInt e]
        ∧ forallb is_step body = true
        ∧ ∀ k, ctx = Some k → length body ≤ k.

(** A dialogue with a guide turn, two commands and two utterances. *)
Definition sample_dialog : list message :=
  [ {| msg_id := "Guide"; msg_text := "hello" |};
    {| msg_id := "Tourist"; msg_text := "ACTION:TURNRIGHT" |};
    {| msg_id := "Tourist"; msg_text := "ACTION:FORWARD" |};
    {| msg_id := "Tourist"; msg_text := "i see a bank" |};
    {| msg_id := "Tourist"; msg_text := "ok" |} ].

Definition sample_config : @config sample_world :=
  {| start_location := [2; 3; 0]%Z : @Location sample_world;
     boundaries := [0; 0; 3; 3]%Z : @Boundaries sample_world;
     neighborhood := "fidi" : @Neighborhood sample_world;
     dialog := sample_dialog |}.

Definition sample_loaders : gmap string (@Loader sample_world) :=
  <["goldstandard" := 7%Z]> (<["resnet" := 9%Z]> ∅).

(** ** Reading the log of [train] *)

Definition is_save (ev : event) : bool :=
  match ev with SaveModel => true | _ => false end.

Definition is_test (ev : event) : bool :=
  match ev with EvalTest => true | _ => false end.

Definition is_train_epoch (ev : event) : bool :=
  match ev with TrainEpoch _ => true | _ => false end.

Definition is_lr_step (ev : event) : bool :=
  match ev with LrSchedulerStep _ => true | _ => false end.

(** How often events of one kind occur in a log. *)
Definition occurrences (kind : event → bool) (l : list event) : nat :=
  length (List.filter kind l).

(** ** Mini-batches and evaluation *)

(** [range(0, stop, step)]: [None] is the [ValueError] of a zero step. *)
Definition py_range (stop : nat) (step : Z) : option (list nat) :=
  if bool_decide (step = 0)%Z then None
  else if bool_decide (step < 0)%Z then Some []
  else
    let s := Z.to_nat step in
    Some ((λ k, k * s) <$> seq 0 ((stop + s - 1) / s)).

(** [l[jj:jj+bsz]] for a start [jj ≥ 0] and a size [bsz > 0], the only
    way the loops slice. *)
Definition slice {A} (jj bsz : nat) (l : list A) : list A :=
  take bsz (drop jj l).

Inductive eval_exn : Type :=
  | RangeStepZero        (* range() arg 3 must not be zero *)
  | BatchFailed          (* an exception inside create_batch *)
  | DivisionByZero.      (* total_loss/total with no batch *)

Section Eval.
Context `{SpecialTokens} `{Collaborators}.
Variable torch_sort_descending : list nat → list nat * list nat.

(** [self.model.forward(...)['loss']['loss']] as a number: the model is
    external and evaluation does not change it. *)
Variable forward_loss : batch → float.

(** The accumulators of the evaluation loop. *)
Record eval_acc := {
  total_loss : float;
  total : float;
  batch_num : nat;
}.

(** [for jj in range(0, len(Xs), self.bsz): ...] of [eval_epoch] and
    [eval_test]. *)
Fixpoint eval_batches (aod : ActionObservationDictionary) (bsz : nat)
    (Xs : list (list elem)) (tourist_locs : list TouristLoc) (ys : list (list Z))
    (starts : list nat) (acc : eval_acc) : option eval_acc :=
  match starts with
  | [] => Some acc
  | jj :: rest =>
      b ← create_batch torch_sort_descending aod
             (slice jj bsz Xs) (slice jj bsz tourist_locs) (slice jj bsz ys);
      eval_batches aod bsz Xs tourist_locs ys rest
        {| total_loss := (total_loss acc + forward_loss b)%float;
           total := (total acc + 1)%float;
           batch_num := S (batch_num acc) |}
  end.

(** [eval_epoch] on the arrays of a split ([eval_test] is the same code on
    [self.test_data]); [indices] is the order drawn by [shuffle]. *)
Definition eval_epoch (aod : ActionObservationDictionary) (bsz : Z)
    (indices : list nat)
    (Xs : list (list elem)) (tourist_locs : list TouristLoc) (ys : list (list Z))
    : eval_exn + float :=
  let Xs := take_indices indices Xs in
  let tourist_locs := take_indices indices tourist_locs in
  let ys := take_indices indices ys in
  match py_range (length Xs) bsz with
  | None => inl RangeStepZero
  | Some starts =>
      match eval_batches aod (Z.to_nat bsz) Xs tourist_locs ys starts
              {| total_loss := 0; total := 0; batch_num := 0 |} with
      | None => inl BatchFailed
      | Some acc =>
          if (total acc =? 0)%float then inl DivisionByZero
          else inr (total_loss acc / total acc)%float
      end
  end.

Definition eval_test := eval_epoch.

(** The sort behaves as specified on every mini-batch that starts at one
    of [starts]. *)
Definition sort_ok_on (bsz : nat) (Xs : list (list elem)) (starts : list nat) : bool :=
  forallb (λ jj, torch_sort_ok (length <$> slice jj bsz Xs)
                   (torch_sort_descending (length <$> slice jj bsz Xs))) starts.
End Eval.

(** ** [train] with its loops in place *)

(** [epochs] above takes the validation loss of every epoch as given.
    Here the mini-batch loop, [eval_epoch] and [eval_test] are run on the
    data, and each of them may raise. *)

(** [shuffle(a, b, c)] raises [ValueError] (inconsistent numbers of
    samples) unless the three arrays have the same length. *)
Definition shuffle_consistent {A B C} (a : list A) (b : list B) (c : list C) : bool :=
  bool_decide (length b = length a) && bool_decide (length c = length a).

(** The index, in the arrays [train] started from, of the entry that
    stands at position [i] after the orders [draws] were applied one after
    the other, the first one first: each shuffle puts at position [i] the
    entry that stood at position [q[i]]. *)
Definition origin (draws : list (list nat)) (i : nat) : option nat :=
  foldr (λ q acc, acc ≫= λ j, q !! j) (Some i) draws.

(** Where an exception left [train], and which one. *)
Inductive phase : Type :=
  | Training        (* the shuffle and the mini-batch loop of an epoch *)
  | Validation      (* self.eval_epoch() *)
  | Testing.        (* self.eval_test() *)

Inductive failure : Type :=
  | ShuffleLengths            (* ValueError of shuffle *)
  | Loop : eval_exn → failure.

Section TrainRun.
Context `{SpecialTokens} `{Collaborators}.
Variable torch_sort_descending : list nat → list nat * list nat.

(** The model and the optimiser are external.  [train_forward e n b] is
    the loss of the forward pass on batch number [n] of epoch [e],
    [eval_forward e b] the loss during the validation that follows epoch
    [e] (after the loop: [e = num_epochs]), [test_forward b] the loss
    during the test. *)
Variable train_forward : nat → nat → batch → float.
Variable eval_forward : nat → batch → float.
Variable test_forward : batch → float.

(** The orders drawn by [shuffle]: in [train] at the start of epoch [e],
    in the validation that follows epoch [e], and in the test. *)
Variable draw : nat → list nat.
Variable vdraw : nat → list nat.
Variable tdraw : list nat.

Variable aod : ActionObservationDictionary.
Variable bsz : Z.
Variable cfg_patience : Z.
Variable valid_data test_data : data.

(** [for jj in range(0, len(Xs), self.bsz)] of [train]: the batch is
    assembled, the model run on it and the optimiser stepped. *)
Fixpoint train_batches (epoch_num : nat)
    (Xs : list (list elem)) (tourist_locs : list TouristLoc) (ys : list (list Z))
    (starts : list nat) (acc : eval_acc) : option eval_acc :=
  match starts with
  | [] => Some acc
  | jj :: rest =>
      let batch_num := S (batch_num acc) in
      b ← create_batch torch_sort_descending aod
             (slice jj (Z.to_nat bsz) Xs) (slice jj (Z.to_nat bsz) tourist_locs)
             (slice jj (Z.to_nat bsz) ys);
      train_batches epoch_num Xs tourist_locs ys rest
        {| total_loss := (total_loss acc + train_forward epoch_num batch_num b)%float;
           total := (total acc + 1)%float;
           batch_num := batch_num |}
  end.

(** The mini-batch loop of one epoch with the [print] that follows it:
    [total_loss/total] divides by zero when there was no batch. *)
Definition train_pass (epoch_num : nat) (st : train_state) : eval_exn + float :=
  match py_range (length (t_Xs st)) bsz with
  | None => inl RangeStepZero
  | Some starts =>
      match train_batches epoch_num (t_Xs st) (t_tourist_locs st) (t_ys st) starts
              {| total_loss := 0; total := 0; batch_num := 0 |} with
      | None => inl BatchFailed
      | Some acc =>
          if (total acc =? 0)%float then inl DivisionByZero
          else inr (total_loss acc / total acc)%float
      end
  end.

(** [eval_epoch] and [eval_test] on a split, [shuffle] checking the
    lengths first. *)
Definition eval_split (forward_loss : batch → float) (indices : list nat)
    (d : data) : failure + float :=
  if shuffle_consistent (Xs d) (tourist_locs d) (ys d) then
    match eval_epoch torch_sort_descending forward_loss aod bsz indices
            (Xs d) (tourist_locs d) (ys d) with
    | inl e => inl (Loop e)
    | inr loss => inr loss
    end
  else inl ShuffleLengths.

(** How [train] ended: by an exception ([inl]) or by one of its two
    returns; the local arrays and counters at that moment; the calls made
    up to it, the one that raised included; the number of epochs whose
    shuffle was done. *)
Record run := {
  r_outcome : (phase * failure) + stop;
  r_state : train_state (X := list elem);
  r_log : list event;
  r_epochs : nat;
}.

(** [for epoch_num in range(self.num_epochs)] and the code after it. *)
Fixpoint run_epochs (remaining : nat) (epoch_num : nat)
    (st : train_state (X := list elem)) (sofar : list event) : run :=
  match remaining with
  | O =>
      let log1 := sofar ++ [SaveModel; EvalEpoch] in
      match eval_split (eval_forward epoch_num) (vdraw epoch_num) valid_data with
      | inl f =>
          {| r_outcome := inl (Validation, f); r_state := st;
             r_log := log1; r_epochs := epoch_num |}
      | inr _ =>
          let log2 := log1 ++ [EvalTest] in
          match eval_split test_forward tdraw test_data with
          | inl f =>
              {| r_outcome := inl (Testing, f); r_state := st;
                 r_log := log2; r_epochs := epoch_num |}
          | inr _ =>
              {| r_outcome := inr EpochsExhausted; r_state := st;
                 r_log := log2; r_epochs := epoch_num |}
          end
      end
  | S remaining' =>
      if shuffle_consistent (t_Xs st) (t_tourist_locs st) (t_ys st) then
        let st1 := shuffle_epoch (draw epoch_num) st in
        let log1 := sofar ++ [TrainEpoch epoch_num] in
        match train_pass epoch_num st1 with
        | inl e =>
            {| r_outcome := inl (Training, Loop e); r_state := st1;
               r_log := log1; r_epochs := S epoch_num |}
        | inr _ =>
            let log2 := log1 ++ [EvalEpoch] in
            match eval_split (eval_forward epoch_num) (vdraw epoch_num) valid_data with
            | inl f =>
                {| r_outcome := inl (Validation, f); r_state := st1;
                   r_log := log2; r_epochs := S epoch_num |}
            | inr valid_loss =>
                let '(st2, evs, ret) := after_validation cfg_patience st1 valid_loss in
                let log3 := log2 ++ [LrSchedulerStep valid_loss] ++ evs in
                if ret then
                  match eval_split test_forward tdraw test_data with
                  | inl f =>
                      {| r_outcome := inl (Testing, f); r_state := st2;
                         r_log := log3; r_epochs := S epoch_num |}
                  | inr _ =>
                      {| r_outcome := inr PatienceExhausted; r_state := st2;
                         r_log := log3; r_epochs := S epoch_num |}
                  end
                else run_epochs remaining' (S epoch_num) st2 log3
            end
        end
      else
        {| r_outcome := inl (Training, ShuffleLengths); r_state := st;
           r_log := sofar; r_epochs := epoch_num |}
  end.

(** [train] on [self.train_data], [self.valid_data] and [self.test_data]. *)
Definition run_train (num_epochs : Z) (train_data : data) : run :=
  run_epochs (Z.to_nat num_epochs) 0
    (train_init (Xs train_data) (tourist_locs train_data)
       (landmarks train_data) (ys train_data)) [].

(** The validation loss of epoch [e], when the validation returns one. *)
Definition valid_loss_of (e : nat) : float :=
  match eval_split (eval_forward e) (vdraw e) valid_data with
  | inr loss => loss
  | inl _ => 0%float
  end.
End TrainRun.

(** The two examples of [sample_Xs] as a split, and a split with a single
    example. *)
Definition sample_train_data : @data sample_world :=
  {| Xs := sample_Xs; tourist_locs := sample_locs;
     landmarks := sample_landmarks; ys := sample_ys |}.

Definition single_data : @data sample_world :=
  {| Xs := [[EInt 1; EInt 16]];
     tourist_locs := [(0, 0)%Z] : list (@TouristLoc sample_world);
     landmarks := [[0%Z]] : list (@LandmarkSet sample_world);
     ys := [[5; 1]%Z] |}.

(** [train] run on [train_data] in the sample world, validated and tested
    on [sample_train_data]: every training batch has loss 1, the validation
    of epoch [e] the loss [sample_valid e], the test the loss 2. *)
Definition sample_run (num_epochs patience bsz : Z) (draw : nat → list nat)
    (train_data : @data sample_world) : run :=
  run_train (H := sample_tokens) sample_sort (λ _ _ _, 1%float) (λ e _, sample_valid e)
    (λ _, 2%float) draw (λ _, [0; 1]) [1; 0] (allocate (H := sample_tokens) 11 3)
    bsz patience sample_train_data sample_train_data num_epochs train_data.

(** ** str2bool *)

(** [c.lower()] on one character.  Only the ASCII letters A-Z change; no
    other character turns into a letter of the ten words [str2bool]
    accepts, so this is all of [str.lower] that [str2bool] depends on. *)
Definition lower_ascii (c : Ascii.ascii) : Ascii.ascii :=
  let n := Ascii.nat_of_ascii c in
  if bool_decide (65 ≤ n ≤ 90) then Ascii.ascii_of_nat (n + 32) else c.

Definition upper_ascii (c : Ascii.ascii) : Ascii.ascii :=
  let n := Ascii.nat_of_ascii c in
  if bool_decide (97 ≤ n ≤ 122) then Ascii.ascii_of_nat (n - 32) else c.

Fixpoint lower (s : string) : string :=
  match s with
  | EmptyString => EmptyString
  | String c rest => String (lower_ascii c) (lower rest)
  end.

Fixpoint upper (s : string) : string :=
  match s with
  | EmptyString => EmptyString
  | String c rest => String (upper_ascii c) (upper rest)
  end.

(** [str2bool]: [None] is [argparse.ArgumentTypeError]. *)
Definition str2bool (value : string) : option bool :=
  let v := lower value in
  if bool_decide (v ∈ ["yes"; "true"; "t"; "1"; "y"]) then Some true
  else if bool_decide (v ∈ ["no"; "false"; "f"; "n"; "0"]) then Some false
  else None.

(** ** setup_feature_loaders and setup_model *)

Section Setup.
Context `{Collaborators}.

(** [setup_feature_loaders]: the three flags of [self.args] and the loader
    each one installs. *)
Definition setup_feature_loaders (fasttext_features resnet_features
    goldstandard_features : bool) (fasttext resnet goldstandard : Loader)
    : gmap string Loader :=
  let fl := ∅ in
  let fl := if fasttext_features then <["fasttext" := fasttext]> fl else fl in
  let fl := if resnet_features then <["resnet" := resnet]> fl else fl in
  if goldstandard_features then <["goldstandard" := goldstandard]> fl else fl.

(** [self.max_len = max([len(seq) for seq in self.train_data[0]])] in
    [setup_model]; [None] is the [ValueError] of [max]. *)
Definition setup_max_len (train_data : data) : option nat :=
  py_max (length <$> Xs train_data).
End Setup.

Local Close Scope nat_scope.

(** * Properties *)

(** ** The index allocator *)

Section AllocatorFacts.
Context `{SpecialTokens}.

Lemma allocate_fields (L A : Z) :
  pad_idx (allocate L A) = L + A
  ∧ start_idx (allocate L A) = pad_idx (allocate L A) + 1
  ∧ end_idx (allocate L A) = start_idx (allocate L A) + 1
  ∧ unk_idx (allocate L A) = end_idx (allocate L A) + 1.
Proof. done. Qed.

(** Under pairwise different token strings, [tok2i] maps each string to
    the index of its field. *)
Lemma tok2i_lookup (L A : Z) :
  tokens_distinct = true →
  tok2i (allocate L A) !! START_TOKEN = Some (start_idx (allocate L A))
  ∧ tok2i (allocate L A) !! END_TOKEN = Some (end_idx (allocate L A))
  ∧ tok2i (allocate L A) !! PAD_TOKEN = Some (pad_idx (allocate L A))
  ∧ tok2i (allocate L A) !! UNK_TOKEN = Some (unk_idx (allocate L A)).
Proof.
  unfold tokens_distinct. intros Hd%bool_decide_eq_true.
  repeat match goal with
         | Hn : NoDup (_ :: _) |- _ => apply NoDup_cons in Hn as [? ?]
         end.
  repeat match goal with
         | Hn : _ ∉ _ :: _ |- _ => apply not_elem_of_cons in Hn as [? ?]
         end.
  cbn [tok2i allocate]. repeat split; by simplify_map_eq.
Qed.

(** Whatever the token strings are, [tok2i] has an entry for the pad
    token. *)
Lemma tok2i_pad_is_Some (L A : Z) :
  is_Some (tok2i (allocate L A) !! PAD_TOKEN).
Proof.
  cbn [tok2i allocate]. rewrite lookup_insert. case_decide; [by eexists|].
  rewrite lookup_insert_eq. by eexists.
Qed.

(** C5: built from a landmark vocabulary of size L and an action set of
    size A, the allocator has pad = L+A, start = pad+1, end = start+1 and
    unknown = end+1, so the four indices are pairwise distinct and
    contiguous; for L = 11 and A = 3 they are 14, 15, 16 and 17. *)
Theorem C5_allocator_layout :
  (∀ (A B : Type) (landmarks : list A) (actions : list B),
     ∃ d, new_ActionObservationDictionary (PyList landmarks) (PyList actions) = inr d
        ∧ pad_idx d = Z.of_nat (length landmarks) + Z.of_nat (length actions)
        ∧ start_idx d = pad_idx d + 1
        ∧ end_idx d = start_idx d + 1
        ∧ unk_idx d = end_idx d + 1
        ∧ NoDup [pad_idx d; start_idx d; end_idx d; unk_idx d])
  ∧ (∀ (A B : Type) (landmarks : list A) (actions : list B),
       length landmarks = 11%nat → length actions = 3%nat →
       ∃ d, new_ActionObservationDictionary (PyList landmarks) (PyList actions) = inr d
          ∧ pad_idx d = 14 ∧ start_idx d = 15 ∧ end_idx d = 16 ∧ unk_idx d = 17).
Proof.
  split.
  - intros A B landmarks actions. eexists. split; [done|].
    cbn [pad_idx start_idx end_idx unk_idx allocate].
    repeat split; try done.
    repeat (apply NoDup_cons; split;
              [rewrite ?elem_of_cons, elem_of_nil; lia|]).
    apply NoDup_nil_2.
  - intros A B landmarks actions HL HA. eexists. split; [done|].
    cbn [pad_idx start_idx end_idx unk_idx allocate].
    rewrite HL, HA. done.
Qed.
End AllocatorFacts.

Lemma C5_allocator_layout_witness :
  ∃ d, new_ActionObservationDictionary (H := sample_tokens)
         (PyList (replicate 11 "landmark")) (PyList [1; 2; 3]) = inr d
     ∧ pad_idx d = 14 ∧ start_idx d = 15 ∧ end_idx d = 16 ∧ unk_idx d = 17.
Proof.
  apply (proj2 (C5_allocator_layout (H := sample_tokens))); reflexivity.
Defined.

(** C6 fails as stated: an empty landmark vocabulary (L = 0) is accepted. *)
Lemma C6_counterexample :
  ¬ (∀ landmarks actions : pyval Z,
       size_unknown_or_non_positive landmarks ∨ size_unknown_or_non_positive actions →
       ∃ e, new_ActionObservationDictionary (H := sample_tokens) landmarks actions = inl e).
Proof.
  intros Hclaim.
  destruct (Hclaim (PyList []) (PyList [1; 2; 3])) as [e He].
  - left. unfold size_unknown_or_non_positive. simpl. lia.
  - discriminate He.
Qed.

Section AllocatorErrors.
Context `{SpecialTokens}.

(** C6, amended: the constructor performs no check on the sizes.  It fails
    exactly when one of its arguments has no length; for sized arguments,
    empty ones included, it returns the allocator with pad = L + A. *)
Theorem C6_allocator_fails_only_without_length {A B} (landmarks : pyval A) (actions : pyval B) :
  ((∃ e, new_ActionObservationDictionary landmarks actions = inl e)
     ↔ (landmarks = PyNone ∨ actions = PyNone))
  ∧ (∀ ls acts, landmarks = PyList ls → actions = PyList acts →
       new_ActionObservationDictionary landmarks actions
       = inr (allocate (Z.of_nat (length ls)) (Z.of_nat (length acts)))).
Proof.
  split.
  - destruct landmarks as [|ls], actions as [|acts]; simpl; split;
      try (intros [e He]; discriminate He); try (intros [?|?]; discriminate);
      eauto.
  - intros ls acts -> ->. done.
Qed.
End AllocatorErrors.

Lemma C6_allocator_fails_only_without_length_witness :
  new_ActionObservationDictionary (H := sample_tokens) (PyList (@nil Z)) (PyList [1; 2; 3])
  = inr (allocate (H := sample_tokens) 0 3).
Proof.
  apply (proj2 (C6_allocator_fails_only_without_length (H := sample_tokens)
                  (PyList (@nil Z)) (PyList [1; 2; 3])) [] [1; 2; 3]);
    reflexivity.
Defined.

(** ** The trajectory segmenter *)

Lemma get_action_turnleft : get_action "ACTION:TURNLEFT" = Some 1.
Proof. reflexivity. Qed.

Lemma get_action_turnright : get_action "ACTION:TURNRIGHT" = Some 2.
Proof. reflexivity. Qed.

Lemma get_action_forward : get_action "ACTION:FORWARD" = Some 3.
Proof. reflexivity. Qed.

(** The recognised commands are exactly the three keys of [msg_to_act]. *)
Lemma get_action_Some (msg : string) (act : Z) :
  get_action msg = Some act ↔
    (msg = "ACTION:TURNLEFT" ∧ act = 1)
    ∨ (msg = "ACTION:TURNRIGHT" ∧ act = 2)
    ∨ (msg = "ACTION:FORWARD" ∧ act = 3).
Proof.
  unfold get_action, msg_to_act.
  rewrite !lookup_insert_Some, lookup_empty.
  split.
  - intros [[<- <-]|[_ [[<- <-]|[_ [[<- <-]|[_ ?]]]]]]; auto; done.
  - intros [[-> ->]|[[-> ->]|[-> ->]]]; auto 10.
Qed.

Section SegmenterFacts.
Context `{SpecialTokens} `{Collaborators}.

Implicit Types (aod : ActionObservationDictionary) (w : walk) (msg : message).

(** A tourist turn that is a command: the location moves, the token enters
    the window, and a bundle follows it exactly when the token is 2. *)
Lemma process_msg_command aod fl bnd nbh w msg act :
  msg_id msg = "Tourist" →
  get_action (msg_text msg) = Some act →
  ∃ w', process_msg aod fl bnd nbh w msg = Some w'
      ∧ loc w' = step_aware act (loc w) bnd
      ∧ Xs (out w') = Xs (out w) ∧ ys (out w') = ys (out w)
      ∧ tourist_locs (out w') = tourist_locs (out w)
      ∧ act_obs_memory w' =
          (if bool_decide (act = 2)
           then deque_append (deque_append (act_obs_memory w) (EInt act))
                  (EObs (obs_emb fl nbh (step_aware act (loc w) bnd)))
           else deque_append (act_obs_memory w) (EInt act)).
Proof.
  intros Hid Hact. unfold process_msg.
  rewrite bool_decide_eq_true_2 by done. rewrite Hact.
  case_bool_decide.
  - destruct (get_landmarks_2d _ _ _) as [ls tl]. eexists. by split.
  - eexists. by split.
Qed.

(** C1 (the code at the forward command): on the tourist turn
    'ACTION:FORWARD', for which [get_action] returns 3, the movement
    function is applied and the token 3 is appended to the window, but no
    observation bundle is appended and no landmark set is recorded; the
    bundle is appended on 'ACTION:TURNRIGHT' (token 2) instead. *)
Theorem C1_forward_appends_no_bundle aod fl bnd nbh w :
  get_action "ACTION:FORWARD" = Some 3
  ∧ process_msg aod fl bnd nbh w {| msg_id := "Tourist"; msg_text := "ACTION:FORWARD" |}
    = Some {| loc := step_aware 3 (loc w) bnd;
              act_obs_memory := deque_append (act_obs_memory w) (EInt 3);
              out := out w |}
  ∧ ∃ w', process_msg aod fl bnd nbh w
            {| msg_id := "Tourist"; msg_text := "ACTION:TURNRIGHT" |} = Some w'
        ∧ loc w' = step_aware 2 (loc w) bnd
        ∧ act_obs_memory w' =
            deque_append (deque_append (act_obs_memory w) (EInt 2))
              (EObs (obs_emb fl nbh (step_aware 2 (loc w) bnd))).
Proof.
  split; [reflexivity|]. split.
  - unfold process_msg. cbn [msg_id msg_text].
    rewrite bool_decide_eq_true_2 by done.
    rewrite get_action_forward.
    by rewrite bool_decide_eq_false_2 by done.
  - destruct (process_msg_command aod fl bnd nbh w
                {| msg_id := "Tourist"; msg_text := "ACTION:TURNRIGHT" |} 2)
      as (w' & Hw' & Hloc & _ & _ & _ & Hmem); [done | apply get_action_turnright |].
    exists w'. by rewrite bool_decide_eq_true_2 in Hmem by done.
Qed.

(** Messages of the guide leave the walk untouched. *)
Lemma process_dialog_no_tourist aod fl bnd nbh w msgs :
  no_tourist_turn msgs = true →
  process_dialog aod fl bnd nbh w msgs = Some w.
Proof.
  unfold no_tourist_turn. revert w.
  induction msgs as [|m msgs IH]; intros w Hnt; [done|].
  cbn [forallb] in Hnt. apply andb_true_iff in Hnt as [Hm Hrest].
  apply negb_true_iff, bool_decide_eq_false in Hm.
  cbn [process_dialog]. unfold process_msg at 1.
  rewrite bool_decide_eq_false_2 by done. simpl. by apply IH.
Qed.

Lemma process_dialog_app aod fl bnd nbh w msgs1 msgs2 :
  process_dialog aod fl bnd nbh w (msgs1 ++ msgs2)
  = process_dialog aod fl bnd nbh w msgs1 ≫= λ w1, process_dialog aod fl bnd nbh w1 msgs2.
Proof.
  revert w. induction msgs1 as [|m msgs1 IH]; intros w; [done|].
  cbn [app process_dialog].
  destruct (process_msg aod fl bnd nbh w m) as [w1|]; [apply IH | done].
Qed.

(** A free-text tourist turn, on an allocator built by the constructor. *)
Lemma process_msg_utterance L A fl bnd nbh w msg :
  tokens_distinct = true →
  msg_id msg = "Tourist" →
  get_action (msg_text msg) = None →
  process_msg (allocate L A) fl bnd nbh w msg =
    let mem := deque_append (act_obs_memory w) (EObs (obs_emb fl nbh (loc w))) in
    Some {| loc := loc w;
            act_obs_memory := deque_clear mem;
            out := {| Xs := Xs (out w) ++ [items mem ++ [EInt (end_idx (allocate L A))]];
                      tourist_locs := tourist_locs (out w)
                                        ++ [(get_landmarks_2d nbh bnd (loc w)).2];
                      landmarks := landmarks (out w)
                                     ++ [(get_landmarks_2d nbh bnd (loc w)).1];
                      ys := ys (out w) ++ [encode (msg_text msg) true] |} |}.
Proof.
  intros Hd Hid Hact. unfold process_msg.
  rewrite bool_decide_eq_true_2 by done. rewrite Hact.
  destruct (get_landmarks_2d nbh bnd (loc w)) as [ls tl].
  destruct (tok2i_lookup L A Hd) as (_ & -> & _). done.
Qed.
End SegmenterFacts.

(** C7 fails as stated when the context length is 0 ([--num-steps 0]): the
    window keeps nothing, and the Trajectory of the single utterance is the
    end marker alone, not the bundle followed by the end marker. *)
Lemma C7_counterexample :
  contextlen 0 = Some 0%nat
  ∧ ∃ d,
      build_data (H := sample_tokens) (H0 := sample_world)
        (allocate (H := sample_tokens) 11 3) (<["goldstandard" := 7]> ∅)
        (contextlen 0) data_empty
        [ {| start_location := [2; 3; 0] : @Location sample_world;
             boundaries := [0; 0; 3; 3] : @Boundaries sample_world;
             neighborhood := "fidi" : @Neighborhood sample_world;
             dialog := [ {| msg_id := "Tourist"; msg_text := "i see a bank" |} ] |} ]
      = Some d
      ∧ Xs d = [[EInt 16]]
      ∧ Xs d ≠ [[EObs (obs_emb (<["goldstandard" := 7]> ∅)
                         ("fidi" : @Neighborhood sample_world)
                         ([2; 3; 0] : @Location sample_world));
                 EInt 16]].
Proof.
  split; [reflexivity|].
  eexists. split; [vm_compute; reflexivity|].
  split; [reflexivity|]. intros Heq. discriminate Heq.
Qed.

(** ** The batch assembler *)

Local Open Scope nat_scope.

Lemma py_max_Some (l : list nat) :
  l ≠ [] → ∃ m, py_max l = Some m ∧ Forall (λ n, n ≤ m) l ∧ m ∈ l.
Proof.
  destruct l as [|x rest]; [done|]. intros _. exists (foldl Nat.max x rest).
  split; [done|].
  revert x. induction rest as [|y rest IH]; intros x; cbn [foldl].
  - split; [by apply Forall_singleton | apply list_elem_of_here].
  - destruct (IH (x `max` y)) as [Hall Hin].
    apply Forall_cons in Hall as [Hx Hrest].
    split.
    + apply Forall_cons; split; [lia|].
      apply Forall_cons; split; [lia|done].
    + apply elem_of_cons in Hin as [Hin|Hin].
      * rewrite Hin.
        destruct (Nat.max_spec x y) as [[_ ->]|[_ ->]];
          rewrite !elem_of_cons; auto.
      * rewrite !elem_of_cons; auto.
Qed.

Lemma fill_from_spec {A} (seq row : list A) (j : nat) :
  j + length seq ≤ length row →
  fill_from j seq row = take j row ++ seq ++ drop (j + length seq) row.
Proof.
  revert j row. induction seq as [|e rest IH]; intros j row Hlen; cbn [fill_from length] in *.
  - cbn [app]. by rewrite Nat.add_0_r, take_drop.
  - rewrite IH by (rewrite length_insert; lia).
    rewrite drop_insert_lt by lia.
    rewrite insert_take_drop by lia.
    rewrite take_app_ge by (rewrite length_take; lia).
    rewrite length_take, Nat.min_l by lia.
    replace (S j - j) with 1 by lia. cbn [take].
    rewrite take_0. rewrite <- !app_assoc. cbn [app].
    by replace (S j + length rest) with (j + S (length rest)) by lia.
Qed.

Lemma fill_from_replicate {A} (seq : list A) (m : nat) (z : A) :
  length seq ≤ m →
  fill_from 0 seq (replicate m z) = seq ++ replicate (m - length seq) z.
Proof.
  intros Hlen. rewrite fill_from_spec by (rewrite length_replicate; lia).
  by rewrite take_0, drop_replicate.
Qed.

Lemma set_prefix_replicate {A} (k m : nat) (v z : A) :
  set_prefix k v (replicate m z) = replicate (k `min` m) v ++ replicate (m - k) z.
Proof. unfold set_prefix. by rewrite length_replicate, drop_replicate. Qed.

Lemma write_prefix_replicate {A} (seq : list A) (m : nat) (z : A) :
  write_prefix seq (replicate m z) = seq ++ replicate (m - length seq) z.
Proof. unfold write_prefix. by rewrite drop_replicate. Qed.

Lemma update_row_Some {A} (i : nat) (f : A → A) (g : list A) (r : A) :
  g !! i = Some r → update_row i f g = Some (<[i := f r]> g).
Proof. unfold update_row. by intros ->. Qed.

Section AssemblerFacts.
Context `{SpecialTokens} `{Collaborators}.

Lemma fill_X_length (Xs : list (list elem)) i G M :
  length (fill_X i Xs (G, M)).1 = length G
  ∧ length (fill_X i Xs (G, M)).2 = length M.
Proof.
  revert i G M. induction Xs as [|seq rest IH]; intros i G M; [done|].
  cbn [fill_X fst snd]. destruct (IH (S i) (alter (fill_from 0 seq) i G)
    (alter (set_prefix (length seq) 1%float) i M)) as [-> ->].
  by rewrite !length_alter.
Qed.

(** Row [r] of the grids after the first loop, started at row [i]. *)
Lemma fill_X_lookup (Xs : list (list elem)) i G M r :
  (fill_X i Xs (G, M)).1 !! r =
    match (if decide (i ≤ r)%nat then Xs !! (r - i)%nat else None) with
    | Some seq => fill_from 0 seq <$> G !! r
    | None => G !! r
    end
  ∧ (fill_X i Xs (G, M)).2 !! r =
    match (if decide (i ≤ r)%nat then Xs !! (r - i)%nat else None) with
    | Some seq => set_prefix (length seq) 1%float <$> M !! r
    | None => M !! r
    end.
Proof.
  revert i G M. induction Xs as [|seq rest IH]; intros i G M.
  - cbn [fill_X fst snd]. by case_decide.
  - cbn [fill_X fst snd].
    destruct (IH (S i) (alter (fill_from 0 seq) i G)
                (alter (set_prefix (length seq) 1%float) i M)) as [-> ->].
    destruct (decide (S i ≤ r)%nat) as [Hgt|Hle].
    + rewrite decide_True by lia.
      replace (r - i)%nat with (S (r - S i)) by lia. cbn [lookup list_lookup].
      rewrite !list_lookup_alter_ne by lia. done.
    + destruct (decide (i ≤ r)%nat) as [Hge|Hlt].
      * assert (r = i) as -> by lia. rewrite Nat.sub_diag. cbn [lookup list_lookup].
        by rewrite !list_lookup_alter_eq.
      * by rewrite !list_lookup_alter_ne by lia.
Qed.

(** The second loop succeeds when the grid has a row for every target. *)
Lemma fill_y_spec (ys : list (list Z)) i G :
  (i + length ys ≤ length G)%nat →
  ∃ G', fill_y i ys G = Some G'
      ∧ length G' = length G
      ∧ ∀ r, G' !! r =
          match (if decide (i ≤ r)%nat then ys !! (r - i)%nat else None) with
          | Some seq => write_prefix seq <$> G !! r
          | None => G !! r
          end.
Proof.
  revert i G. induction ys as [|seq rest IH]; intros i G Hlen.
  - exists G. split; [done|]. split; [done|]. intros r. by case_decide.
  - cbn [fill_y length] in *.
    destruct (lookup_lt_is_Some_2 G i) as [row Hrow]; [lia|].
    rewrite (update_row_Some _ _ _ _ Hrow). cbn [mbind option_bind].
    destruct (IH (S i) (<[i := write_prefix seq row]> G)) as (G' & -> & HlenG & Hlook).
    { rewrite length_insert. lia. }
    exists G'. split; [done|]. rewrite HlenG, length_insert. split; [done|].
    intros r. rewrite Hlook.
    destruct (decide (S i ≤ r)%nat) as [Hgt|Hle].
    + rewrite decide_True by lia.
      replace (r - i)%nat with (S (r - S i)) by lia. cbn [lookup list_lookup].
      rewrite !list_lookup_insert_ne by lia. done.
    + destruct (decide (i ≤ r)%nat) as [Hge|Hlt].
      * assert (r = i) as -> by lia. rewrite Nat.sub_diag. cbn [lookup list_lookup].
        rewrite list_lookup_insert_eq by lia. by rewrite Hrow.
      * by rewrite list_lookup_insert_ne by lia.
Qed.

(** What [create_batch] has built when it reaches the sort. *)
Lemma assemble_spec (Xs : list (list elem)) (tourist_locs : list TouristLoc)
    (ys : list (list Z)) :
  Xs ≠ [] →
  length ys = length Xs →
  ∃ u m,
    assemble Xs tourist_locs ys = Some u
    ∧ py_max (length <$> Xs) = Some m
    ∧ seq_lens u = length <$> Xs
    ∧ y_lens u = length <$> ys
    ∧ max_X_len u = m
    ∧ py_max (length <$> ys) = Some (max_y_len u)
    ∧ tourist_loc_batch u = tourist_locs
    ∧ length (X_batch u) = length Xs
    ∧ length (mask u) = length Xs
    ∧ length (y_batch u) = length Xs
    ∧ (∀ r seq, Xs !! r = Some seq → length seq ≤ m)%nat
    ∧ (∀ r seq, Xs !! r = Some seq →
         X_batch u !! r = Some (seq ++ replicate (m - length seq) (EInt 0))
         ∧ mask u !! r = Some (replicate (length seq) 1%float
                                ++ replicate (m - length seq) 0%float))
    ∧ (∀ r y, ys !! r = Some y →
         y_batch u !! r =
           Some (y ++ replicate (max_y_len u - length y) dictionary_pad)).
Proof.
  intros Hne Hlen.
  destruct (py_max_Some (length <$> Xs)) as (m & Hm & Hall & _).
  { by destruct Xs. }
  destruct (py_max_Some (length <$> ys)) as (my & Hmy & _ & _).
  { destruct ys; [|done]. by destruct Xs. }
  unfold assemble. rewrite Hmy, Hm. cbn [mbind option_bind].
  pose proof (fill_X_length Xs 0
    (replicate (length Xs) (replicate m (EInt 0)))
    (replicate (length Xs) (replicate m 0%float))) as [HlX HlM].
  pose proof (fill_X_lookup Xs 0
    (replicate (length Xs) (replicate m (EInt 0)))
    (replicate (length Xs) (replicate m 0%float))) as Hlook.
  destruct (fill_X 0 Xs _) as [Xb Mk]. cbn [fst snd] in *.
  destruct (fill_y_spec ys 0 (replicate (length Xs) (replicate my dictionary_pad)))
    as (Yb & -> & HlY & HlookY).
  { rewrite length_replicate. lia. }
  cbn [mbind option_bind]. eexists _, m. split; [done|].
  cbn [seq_lens y_lens max_X_len max_y_len tourist_loc_batch X_batch mask y_batch].
  rewrite length_replicate in HlX. rewrite length_replicate in HlM.
  rewrite length_replicate in HlY.
  repeat (split; [done|]).
  assert (∀ r seq, Xs !! r = Some seq → length seq ≤ m)%nat as Hbound.
  { intros r seq Hr. rewrite Forall_forall in Hall. apply Hall.
    apply list_elem_of_fmap. exists seq. split; [done|].
    by eapply list_elem_of_lookup_2. }
  split; [done|]. split.
  - intros r seq Hr. destruct (Hlook r) as [-> ->].
    rewrite decide_True by lia. rewrite Nat.sub_0_r, Hr.
    rewrite !lookup_replicate_2 by (by eapply lookup_lt_Some).
    cbn [fmap option_fmap option_map].
    pose proof (Hbound r seq Hr) as Hseq.
    rewrite fill_from_replicate by done.
    rewrite set_prefix_replicate. by rewrite Nat.min_l by done.
  - intros r y Hr. rewrite HlookY.
    rewrite decide_True by lia. rewrite Nat.sub_0_r, Hr.
    rewrite lookup_replicate_2 by (rewrite <- Hlen; by eapply lookup_lt_Some).
    cbn [fmap option_fmap option_map]. by rewrite write_prefix_replicate.
Qed.
End AssemblerFacts.

Lemma is_range_perm_spec (idxs : list nat) (n : nat) :
  is_range_perm idxs n = true → idxs ≡ₚ seq 0 n.
Proof.
  unfold is_range_perm.
  rewrite andb_true_iff, bool_decide_eq_true, forallb_forall.
  intros [Hlen Hall]. symmetry.
  apply submseteq_length_Permutation; [|by rewrite length_seq, Hlen].
  apply NoDup_submseteq; [apply NoDup_seq|].
  intros r Hr. apply list_elem_of_In, Hall in Hr.
  by apply bool_decide_eq_true in Hr.
Qed.

Section SortFacts.
Context `{SpecialTokens} `{Collaborators}.

(** The parts of the contract of [torch.sort], one by one. *)
Lemma torch_sort_ok_inv (input vals idxs : list nat) :
  torch_sort_ok input (vals, idxs) = true →
  idxs ≡ₚ seq 0 (length input)
  ∧ length vals = length input
  ∧ (∀ i idx, idxs !! i = Some idx → vals !! i = input !! idx ∧ idx < length input)
  ∧ Sorted (flip le) vals.
Proof.
  unfold torch_sort_ok. cbn [fst snd].
  rewrite !andb_true_iff, !bool_decide_eq_true.
  intros [[Hperm%is_range_perm_spec Hvals] Hsorted].
  assert (length idxs = length input) as Hlen.
  { by rewrite Hperm, length_seq. }
  split; [done|]. split; [|split; [|done]].
  - apply (f_equal length) in Hvals. rewrite !length_fmap in Hvals. congruence.
  - intros i idx Hi. split.
    + apply (f_equal (λ l, l !! i)) in Hvals.
      rewrite !list_lookup_fmap, Hi in Hvals. cbn in Hvals.
      destruct (vals !! i) as [v|] eqn:Hv; cbn in Hvals; congruence.
    + assert (idx ∈ seq 0 (length input)) as Hin.
      { rewrite <- Hperm. by eapply list_elem_of_lookup_2. }
      apply elem_of_seq in Hin. lia.
Qed.

(** The loop over [sorted_indices], started at row [i] with [N] rows in
    every tensor: it succeeds, and row [r] of each sorted tensor is the row
    of the unsorted one named by the index at position [r]. *)
Lemma sort_rows_spec (u : unsorted) (N : nat) (vals idxs : list nat) (i : nat)
    (s : sorted_state) :
  length (X_batch u) = N → length (y_batch u) = N →
  length (tourist_loc_batch u) = N → length (y_lens u) = N →
  length (sorted_X_batch s) = N → length (sorted_y_batch s) = N →
  length (sorted_tourist_loc_batch s) = N → length (sorted_mask s) = N →
  i + length idxs ≤ length vals → i + length idxs ≤ N →
  Forall (λ idx, idx < N) idxs →
  ∃ s', sort_rows u vals idxs i s = Some s'
    ∧ length (sorted_X_batch s') = N ∧ length (sorted_y_batch s') = N
    ∧ length (sorted_tourist_loc_batch s') = N ∧ length (sorted_mask s') = N
    ∧ sorted_y_lens s' = sorted_y_lens s ++ take (length idxs) (drop i (y_lens u))
    ∧ (∀ r, r < i →
         sorted_X_batch s' !! r = sorted_X_batch s !! r
         ∧ sorted_y_batch s' !! r = sorted_y_batch s !! r
         ∧ sorted_tourist_loc_batch s' !! r = sorted_tourist_loc_batch s !! r
         ∧ sorted_mask s' !! r = sorted_mask s !! r)
    ∧ ∀ r idx, idxs !! r = Some idx →
        sorted_X_batch s' !! (i + r) = X_batch u !! idx
        ∧ sorted_y_batch s' !! (i + r) = y_batch u !! idx
        ∧ sorted_tourist_loc_batch s' !! (i + r) = Some (tourist_loc_batch u !! idx)
        ∧ ∃ k row, vals !! (i + r) = Some k ∧ sorted_mask s !! (i + r) = Some row
            ∧ sorted_mask s' !! (i + r) = Some (set_prefix k 1%float row).
Proof.
  intros HX Hy Hl Hyl. revert i s.
  induction idxs as [|idx rest IH]; intros i s HsX HsY HsL HsM Hvals HN Hall.
  - exists s. split; [done|]. do 4 (split; [done|]).
    cbn [length take]. rewrite app_nil_r.
    split; [done|]. split; [done|]. intros r idx Hr. done.
  - apply Forall_cons in Hall as [Hidx Hall]. cbn [length] in Hvals, HN.
    cbn [sort_rows].
    destruct (lookup_lt_is_Some_2 (X_batch u) idx) as [x_row Hx]; [lia|].
    destruct (lookup_lt_is_Some_2 (y_batch u) idx) as [y_row Hyr]; [lia|].
    destruct (lookup_lt_is_Some_2 (tourist_loc_batch u) idx) as [t_loc Ht]; [lia|].
    destruct (lookup_lt_is_Some_2 (y_lens u) i) as [y_len Hylen]; [lia|].
    destruct (lookup_lt_is_Some_2 vals i) as [k Hk]; [lia|].
    destruct (lookup_lt_is_Some_2 (sorted_X_batch s) i) as [x0 Hx0]; [lia|].
    destruct (lookup_lt_is_Some_2 (sorted_y_batch s) i) as [y0 Hy0]; [lia|].
    destruct (lookup_lt_is_Some_2 (sorted_tourist_loc_batch s) i) as [l0 Hl0]; [lia|].
    destruct (lookup_lt_is_Some_2 (sorted_mask s) i) as [m0 Hm0]; [lia|].
    rewrite Hx; cbn [mbind option_bind].
    rewrite (update_row_Some _ _ _ _ Hx0); cbn [mbind option_bind].
    rewrite Hyr; cbn [mbind option_bind].
    rewrite (update_row_Some _ _ _ _ Hy0); cbn [mbind option_bind].
    rewrite Hylen; cbn [mbind option_bind].
    rewrite Ht; cbn [mbind option_bind].
    rewrite (update_row_Some _ _ _ _ Hl0); cbn [mbind option_bind].
    rewrite Hk; cbn [mbind option_bind].
    rewrite (update_row_Some _ _ _ _ Hm0); cbn [mbind option_bind].
    edestruct (IH (S i)) as (s' & Hs' & ? & ? & ? & ? & Hlens & Hframe & Hrows);
      [| | | | | | | rewrite Hs'];
      cbn [sorted_X_batch sorted_y_batch sorted_tourist_loc_batch sorted_mask];
      rewrite ?length_insert; try done; try lia.
    cbn [sorted_X_batch sorted_y_batch sorted_tourist_loc_batch sorted_mask
         sorted_y_lens] in *.
    exists s'. split; [done|]. do 4 (split; [done|]). split; [|split].
    + rewrite Hlens. rewrite <- app_assoc. f_equal.
      by rewrite (drop_S _ _ _ Hylen).
    + intros r Hr. destruct (Hframe r) as (-> & -> & -> & ->); [lia|].
      by rewrite !list_lookup_insert_ne by lia.
    + intros [|r] idx' Hr.
      * cbn in Hr. injection Hr as <-. rewrite Nat.add_0_r.
        destruct (Hframe i) as (-> & -> & -> & ->); [lia|].
        rewrite !list_lookup_insert_eq by lia.
        rewrite Hx, Hyr, Ht. repeat (split; [done|]). by exists k, m0.
      * cbn in Hr. replace (i + S r) with (S i + r) by lia.
        destruct (Hrows r idx' Hr) as (-> & -> & -> & k' & row & Hk' & Hrow & Hm').
        repeat (split; [done|]). exists k', row. split; [done|].
        split; [|done].
        by rewrite list_lookup_insert_ne in Hrow by lia.
Qed.

Variable torch_sort_descending : list nat → list nat * list nat.

(** [create_batch] on a non-empty batch of aligned arrays, with a sort that
    behaves as specified on it. *)
Lemma create_batch_spec L A (Xs : list (list elem)) (tourist_locs : list TouristLoc)
    (ys : list (list Z)) :
  Xs ≠ [] →
  length tourist_locs = length Xs →
  length ys = length Xs →
  torch_sort_ok (length <$> Xs) (torch_sort_descending (length <$> Xs)) = true →
  ∃ u b m,
    assemble Xs tourist_locs ys = Some u
    ∧ create_batch torch_sort_descending (allocate L A) Xs tourist_locs ys = Some b
    ∧ py_max (length <$> Xs) = Some m
    ∧ length (b_X b) = length Xs ∧ length (b_y b) = length Xs
    ∧ length (b_tourist_loc b) = length Xs ∧ length (b_mask b) = length Xs
    ∧ b_y_lengths b = length <$> ys
    ∧ b_X_lengths b = sorted_reverse (length <$> Xs)
    ∧ b_max_len b = max_y_len u
    ∧ ∀ i idx, (torch_sort_descending (length <$> Xs)).2 !! i = Some idx →
        b_X b !! i = X_batch u !! idx
        ∧ b_y b !! i = y_batch u !! idx
        ∧ b_tourist_loc b !! i = Some (tourist_locs !! idx)
        ∧ b_mask b !! i = mask u !! idx.
Proof.
  intros Hne Hlocs Hys Hok.
  destruct (assemble_spec Xs tourist_locs ys Hne Hys)
    as (u & m & Hu & Hm & Hsl & Hyl & HmX & HmY & Htl & HlX & HlM & HlY
        & Hbound & HrowX & HrowY).
  destruct (torch_sort_descending (length <$> Xs)) as [vals idxs] eqn:Hsort.
  destruct (torch_sort_ok_inv _ _ _ Hok) as (Hperm & Hlv & Hvals & Hsorted).
  rewrite length_fmap in Hlv.
  assert (length idxs = length Xs) as Hli.
  { by rewrite Hperm, length_seq, length_fmap. }
  unfold create_batch. rewrite Hu. cbn [mbind option_bind].
  rewrite Hsl, Hsort.
  destruct (tok2i_pad_is_Some L A) as [pad ->]. cbn [mbind option_bind].
  edestruct (sort_rows_spec u (length Xs) vals idxs 0)
    as (s' & -> & HsX & HsY & HsL & HsM & Hlens & _ & Hrows);
    [done | done | by rewrite Htl | by rewrite Hyl, length_fmap
    | .. ];
    cbn [sorted_X_batch sorted_y_batch sorted_tourist_loc_batch sorted_mask];
    rewrite ?length_replicate; try done; try lia.
  { apply Forall_forall. intros idx Hin.
    apply list_elem_of_lookup in Hin as [i Hi].
    destruct (Hvals i idx Hi) as [_ Hlt]. by rewrite length_fmap in Hlt. }
  cbn [mbind option_bind]. exists u. eexists. exists m. split; [done|]. split; [done|].
  cbn [b_X b_y b_tourist_loc b_mask b_y_lengths b_X_lengths b_max_len].
  split; [done|]. do 4 (split; [done|]).
  split.
  { rewrite Hlens. cbn [sorted_y_lens app]. rewrite drop_0, Hli, Hyl.
    rewrite take_ge; [done|]. by rewrite length_fmap, Hys. }
  split; [done|]. split; [done|].
  cbn [snd]. intros i idx Hi.
  destruct (Hrows i idx Hi) as (HX & HY & HL & k & row & Hk & Hrow & HM).
  cbn [Nat.add] in *. rewrite HX, HY, HL, Htl. repeat (split; [done|]).
  rewrite HM. cbn [sorted_mask] in Hrow.
  apply lookup_replicate_1 in Hrow as [-> _].
  destruct (Hvals i idx Hi) as [Hki Hlt]. rewrite Hk in Hki.
  symmetry in Hki. rewrite list_lookup_fmap in Hki.
  destruct (Xs !! idx) as [seq|] eqn:Hseq; [|done].
  cbn in Hki. injection Hki as <-.
  destruct (HrowX idx seq Hseq) as [_ ->].
  rewrite set_prefix_replicate, HmX.
  by rewrite Nat.min_l by (by eapply Hbound).
Qed.
End SortFacts.

(** ** Facts about sorting *)

Lemma flip_le_total : Total (flip le).
Proof. intros x y. unfold flip. lia. Qed.

Lemma flip_le_antisymm : AntiSymm eq (flip le).
Proof. intros x y. unfold flip. lia. Qed.

Lemma sorted_reverse_spec (l : list nat) :
  StronglySorted (flip le) (sorted_reverse l) ∧ sorted_reverse l ≡ₚ l.
Proof.
  split.
  - apply StronglySorted_merge_sort; [apply _ | apply flip_le_total].
  - apply merge_sort_Permutation.
Qed.

Lemma StronglySorted_lookup {A} (R : relation A) (l : list A) i j x y :
  StronglySorted R l → i < j → l !! i = Some x → l !! j = Some y → R x y.
Proof.
  intros Hs Hij Hi Hj. rewrite <- (take_drop j l) in Hs.
  eapply StronglySorted_app_1_elem_of; [exact Hs | |].
  - apply list_elem_of_lookup. exists i. by rewrite lookup_take_lt.
  - apply list_elem_of_lookup. exists 0. by rewrite lookup_drop, Nat.add_0_r.
Qed.

Lemma lookup_through_seq {A} (l : list A) :
  (λ idx, l !! idx) <$> seq 0 (length l) = Some <$> l.
Proof.
  apply list_eq. intros i. rewrite !list_lookup_fmap.
  destruct (decide (i < length l)) as [Hlt|Hge].
  - rewrite lookup_seq_lt by done. cbn.
    destruct (lookup_lt_is_Some_2 l i Hlt) as [x ->]. done.
  - rewrite lookup_seq_ge by lia. by rewrite lookup_ge_None_2 by lia.
Qed.

(** The values returned by a sort that meets the contract are the input
    sorted in descending order: there is only one such list. *)
Lemma torch_sort_values (input vals idxs : list nat) :
  torch_sort_ok input (vals, idxs) = true → vals = sorted_reverse input.
Proof.
  intros Hok. pose proof Hok as Hinv%torch_sort_ok_inv.
  destruct Hinv as (Hperm & _ & _ & Hsorted).
  unfold torch_sort_ok in Hok. cbn [fst snd] in Hok.
  rewrite !andb_true_iff, !bool_decide_eq_true in Hok.
  destruct Hok as [[_ Hvals] _].
  destruct (sorted_reverse_spec input) as [Hs Hp].
  pose proof flip_le_antisymm as Hanti.
  apply (Sorted_unique (flip le)); [done | by apply StronglySorted_Sorted |].
  rewrite Hp.
  assert (Some <$> vals ≡ₚ Some <$> input) as HP.
  { rewrite Hvals, Hperm. by rewrite lookup_through_seq. }
  apply Permutation_map_inv in HP as (l3 & Heq & Hl3).
  assert (vals = l3) as ->; [|by symmetry].
  revert Heq. clear. revert l3.
  induction vals as [|a l IH]; intros [|b l3] Heq; try done.
  cbn in Heq. injection Heq as -> Heq. f_equal. by apply IH.
Qed.

Section BatchRows.
Context `{SpecialTokens} `{Collaborators}.
Variable torch_sort_descending : list nat → list nat * list nat.

(** The batch returned by [create_batch], row by row: row [i] is built
    from the example whose index the sort put at position [i]. *)
Lemma create_batch_rows L A (Xs : list (list elem)) (tourist_locs : list TouristLoc)
    (ys : list (list Z)) :
  0 < length Xs →
  length tourist_locs = length Xs →
  length ys = length Xs →
  torch_sort_ok (length <$> Xs) (torch_sort_descending (length <$> Xs)) = true →
  ∃ b m my,
    create_batch torch_sort_descending (allocate L A) Xs tourist_locs ys = Some b
    ∧ py_max (length <$> Xs) = Some m
    ∧ py_max (length <$> ys) = Some my
    ∧ length (b_X b) = length Xs ∧ length (b_y b) = length Xs
    ∧ length (b_tourist_loc b) = length Xs ∧ length (b_mask b) = length Xs
    ∧ b_y_lengths b = length <$> ys
    ∧ b_X_lengths b = sorted_reverse (length <$> Xs)
    ∧ b_max_len b = my
    ∧ ∀ i idx, (torch_sort_descending (length <$> Xs)).2 !! i = Some idx →
        ∃ seq y t,
          Xs !! idx = Some seq ∧ ys !! idx = Some y ∧ tourist_locs !! idx = Some t
          ∧ b_X b !! i = Some (seq ++ replicate (m - length seq) (EInt 0))
          ∧ b_mask b !! i = Some (replicate (length seq) 1%float
                                   ++ replicate (m - length seq) 0%float)
          ∧ b_y b !! i = Some (y ++ replicate (my - length y) dictionary_pad)
          ∧ b_tourist_loc b !! i = Some (Some t).
Proof.
  intros Hpos Hlocs Hys Hok.
  assert (Xs ≠ []) as Hne by (destruct Xs; [cbn in Hpos; lia | done]).
  destruct (create_batch_spec torch_sort_descending L A Xs tourist_locs ys
              Hne Hlocs Hys Hok)
    as (u & b & m & Hu & Hb & Hm & HlX & HlY & HlL & HlM & Hyl & HXl & Hmax & Hrows).
  destruct (assemble_spec Xs tourist_locs ys Hne Hys)
    as (u' & m' & Hu' & Hm' & _ & _ & _ & HmY & _ & _ & _ & _ & _ & HrowX & HrowY).
  rewrite Hu in Hu'. injection Hu' as <-. rewrite Hm in Hm'. injection Hm' as <-.
  exists b, m, (max_y_len u). repeat (split; [done|]).
  intros i idx Hi.
  destruct (torch_sort_descending (length <$> Xs)) as [vals idxs] eqn:Hsort.
  destruct (torch_sort_ok_inv _ _ _ Hok) as (_ & _ & Hvals & _).
  cbn [snd] in *.
  destruct (Hvals i idx Hi) as [_ Hlt]. rewrite length_fmap in Hlt.
  destruct (lookup_lt_is_Some_2 Xs idx) as [seq Hseq]; [lia|].
  destruct (lookup_lt_is_Some_2 ys idx) as [y Hy]; [lia|].
  destruct (lookup_lt_is_Some_2 tourist_locs idx) as [t Ht]; [lia|].
  exists seq, y, t. repeat (split; [done|]).
  destruct (Hrows i idx Hi) as (-> & -> & -> & ->).
  destruct (HrowX idx seq Hseq) as [-> ->]. rewrite (HrowY idx y Hy), Ht. done.
Qed.

(** C2 (the code on the unused cells): in the source grid returned by
    [create_batch], row [i] is the trajectory the sort put at position [i]
    followed by cells holding the integer 0.  The filled cells keep their
    element; the unused cells hold 0 and not the pad index of the
    action/observation vocabulary, which is L + A. *)
Theorem C2_unused_cells_hold_zero L A (Xs : list (list elem))
    (tourist_locs : list TouristLoc) (ys : list (list Z)) :
  0 < length Xs →
  length tourist_locs = length Xs →
  length ys = length Xs →
  torch_sort_ok (length <$> Xs) (torch_sort_descending (length <$> Xs)) = true →
  ∃ b m,
    create_batch torch_sort_descending (allocate L A) Xs tourist_locs ys = Some b
    ∧ py_max (length <$> Xs) = Some m
    ∧ ∀ i row, b_X b !! i = Some row →
        ∃ idx seq,
          (torch_sort_descending (length <$> Xs)).2 !! i = Some idx
          ∧ Xs !! idx = Some seq
          ∧ length row = m
          ∧ (∀ j, j < length seq → row !! j = seq !! j)
          ∧ (∀ j, length seq ≤ j < m → row !! j = Some (EInt 0))
          ∧ ((L + A ≠ 0)%Z → ∀ j, length seq ≤ j < m →
               row !! j ≠ Some (EInt (pad_idx (allocate L A)))).
Proof.
  intros Hpos Hlocs Hys Hok.
  destruct (create_batch_rows L A Xs tourist_locs ys Hpos Hlocs Hys Hok)
    as (b & m & my & Hb & Hm & _ & HlX & _ & _ & _ & _ & _ & _ & Hrows).
  exists b, m. split; [done|]. split; [done|].
  intros i row Hrow.
  destruct (torch_sort_descending (length <$> Xs)) as [vals idxs] eqn:Hsort.
  destruct (torch_sort_ok_inv _ _ _ Hok) as (Hperm & _ & _ & _).
  cbn [snd] in *.
  assert (length idxs = length Xs) as Hli.
  { by rewrite Hperm, length_seq, length_fmap. }
  destruct (lookup_lt_is_Some_2 idxs i) as [idx Hidx].
  { rewrite Hli, <- HlX. by eapply lookup_lt_Some. }
  destruct (Hrows i idx Hidx) as (seq & y & t & Hseq & _ & _ & HX & _).
  rewrite Hrow in HX. injection HX as ->.
  destruct (py_max_Some (length <$> Xs)) as (m' & Hm' & Hall & _).
  { by destruct Xs. }
  rewrite Hm in Hm'. injection Hm' as <-.
  assert (length seq ≤ m) as Hle.
  { rewrite Forall_forall in Hall. apply Hall, list_elem_of_fmap.
    exists seq. split; [done|]. by eapply list_elem_of_lookup_2. }
  exists idx, seq. split; [done|]. split; [done|]. split.
  { rewrite length_app, length_replicate. lia. }
  split; [|split].
  - intros j Hj. by rewrite lookup_app_l.
  - intros j Hj. rewrite lookup_app_r by lia.
    apply lookup_replicate_2. lia.
  - intros HLA j Hj. rewrite lookup_app_r by lia.
    rewrite lookup_replicate_2 by lia. cbn [pad_idx allocate].
    intros Heq. injection Heq as Heq. lia.
Qed.

(** C3: the list of target lengths returned by [create_batch] is the list
    of target lengths of the input, in input order: entry [i] is the target
    length of example [i] of the input, while row [i] of the returned target
    grid is the target of the example the sort put at position [i]. *)
Theorem C3_target_lengths_in_input_order L A (Xs : list (list elem))
    (tourist_locs : list TouristLoc) (ys : list (list Z)) :
  0 < length Xs →
  length tourist_locs = length Xs →
  length ys = length Xs →
  torch_sort_ok (length <$> Xs) (torch_sort_descending (length <$> Xs)) = true →
  ∃ b my,
    create_batch torch_sort_descending (allocate L A) Xs tourist_locs ys = Some b
    ∧ py_max (length <$> ys) = Some my
    ∧ b_y_lengths b = length <$> ys
    ∧ (∀ i, b_y_lengths b !! i = length <$> ys !! i)
    ∧ (∀ i idx, (torch_sort_descending (length <$> Xs)).2 !! i = Some idx →
         ∃ y, ys !! idx = Some y
            ∧ b_y b !! i = Some (y ++ replicate (my - length y) dictionary_pad)).
Proof.
  intros Hpos Hlocs Hys Hok.
  destruct (create_batch_rows L A Xs tourist_locs ys Hpos Hlocs Hys Hok)
    as (b & m & my & Hb & _ & Hmy & _ & _ & _ & _ & Hyl & _ & _ & Hrows).
  exists b, my. do 3 (split; [done|]). split.
  - intros i. by rewrite Hyl, list_lookup_fmap.
  - intros i idx Hi.
    destruct (Hrows i idx Hi) as (seq & y & t & _ & Hy & _ & _ & _ & HY & _).
    by exists y.
Qed.
End BatchRows.

(** ** The library sort *)

(** Insertion keeps the pairs. *)
Lemma insert_keyed_perm p l : insert_keyed p l ≡ₚ p :: l.
Proof.
  induction l as [|q l IH]; [done|]. cbn [insert_keyed].
  case_bool_decide; [done|]. rewrite IH. apply Permutation_swap.
Qed.

Lemma sort_keyed_perm z : foldr insert_keyed [] z ≡ₚ z.
Proof.
  induction z as [|p z IH]; [done|]. cbn [foldr].
  by rewrite insert_keyed_perm, IH.
Qed.

(** Inserting a pair whose row index is smaller than all those present
    keeps the order. *)
Lemma insert_keyed_sorted p l :
  StronglySorted stands_before l →
  Forall (λ q, p.2 < q.2) l →
  StronglySorted stands_before (insert_keyed p l).
Proof.
  induction 1 as [|q l Hs IH Hq]; intros Hidx.
  - repeat constructor.
  - apply Forall_cons in Hidx as [Hpq Hidx]. cbn [insert_keyed].
    case_bool_decide as Hle.
    + constructor; [by constructor|].
      apply Forall_cons. split.
      * unfold stands_before. lia.
      * rewrite Forall_forall in Hq, Hidx |- *. intros x Hx.
        specialize (Hq x Hx). specialize (Hidx x Hx).
        unfold stands_before in *. lia.
    + constructor; [by apply IH|].
      rewrite insert_keyed_perm. apply Forall_cons. split; [|done].
      unfold stands_before. lia.
Qed.

Lemma sort_keyed_sorted (l : list nat) (k : nat) :
  StronglySorted stands_before (foldr insert_keyed [] (zip l (seq k (length l)))).
Proof.
  revert k. induction l as [|x l IH]; intros k; [constructor|].
  cbn [length seq zip zip_with foldr].
  apply insert_keyed_sorted; [apply IH|].
  rewrite sort_keyed_perm. apply Forall_forall. intros [v i] Hin.
  apply elem_of_zip_r, elem_of_seq in Hin. cbn. lia.
Qed.

Lemma zip_seq_lookup (l : list nat) (v i : nat) :
  (v, i) ∈ zip l (seq 0 (length l)) ↔ l !! i = Some v.
Proof.
  rewrite list_elem_of_lookup. split.
  - intros [k Hk]. apply lookup_zip_with_Some in Hk as (a & b & [= <- <-] & Ha & Hb).
    apply lookup_seq in Hb as [-> _]. done.
  - intros Hi. exists i. apply lookup_zip_with_Some. exists v, i.
    split; [done|]. split; [done|]. apply lookup_seq. split; [done|].
    by eapply lookup_lt_Some.
Qed.

(** [torch_sort] through its sorted pairs: they are in order, their row
    indices are a rearrangement of [0 .. N-1], and each pair holds a row
    index with the length found there. *)
Lemma torch_sort_keyed (l : list nat) :
  let keyed := foldr insert_keyed [] (zip l (seq 0 (length l))) in
  torch_sort l = (keyed.*1, keyed.*2)
  ∧ StronglySorted stands_before keyed
  ∧ keyed.*2 ≡ₚ seq 0 (length l)
  ∧ ∀ v i, (v, i) ∈ keyed ↔ l !! i = Some v.
Proof.
  cbv zeta. split; [done|]. split; [apply sort_keyed_sorted|]. split.
  - rewrite sort_keyed_perm. rewrite snd_zip; [done|]. by rewrite length_seq.
  - intros v i. rewrite sort_keyed_perm. apply zip_seq_lookup.
Qed.

(** The model meets the contract of the library call on every input. *)
Lemma torch_sort_meets_contract (l : list nat) :
  torch_sort_ok l (torch_sort l) = true.
Proof.
  destruct (torch_sort_keyed l) as (-> & Hs & Hp & Hin).
  set (keyed := foldr insert_keyed [] (zip l (seq 0 (length l)))) in *.
  unfold torch_sort_ok. cbn [fst snd].
  rewrite !andb_true_iff, !bool_decide_eq_true. split; [split|].
  - unfold is_range_perm. rewrite andb_true_iff, bool_decide_eq_true. split.
    + by rewrite Hp, length_seq.
    + apply forallb_forall. intros r Hr. apply bool_decide_eq_true.
      rewrite Hp. by apply list_elem_of_In.
  - apply list_eq. intros k. rewrite !list_lookup_fmap.
    destruct (keyed !! k) as [[v i]|] eqn:Hk; [|done]. cbn.
    f_equal. symmetry. apply Hin. by eapply list_elem_of_lookup_2.
  - apply StronglySorted_Sorted. clear -Hs.
    induction Hs as [|p z Hs IH Hall]; [constructor|].
    cbn [fmap list_fmap]. constructor; [done|].
    apply Forall_fmap. eapply Forall_impl; [exact Hall|].
    intros q. unfold stands_before, flip. cbn. lia.
Qed.

(** Where the model puts two rows of which the first stands before the
    second. *)
Lemma torch_sort_positions (l : list nat) (a c va vc : nat) :
  l !! a = Some va → l !! c = Some vc →
  stands_before (va, a) (vc, c) →
  ∃ i j, i < j ∧ (torch_sort l).2 !! i = Some a ∧ (torch_sort l).2 !! j = Some c.
Proof.
  intros Ha Hc Hbefore.
  destruct (torch_sort_keyed l) as (-> & Hs & _ & Hin). cbn [snd].
  set (keyed := foldr insert_keyed [] (zip l (seq 0 (length l)))) in *.
  apply Hin, list_elem_of_lookup in Ha as [i Hi].
  apply Hin, list_elem_of_lookup in Hc as [j Hj].
  exists i, j. rewrite !list_lookup_fmap, Hi, Hj. split; [|done].
  destruct (Nat.lt_trichotomy i j) as [Hlt|[->|Hgt]]; [done| |].
  - rewrite Hi in Hj. injection Hj as -> ->.
    unfold stands_before in Hbefore. cbn in Hbefore. lia.
  - pose proof (StronglySorted_lookup _ _ j i _ _ Hs Hgt Hj Hi) as Hrev.
    unfold stands_before in Hbefore, Hrev. cbn in Hbefore, Hrev. lia.
Qed.

Section BatchOrder.
Context `{SpecialTokens} `{Collaborators}.

(** A rearrangement of [0 .. N-1] names every row exactly once. *)
Lemma perm_range_once (idxs : list nat) (N r : nat) :
  idxs ≡ₚ seq 0 N → r < N →
  ∃ i, idxs !! i = Some r ∧ ∀ j, idxs !! j = Some r → j = i.
Proof.
  intros Hperm Hr.
  assert (r ∈ idxs) as Hin.
  { rewrite Hperm. apply elem_of_seq. lia. }
  apply list_elem_of_lookup in Hin as [i Hi]. exists i. split; [done|].
  intros j Hj. eapply NoDup_lookup; [|exact Hj|exact Hi].
  rewrite Hperm. apply NoDup_seq.
Qed.

(** Rows read through a rearrangement of their indices are the same rows,
    rearranged. *)
Lemma rows_through_perm {A} (rows sorted : list A) (idxs : list nat) :
  idxs ≡ₚ seq 0 (length rows) →
  (∀ i idx, idxs !! i = Some idx → sorted !! i = rows !! idx) →
  length sorted = length rows →
  sorted ≡ₚ rows.
Proof.
  intros Hperm Hrows Hlen.
  assert (Some <$> sorted = (λ idx, rows !! idx) <$> idxs) as Heq.
  { apply list_eq. intros i. rewrite !list_lookup_fmap.
    destruct (idxs !! i) as [idx|] eqn:Hidx.
    - rewrite (Hrows i idx Hidx). cbn.
      assert (idx < length rows) as Hlt.
      { assert (idx ∈ seq 0 (length rows)) as Hin.
        { rewrite <- Hperm. by eapply list_elem_of_lookup_2. }
        apply elem_of_seq in Hin. lia. }
      by destruct (lookup_lt_is_Some_2 rows idx Hlt) as [x ->].
    - apply lookup_ge_None in Hidx. rewrite Hperm, length_seq in Hidx.
      rewrite lookup_ge_None_2 by lia. done. }
  assert (Some <$> sorted ≡ₚ Some <$> rows) as HP.
  { rewrite Heq, Hperm. by rewrite lookup_through_seq. }
  apply Permutation_map_inv in HP as (l3 & Heq3 & Hl3).
  apply (inj (fmap Some)) in Heq3 as ->. by symmetry.
Qed.

(** C8: for a batch of N ≥ 1 examples, the sort being the stable
    descending sort of the spec ([torch_sort]): the indices it computes
    name every row of [0 .. N-1] exactly once; row [i] of the returned
    source grid, mask, location array and target grid is the row of the
    corresponding unsorted tensor at one and the same index, the one the
    sort put at position [i]; so each returned tensor holds the rows of the
    unsorted one, none dropped and none duplicated; and the returned source
    lengths never increase, entry [i] being the source length of the
    example in row [i]. *)
Theorem C8_one_permutation_for_all_tensors L A (Xs : list (list elem))
    (tourist_locs : list TouristLoc) (ys : list (list Z)) :
  0 < length Xs →
  length tourist_locs = length Xs →
  length ys = length Xs →
  ∃ u b idxs,
    assemble Xs tourist_locs ys = Some u
    ∧ create_batch torch_sort (allocate L A) Xs tourist_locs ys = Some b
    ∧ (torch_sort (length <$> Xs)).2 = idxs
    ∧ idxs ≡ₚ seq 0 (length Xs)
    ∧ (∀ r, r < length Xs →
         ∃ i, idxs !! i = Some r ∧ ∀ j, idxs !! j = Some r → j = i)
    ∧ (∀ i, i < length Xs →
         ∃ idx, idxs !! i = Some idx ∧ idx < length Xs
           ∧ b_X b !! i = X_batch u !! idx
           ∧ b_mask b !! i = mask u !! idx
           ∧ b_tourist_loc b !! i = Some (tourist_loc_batch u !! idx)
           ∧ b_y b !! i = y_batch u !! idx
           ∧ b_X_lengths b !! i = seq_lens u !! idx)
    ∧ b_X b ≡ₚ X_batch u
    ∧ b_mask b ≡ₚ mask u
    ∧ b_tourist_loc b ≡ₚ Some <$> tourist_loc_batch u
    ∧ b_y b ≡ₚ y_batch u
    ∧ StronglySorted (flip le) (b_X_lengths b)
    ∧ b_X_lengths b ≡ₚ seq_lens u.
Proof.
  intros Hpos Hlocs Hys.
  pose proof (torch_sort_meets_contract (length <$> Xs)) as Hok.
  assert (Xs ≠ []) as Hne by (destruct Xs; [cbn in Hpos; lia | done]).
  destruct (create_batch_spec torch_sort L A Xs tourist_locs ys Hne Hlocs Hys Hok)
    as (u & b & m & Hu & Hb & Hm & HlX & HlY & HlL & HlM & Hyl & HXl & Hmax & Hrows).
  destruct (assemble_spec Xs tourist_locs ys Hne Hys)
    as (u' & m' & Hu' & _ & Hsl & _ & _ & _ & Htl & HuX & HuM & HuY & _).
  rewrite Hu in Hu'. injection Hu' as <-.
  destruct (torch_sort (length <$> Xs)) as [vals idxs] eqn:Hsort.
  destruct (torch_sort_ok_inv _ _ _ Hok) as (Hperm & _ & Hvals & _).
  rewrite length_fmap in Hperm. cbn [snd] in *.
  assert (∀ i idx, idxs !! i = Some idx → b_X_lengths b !! i = seq_lens u !! idx) as Hlens.
  { intros i idx Hi. rewrite HXl, <- (torch_sort_values _ _ _ Hok), Hsl.
    by destruct (Hvals i idx Hi) as [-> _]. }
  exists u, b, idxs. do 4 (split; [done|]).
  split; [intros r Hr; by apply (perm_range_once idxs (length Xs))|].
  split.
  { intros i Hi. destruct (lookup_lt_is_Some_2 idxs i) as [idx Hidx].
    { by rewrite Hperm, length_seq. }
    exists idx. split; [done|]. split.
    { destruct (Hvals i idx Hidx) as [_ Hlt]. by rewrite length_fmap in Hlt. }
    destruct (Hrows i idx Hidx) as (-> & -> & -> & ->).
    rewrite Htl. do 4 (split; [done|]). by apply Hlens. }
  split.
  { apply (rows_through_perm _ _ idxs); [by rewrite HuX | | congruence].
    intros i idx Hi. by destruct (Hrows i idx Hi) as (-> & _). }
  split.
  { apply (rows_through_perm _ _ idxs); [by rewrite HuM | | congruence].
    intros i idx Hi. by destruct (Hrows i idx Hi) as (_ & _ & _ & ->). }
  split.
  { apply (rows_through_perm _ _ idxs).
    - by rewrite length_fmap, Htl, Hlocs.
    - intros i idx Hi. destruct (Hrows i idx Hi) as (_ & _ & -> & _).
      rewrite list_lookup_fmap, Htl.
      destruct (Hvals i idx Hi) as [_ Hlt]. rewrite length_fmap, <- Hlocs in Hlt.
      by destruct (lookup_lt_is_Some_2 tourist_locs idx Hlt) as [t ->].
    - rewrite length_fmap, Htl. congruence. }
  split.
  { apply (rows_through_perm _ _ idxs); [by rewrite HuY | | congruence].
    intros i idx Hi. by destruct (Hrows i idx Hi) as (_ & -> & _). }
  rewrite HXl, Hsl. split; apply sorted_reverse_spec.
Qed.

(** C9: with the sort as the spec words it ([torch_sort]), the batch is
    ordered by descending source length and ties keep their input order.
    Row [i] of the returned source grid is the example whose index the sort
    put at position [i]; of two examples of equal source length the one
    that came first in the input is at the earlier row; and a longer
    example is at an earlier row than a shorter one. *)
Theorem C9_ties_keep_input_order L A (Xs : list (list elem))
    (tourist_locs : list TouristLoc) (ys : list (list Z)) :
  0 < length Xs →
  length tourist_locs = length Xs →
  length ys = length Xs →
  ∃ b m idxs,
    create_batch torch_sort (allocate L A) Xs tourist_locs ys = Some b
    ∧ py_max (length <$> Xs) = Some m
    ∧ (torch_sort (length <$> Xs)).2 = idxs
    ∧ (∀ i idx, idxs !! i = Some idx →
         ∃ seq, Xs !! idx = Some seq
              ∧ b_X b !! i = Some (seq ++ replicate (m - length seq) (EInt 0)))
    ∧ (∀ a c seq_a seq_c,
         Xs !! a = Some seq_a → Xs !! c = Some seq_c →
         length seq_a = length seq_c → a < c →
         ∃ i j, i < j ∧ idxs !! i = Some a ∧ idxs !! j = Some c)
    ∧ (∀ a c seq_a seq_c,
         Xs !! a = Some seq_a → Xs !! c = Some seq_c →
         length seq_c < length seq_a →
         ∃ i j, i < j ∧ idxs !! i = Some a ∧ idxs !! j = Some c).
Proof.
  intros Hpos Hlocs Hys.
  pose proof (torch_sort_meets_contract (length <$> Xs)) as Hok.
  destruct (create_batch_rows torch_sort L A Xs tourist_locs ys Hpos Hlocs Hys Hok)
    as (b & m & my & Hb & Hm & _ & _ & _ & _ & _ & _ & _ & _ & Hrows).
  exists b, m, (torch_sort (length <$> Xs)).2. do 3 (split; [done|]).
  split; [|split].
  - intros i idx Hi.
    destruct (Hrows i idx Hi) as (seq & _ & _ & Hseq & _ & _ & HX & _).
    by exists seq.
  - intros a c seq_a seq_c Ha Hc Hlen Hac.
    apply (torch_sort_positions _ a c (length seq_a) (length seq_c)).
    + by rewrite list_lookup_fmap, Ha.
    + by rewrite list_lookup_fmap, Hc.
    + right. cbn. lia.
  - intros a c seq_a seq_c Ha Hc Hlen.
    apply (torch_sort_positions _ a c (length seq_a) (length seq_c)).
    + by rewrite list_lookup_fmap, Ha.
    + by rewrite list_lookup_fmap, Hc.
    + left. cbn. lia.
Qed.
End BatchOrder.

Lemma C2_unused_cells_hold_zero_witness :
  ∃ b,
    create_batch (H := sample_tokens) sample_sort (allocate (H := sample_tokens) 11 3)
      sample_Xs sample_locs sample_ys = Some b
    ∧ ∀ row, b_X b !! 1 = Some row →
        row !! 1 = Some (EInt 16) ∧ row !! 2 = Some (EInt 0)
        ∧ row !! 2 ≠ Some (EInt 14).
Proof.
  destruct (C2_unused_cells_hold_zero (H := sample_tokens) sample_sort 11 3
              sample_Xs sample_locs sample_ys (Nat.lt_0_succ _)
              eq_refl eq_refl eq_refl)
    as (b & m & Hb & Hm & Hrows).
  exists b. split; [exact Hb|]. intros row Hrow.
  destruct (Hrows 1 row Hrow) as (idx & seq & Hidx & Hseq & _ & Hfill & Hzero & Hpad).
  vm_compute in Hidx. injection Hidx as <-.
  vm_compute in Hseq. injection Hseq as <-.
  vm_compute in Hm. injection Hm as <-.
  split; [apply (Hfill 1); cbn; lia|].
  split; [apply (Hzero 2); cbn; lia|].
  apply (Hpad ltac:(done) 2). cbn. lia.
Defined.

Lemma C3_target_lengths_in_input_order_witness :
  ∃ b,
    create_batch (H := sample_tokens) sample_sort (allocate (H := sample_tokens) 11 3)
      sample_Xs sample_locs sample_ys = Some b
    ∧ b_y_lengths b = [2; 3]
    ∧ b_y b !! 0 = Some [6; 7; 1]%Z.
Proof.
  destruct (C3_target_lengths_in_input_order (H := sample_tokens) sample_sort 11 3
              sample_Xs sample_locs sample_ys (Nat.lt_0_succ _)
              eq_refl eq_refl eq_refl)
    as (b & my & Hb & Hmy & Hlens & _ & Hrows).
  exists b. split; [exact Hb|]. split; [exact Hlens|].
  destruct (Hrows 0 1 eq_refl) as (y & Hy & HY).
  vm_compute in Hy. injection Hy as <-.
  vm_compute in Hmy. injection Hmy as <-.
  exact HY.
Defined.

Lemma C8_one_permutation_for_all_tensors_witness :
  ∃ u b,
    assemble (H0 := sample_world) sample_Xs sample_locs sample_ys = Some u
    ∧ create_batch (H := sample_tokens) torch_sort (allocate (H := sample_tokens) 11 3)
        sample_Xs sample_locs sample_ys = Some b
    ∧ (torch_sort (length <$> sample_Xs)).2 = [1; 0]
    ∧ b_X b !! 0 = X_batch u !! 1 ∧ b_mask b !! 0 = mask u !! 1
    ∧ b_tourist_loc b !! 0 = Some (tourist_loc_batch u !! 1)
    ∧ b_y b !! 0 = y_batch u !! 1
    ∧ b_tourist_loc b ≡ₚ Some <$> sample_locs
    ∧ b_X_lengths b = [3; 2].
Proof.
  destruct (C8_one_permutation_for_all_tensors (H := sample_tokens) 11 3
              sample_Xs sample_locs sample_ys (Nat.lt_0_succ _) eq_refl eq_refl)
    as (u & b & idxs & Hu & Hb & Hidxs & _ & _ & Hrows & _ & _ & HL & _ & _ & _).
  exists u, b. split; [exact Hu|]. split; [exact Hb|]. split; [reflexivity|].
  destruct (Hrows 0 (Nat.lt_0_succ _)) as (idx & Hidx & _ & HX & HM & HLoc & HY & _).
  rewrite <- Hidxs in Hidx. vm_compute in Hidx. injection Hidx as <-.
  do 4 (split; [assumption|]).
  vm_compute in Hu. injection Hu as <-.
  split; [exact HL|].
  vm_compute in Hb. by injection Hb as <-.
Defined.

(** Two examples of equal source length stay in input order. *)
Lemma C9_ties_keep_input_order_witness :
  ∃ b,
    create_batch (H := sample_tokens) torch_sort (allocate (H := sample_tokens) 11 3)
      tied_Xs sample_locs sample_ys = Some b
    ∧ tied_Xs = [[EInt 1; EInt 16]; [EInt 2; EInt 16]]
    ∧ ∃ i j, i < j
        ∧ b_X b !! i = Some [EInt 1; EInt 16]
        ∧ b_X b !! j = Some [EInt 2; EInt 16].
Proof.
  destruct (C9_ties_keep_input_order (H := sample_tokens) 11 3
              tied_Xs sample_locs sample_ys (Nat.lt_0_succ _) eq_refl eq_refl)
    as (b & m & idxs & Hb & Hm & _ & Hrows & Hties & _).
  exists b. split; [exact Hb|]. split; [reflexivity|].
  destruct (Hties 0 1 _ _ eq_refl eq_refl eq_refl (Nat.lt_0_succ _))
    as (i & j & Hij & Hi & Hj).
  exists i, j. split; [exact Hij|].
  vm_compute in Hm. injection Hm as <-.
  destruct (Hrows i 0 Hi) as (seq_a & Ha & HXa).
  destruct (Hrows j 1 Hj) as (seq_c & Hc & HXc).
  vm_compute in Ha. injection Ha as <-.
  vm_compute in Hc. injection Hc as <-.
  split; [exact HXa | exact HXc].
Defined.

(** ** The training loop *)

Lemma take_indices_cons {A} (i : nat) (p : list nat) (a : list A) :
  take_indices (i :: p) a =
    match a !! i with
    | Some x => x :: take_indices p a
    | None => take_indices p a
    end.
Proof. done. Qed.

(** Reading through valid indices keeps one entry per index. *)
Lemma take_indices_lookup {A} (p : list nat) (a : list A) (k : nat) :
  Forall (λ i, i < length a) p →
  take_indices p a !! k = p !! k ≫= (λ i, a !! i).
Proof.
  revert k. induction p as [|i p IH]; intros k Hall; [done|].
  apply Forall_cons in Hall as [Hi Hall]. rewrite take_indices_cons.
  destruct (lookup_lt_is_Some_2 a i Hi) as [x Hx]. rewrite Hx.
  destruct k as [|k]; cbn; [done|]. by apply IH.
Qed.

Lemma take_indices_length {A} (p : list nat) (a : list A) :
  Forall (λ i, i < length a) p → length (take_indices p a) = length p.
Proof.
  induction p as [|i p IH]; intros Hall; [done|].
  apply Forall_cons in Hall as [Hi Hall]. rewrite take_indices_cons.
  destruct (lookup_lt_is_Some_2 a i Hi) as [x ->]. cbn. by rewrite IH.
Qed.

Lemma take_indices_seq {A} (a : list A) :
  take_indices (seq 0 (length a)) a = a.
Proof.
  apply list_eq. intros k. rewrite take_indices_lookup.
  - destruct (decide (k < length a)) as [Hlt|Hge].
    + by rewrite lookup_seq_lt by done.
    + rewrite lookup_seq_ge by lia. by rewrite lookup_ge_None_2 by lia.
  - apply Forall_forall. intros i Hi%elem_of_seq. lia.
Qed.

Lemma take_indices_compose {A} (q p : list nat) (a : list A) :
  Forall (λ i, i < length a) p →
  take_indices q (take_indices p a) = take_indices (take_indices q p) a.
Proof.
  intros Hall. induction q as [|i q IH]; [done|].
  rewrite !take_indices_cons, take_indices_lookup by done.
  destruct (p !! i) as [j|] eqn:Hj; cbn [mbind option_bind]; [|done].
  rewrite take_indices_cons.
  assert (j < length a) as Hlt.
  { rewrite Forall_forall in Hall. apply Hall. by eapply list_elem_of_lookup_2. }
  destruct (lookup_lt_is_Some_2 a j Hlt) as [x ->]. by rewrite IH.
Qed.

Lemma range_perm_valid (p : list nat) (n : nat) :
  p ≡ₚ seq 0 n → Forall (λ i, i < n) p.
Proof.
  intros Hp. apply Forall_forall. intros i Hi. rewrite Hp in Hi.
  apply elem_of_seq in Hi. lia.
Qed.

(** Reading one rearrangement of [range(n)] through another gives a
    rearrangement of [range(n)]. *)
Lemma take_indices_perm (q p : list nat) (n : nat) :
  q ≡ₚ seq 0 n → p ≡ₚ seq 0 n → take_indices q p ≡ₚ seq 0 n.
Proof.
  intros Hq Hp. assert (length p = n) as Hlen by (by rewrite Hp, length_seq).
  unfold take_indices. rewrite Hq. rewrite <- Hlen.
  fold (take_indices (seq 0 (length p)) p). rewrite take_indices_seq.
  by rewrite Hlen.
Qed.

Lemma float_lt_5_inf : (5 <? infinity)%float = true.
Proof. reflexivity. Qed.
Lemma float_lt_4_5 : (4 <? 5)%float = true.
Proof. reflexivity. Qed.
Lemma float_lt_3_4 : (3 <? 4)%float = true.
Proof. reflexivity. Qed.
Lemma float_lt_3_3 : (3 <? 3)%float = false.
Proof. reflexivity. Qed.

Section TrainFacts.
Context `{Collaborators} {X : Type}.

Implicit Types (st : train_state (X := X)).

Lemma after_validation_data cfg st v :
  let st' := (after_validation cfg st v).1.1 in
  t_Xs st' = t_Xs st ∧ t_tourist_locs st' = t_tourist_locs st
  ∧ t_ys st' = t_ys st ∧ t_landmarks st' = t_landmarks st.
Proof.
  unfold after_validation. destruct (v <? best_valid st)%float; [done|].
  by case_bool_decide.
Qed.

(** C4: after the validation loss of an epoch is known, a loss strictly
    below the best one seen resets the patience counter to zero, becomes
    the best and training goes on; any other loss (one equal to the best
    included) increments the counter, and when the counter then equals the
    configured patience the model is saved, the test loss is computed and
    [train] returns.  For the losses 5, 4, 3, 3, 3 and patience 2 the loop
    returns while processing the fifth loss, not earlier. *)
Theorem C4_early_stopping :
  (∀ cfg st v,
     (v <? best_valid st)%float = true →
     ∃ st', after_validation cfg st v = (st', [NewBestValid v], false)
          ∧ valid_patience st' = 0%Z ∧ best_valid st' = v)
  ∧ (∀ cfg st v,
       (v <? best_valid st)%float = false →
       ∃ st', valid_patience st' = (valid_patience st + 1)%Z
            ∧ best_valid st' = best_valid st
            ∧ after_validation cfg st v =
                if bool_decide (valid_patience st + 1 = cfg)%Z
                then (st', [StillGood (valid_patience st + 1); SaveModel; EvalTest], true)
                else (st', [StillGood (valid_patience st + 1)], false))
  ∧ (∀ num_epochs draw valid Xs tourist_locs landmarks ys,
       (5 ≤ num_epochs)%Z →
       valid 0 = 5%float → valid 1 = 4%float → valid 2 = 3%float →
       valid 3 = 3%float → valid 4 = 3%float →
       let r := train (X := X) num_epochs 2 draw valid Xs tourist_locs landmarks ys in
       stopped r = PatienceExhausted
       ∧ epochs_run r = 5
       ∧ best_valid (final r) = 3%float
       ∧ valid_patience (final r) = 2%Z
       ∧ log r =
           [ TrainEpoch 0; EvalEpoch; LrSchedulerStep 5; NewBestValid 5;
             TrainEpoch 1; EvalEpoch; LrSchedulerStep 4; NewBestValid 4;
             TrainEpoch 2; EvalEpoch; LrSchedulerStep 3; NewBestValid 3;
             TrainEpoch 3; EvalEpoch; LrSchedulerStep 3; StillGood 1;
             TrainEpoch 4; EvalEpoch; LrSchedulerStep 3; StillGood 2;
             SaveModel; EvalTest ]).
Proof.
  split; [|split].
  - intros cfg st v Hlt. unfold after_validation. rewrite Hlt. by eexists.
  - intros cfg st v Hlt. unfold after_validation. rewrite Hlt.
    eexists. split; [|split]; [| |by case_bool_decide]; done.
  - intros num_epochs draw valid Xs tourist_locs landmarks ys Hn H0 H1 H2 H3 H4.
    unfold train.
    destruct (Z.to_nat num_epochs) as [|[|[|[|[|n]]]]] eqn:Hnat; try lia.
    cbn [epochs]. unfold after_validation.
    cbn [best_valid valid_patience shuffle_epoch train_init].
    rewrite H0, float_lt_5_inf.
    cbn [best_valid valid_patience shuffle_epoch train_init].
    rewrite H1, float_lt_4_5.
    cbn [best_valid valid_patience shuffle_epoch train_init].
    rewrite H2, float_lt_3_4.
    cbn [best_valid valid_patience shuffle_epoch train_init].
    rewrite H3, float_lt_3_3.
    rewrite (bool_decide_eq_false_2 (0 + 1 = 2)%Z) by lia.
    cbn [best_valid valid_patience shuffle_epoch train_init].
    rewrite H4, float_lt_3_3.
    rewrite (bool_decide_eq_true_2 (0 + 1 + 1 = 2)%Z) by lia.
    cbn [stopped epochs_run final log best_valid valid_patience app].
    done.
Qed.
End TrainFacts.

Section ShuffleFacts.
Context `{Collaborators} {X : Type}.

Implicit Types (st : train_state (X := X)).

Lemma shuffle_epoch_aligned q p Xs tourist_locs landmarks ys st :
  length tourist_locs = length Xs → length ys = length Xs →
  q ≡ₚ seq 0 (length Xs) → p ≡ₚ seq 0 (length Xs) →
  aligned_through p Xs tourist_locs landmarks ys st →
  aligned_through (take_indices q p) Xs tourist_locs landmarks ys (shuffle_epoch q st).
Proof.
  intros Hl Hy Hq Hp (HX & HL & HY & HM).
  pose proof (range_perm_valid _ _ Hp) as Hvalid.
  unfold aligned_through, shuffle_epoch. cbn [t_Xs t_tourist_locs t_ys t_landmarks].
  rewrite HX, HL, HY.
  rewrite !take_indices_compose; [done | by rewrite Hy | by rewrite Hl | done].
Qed.
End ShuffleFacts.

Lemma C4_early_stopping_witness :
  stopped (train (H := sample_world) 500 2 (λ _, [1; 0]) sample_valid
             sample_Xs sample_locs sample_landmarks sample_ys) = PatienceExhausted
  ∧ epochs_run (train (H := sample_world) 500 2 (λ _, [1; 0]) sample_valid
                  sample_Xs sample_locs sample_landmarks sample_ys) = 5.
Proof.
  destruct (proj2 (proj2 (C4_early_stopping (H := sample_world)))
              500%Z (λ _, [1; 0]) sample_valid
              sample_Xs sample_locs sample_landmarks sample_ys
              ltac:(lia) eq_refl eq_refl eq_refl eq_refl eq_refl)
    as (Hstop & Hrun & _).
  split; [exact Hstop | exact Hrun].
Defined.

(** One epoch on two examples, the shuffle drawing the order [1; 0]: the
    trajectories, locations and targets are swapped together, the
    landmarks stay where they were. *)
Example shuffle_swaps_all_but_landmarks :
  let st := final (train (H := sample_world) 1 2 (λ _, [1; 0]) sample_valid
                     sample_Xs sample_locs sample_landmarks sample_ys) in
  t_Xs st = [[EInt 1; EInt 3; EInt 16];
             [EObs (<["goldstandard" := [7; 0; 0; 0]%Z]> ∅); EInt 16]]
  ∧ t_tourist_locs st = [(1, 2); (0, 0)]%Z
  ∧ t_ys st = [[6; 7; 1]; [5; 1]]%Z
  ∧ t_landmarks st = [[0]; [3]]%Z.
Proof. vm_compute. done. Qed.

(** * Further properties *)

(** ** More on the trajectory segmenter *)

Lemma keep_last_app_dropped {A} (ctx : option nat) (l M : list A) :
  keep_last ctx (keep_last ctx l ++ M) = keep_last ctx (l ++ M).
Proof.
  destruct ctx as [k|]; [|done]. unfold keep_last.
  rewrite !length_app, length_drop.
  destruct (decide (length l ≤ k)) as [Hle|Hgt].
  - replace (length l - k) with 0 by lia. by rewrite drop_0, Nat.sub_0_r.
  - replace (length l - (length l - k) + length M - k) with (length M) by lia.
    replace (length l + length M - k) with ((length l - k) + length M) by lia.
    rewrite <- drop_drop. by rewrite (drop_app_le l M (length l - k)) by lia.
Qed.

Lemma keep_last_length {A} (k : nat) (l : list A) :
  length (keep_last (Some k) l) ≤ k.
Proof. unfold keep_last. rewrite length_drop. lia. Qed.

Lemma tok2i_end_is_Some `{SpecialTokens} (L A : Z) :
  is_Some (tok2i (allocate L A) !! END_TOKEN).
Proof.
  cbn [tok2i allocate]. rewrite !lookup_insert_is_Some'. auto.
Qed.

Section SegmenterMore.
Context `{SpecialTokens} `{Collaborators}.

Implicit Types (w : walk) (m : message) (d : deque).

Lemma deque_append_items d x :
  items (deque_append d x) = keep_last (maxlen d) (items d ++ [x])
  ∧ maxlen (deque_append d x) = maxlen d.
Proof. unfold deque_append. by destruct (maxlen d). Qed.

Lemma deque_append_fold d x xs :
  items (foldl deque_append (deque_append d x) xs)
  = keep_last (maxlen d) (items d ++ x :: xs)
  ∧ maxlen (foldl deque_append (deque_append d x) xs) = maxlen d.
Proof.
  revert d x. induction xs as [|y ys IH]; intros d x.
  - apply deque_append_items.
  - cbn [foldl]. destruct (IH (deque_append d x) y) as [-> ->].
    destruct (deque_append_items d x) as [-> ->]. split; [|done].
    rewrite keep_last_app_dropped. by rewrite <- app_assoc.
Qed.

(** X1: a window that is filled element by element holds the last
    [maxlen] elements appended to it, oldest first, and all of them when
    it is unbounded. *)
Theorem deque_holds_last_elements (ctx : option nat) (xs : list elem) :
  items (foldl deque_append (deque_new ctx) xs) = keep_last ctx xs
  ∧ (∀ k, ctx = Some k → length (items (foldl deque_append (deque_new ctx) xs)) ≤ k).
Proof.
  assert (items (foldl deque_append (deque_new ctx) xs) = keep_last ctx xs) as Heq.
  { destruct xs as [|x xs].
    - by destruct ctx.
    - cbn [foldl]. by destruct (deque_append_fold (deque_new ctx) x xs) as [-> _]. }
  split; [done|]. intros k ->. rewrite Heq. apply keep_last_length.
Qed.
End SegmenterMore.

Section SegmenterSteps.
Context `{SpecialTokens} `{Collaborators}.

Implicit Types (w : walk) (m : message) (d : deque).

Lemma keep_last_within d : within d → keep_last (maxlen d) (items d) = items d.
Proof.
  unfold within, keep_last. destruct (maxlen d) as [k|]; [|done].
  intros Hk. specialize (Hk k eq_refl).
  replace (length (items d) - k) with 0 by lia. apply drop_0.
Qed.

Lemma deque_append_within d x : within (deque_append d x).
Proof.
  intros k Hk. destruct (deque_append_items d x) as [-> Hm].
  rewrite Hm in Hk. rewrite Hk. apply keep_last_length.
Qed.

Lemma keep_last_Forall {A} (P : A → Prop) ctx (l : list A) :
  Forall P l → Forall P (keep_last ctx l).
Proof. destruct ctx; [apply Forall_drop | done]. Qed.

Lemma command_of_Some m act :
  command_of m = Some act →
  msg_id m = "Tourist" ∧ get_action (msg_text m) = Some act ∧ is_utterance m = false.
Proof.
  unfold command_of, is_utterance. case_bool_decide; [|done]. intros Hact.
  rewrite Hact. by rewrite bool_decide_eq_false_2.
Qed.

Lemma command_of_None m :
  command_of m = None → is_utterance m = false → msg_id m ≠ "Tourist".
Proof.
  unfold command_of, is_utterance. case_bool_decide; [|done]. intros ->.
  by rewrite bool_decide_eq_true_2.
Qed.

Lemma is_utterance_true m :
  is_utterance m = true →
  msg_id m = "Tourist" ∧ get_action (msg_text m) = None ∧ command_of m = None.
Proof.
  unfold is_utterance, command_of.
  intros [Hid Hact]%andb_true_iff.
  apply bool_decide_eq_true in Hid, Hact.
  by rewrite bool_decide_eq_true_2, Hact.
Qed.

(** A message that is not a tourist turn. *)
Lemma process_msg_guide aod fl bnd nbh w m :
  msg_id m ≠ "Tourist" → process_msg aod fl bnd nbh w m = Some w.
Proof. intros Hid. unfold process_msg. by rewrite bool_decide_eq_false_2. Qed.

(** A command, in full. *)
Lemma process_msg_step aod fl bnd nbh w m act :
  command_of m = Some act →
  ∃ w', process_msg aod fl bnd nbh w m = Some w'
      ∧ loc w' = step_aware act (loc w) bnd
      ∧ items (act_obs_memory w') =
          keep_last (maxlen (act_obs_memory w))
            (items (act_obs_memory w)
             ++ EInt act :: (if bool_decide (act = 2)%Z
                             then [EObs (obs_emb fl nbh (step_aware act (loc w) bnd))]
                             else []))
      ∧ maxlen (act_obs_memory w') = maxlen (act_obs_memory w)
      ∧ within (act_obs_memory w')
      ∧ Xs (out w') = Xs (out w) ∧ ys (out w') = ys (out w)
      ∧ tourist_locs (out w') = tourist_locs (out w)
      ∧ length (landmarks (out w')) =
          length (landmarks (out w)) + (if bool_decide (act = 2)%Z then 1 else 0).
Proof.
  intros (Hid & Hact & _)%command_of_Some. unfold process_msg.
  rewrite bool_decide_eq_true_2 by done. rewrite Hact.
  case_bool_decide.
  - destruct (get_landmarks_2d _ _ _) as [ls tl]. eexists. split; [done|].
    cbn [loc act_obs_memory out Xs ys tourist_locs landmarks].
    destruct (deque_append_fold (act_obs_memory w) (EInt act)
                [EObs (obs_emb fl nbh (step_aware act (loc w) bnd))]) as [Hi Hm].
    cbn [foldl] in Hi, Hm. rewrite Hi, Hm, length_app. cbn [length].
    repeat (split; [done|]). split; [apply deque_append_within|done].
  - eexists. split; [done|].
    cbn [loc act_obs_memory out].
    destruct (deque_append_items (act_obs_memory w) (EInt act)) as [-> ->].
    repeat (split; [done|]). split; [apply deque_append_within|].
    repeat (split; [done|]). lia.
Qed.

(** An utterance, in full. *)
Lemma process_msg_say aod fl bnd nbh w m e :
  is_utterance m = true →
  tok2i aod !! END_TOKEN = Some e →
  process_msg aod fl bnd nbh w m =
    Some {| loc := loc w;
            act_obs_memory :=
              deque_clear (deque_append (act_obs_memory w) (EObs (obs_emb fl nbh (loc w))));
            out := {| Xs := Xs (out w)
                        ++ [keep_last (maxlen (act_obs_memory w))
                              (items (act_obs_memory w) ++ [EObs (obs_emb fl nbh (loc w))])
                            ++ [EInt e]];
                      tourist_locs := tourist_locs (out w)
                                        ++ [(get_landmarks_2d nbh bnd (loc w)).2];
                      landmarks := landmarks (out w)
                                     ++ [(get_landmarks_2d nbh bnd (loc w)).1];
                      ys := ys (out w) ++ [encode (msg_text m) true] |} |}.
Proof.
  intros (Hid & Hact & _)%is_utterance_true He. unfold process_msg.
  rewrite bool_decide_eq_true_2 by done. rewrite Hact.
  destruct (get_landmarks_2d nbh bnd (loc w)) as [ls tl]. rewrite He.
  cbn [mbind option_bind fst snd].
  by destruct (deque_append_items (act_obs_memory w) (EObs (obs_emb fl nbh (loc w))))
    as [-> _].
Qed.

(** The three kinds of message. *)
Lemma message_kind m :
  (∃ act, command_of m = Some act)
  ∨ is_utterance m = true
  ∨ (msg_id m ≠ "Tourist" ∧ command_of m = None ∧ is_utterance m = false).
Proof.
  unfold command_of, is_utterance. case_bool_decide; [|by right; right].
  destruct (get_action (msg_text m)) as [act|]; [left; by eexists|].
  right; left. by rewrite bool_decide_eq_true_2.
Qed.
End SegmenterSteps.

Section SegmenterRuns.
Context `{SpecialTokens} `{Collaborators}.

Implicit Types (w : walk) (m : message) (d : deque).

Lemma n_utterances_cons m msgs :
  n_utterances (m :: msgs) = (if is_utterance m then 1 else 0) + n_utterances msgs.
Proof. unfold n_utterances. cbn [List.filter]. by destruct (is_utterance m). Qed.

Lemma n_token_2_cons m msgs :
  n_token_2 (m :: msgs)
  = (if bool_decide (command_of m = Some 2%Z) then 1 else 0) + n_token_2 msgs.
Proof. unfold n_token_2. cbn [List.filter]. by case_bool_decide. Qed.

Lemma n_utterances_app msgs1 msgs2 :
  n_utterances (msgs1 ++ msgs2) = n_utterances msgs1 + n_utterances msgs2.
Proof. unfold n_utterances. by rewrite List.filter_app, length_app. Qed.

Lemma n_token_2_app msgs1 msgs2 :
  n_token_2 (msgs1 ++ msgs2) = n_token_2 msgs1 + n_token_2 msgs2.
Proof. unfold n_token_2. by rewrite List.filter_app, length_app. Qed.

Lemma moved_cons bnd l m msgs :
  moved bnd l (m :: msgs)
  = moved bnd (match command_of m with
               | Some act => step_aware act l bnd
               | None => l
               end) msgs.
Proof. unfold moved. cbn. by destruct (command_of m). Qed.

Lemma happened_is_step fl bnd nbh l msgs :
  forallb is_step (happened fl bnd nbh l msgs) = true.
Proof.
  revert l. induction msgs as [|m msgs IH]; intros l; [done|].
  cbn [happened]. destruct (command_of m) as [act|] eqn:Hc; [|apply IH].
  apply command_of_Some in Hc as (_ & Hact & _).
  apply get_action_Some in Hact.
  cbn [forallb is_step].
  rewrite bool_decide_eq_true_2
    by (destruct Hact as [[_ ->]|[[_ ->]|[_ ->]]]; auto).
  rewrite forallb_app, IH. by case_bool_decide.
Qed.

(** Messages without an utterance: commands accumulate in the window,
    nothing is emitted. *)
Lemma process_dialog_commands aod fl bnd nbh msgs w :
  forallb (λ m, negb (is_utterance m)) msgs = true →
  within (act_obs_memory w) →
  ∃ w', process_dialog aod fl bnd nbh w msgs = Some w'
      ∧ loc w' = moved bnd (loc w) msgs
      ∧ items (act_obs_memory w') =
          keep_last (maxlen (act_obs_memory w))
            (items (act_obs_memory w) ++ happened fl bnd nbh (loc w) msgs)
      ∧ maxlen (act_obs_memory w') = maxlen (act_obs_memory w)
      ∧ Xs (out w') = Xs (out w) ∧ ys (out w') = ys (out w)
      ∧ tourist_locs (out w') = tourist_locs (out w)
      ∧ length (landmarks (out w')) = length (landmarks (out w)) + n_token_2 msgs.
Proof.
  revert w. induction msgs as [|m msgs IH]; intros w Hno Hin.
  - exists w. split; [done|]. split; [done|].
    rewrite app_nil_r, keep_last_within by done.
    repeat (split; [done|]). unfold n_token_2. cbn. lia.
  - cbn [forallb] in Hno. apply andb_true_iff in Hno as [Hm Hno].
    apply negb_true_iff in Hm. cbn [process_dialog].
    rewrite n_token_2_cons, moved_cons. cbn [happened].
    destruct (command_of m) as [act|] eqn:Hc.
    + destruct (process_msg_step aod fl bnd nbh w m act Hc)
        as (w1 & -> & Hloc & Hitems & Hmax & Hin1 & HX & Hy & Hl & Hlm).
      cbn [mbind option_bind].
      destruct (IH w1 Hno Hin1) as (w' & -> & Hloc' & Hitems' & Hmax' & HX' & Hy' & Hl' & Hlm').
      exists w'. split; [done|].
      rewrite Hloc', Hloc, Hitems', Hitems, Hmax', Hmax, HX', HX, Hy', Hy, Hl', Hl, Hlm', Hlm.
      split; [done|]. split.
      { rewrite keep_last_app_dropped, Hloc. by rewrite <- app_assoc. }
      repeat (split; [done|]).
      destruct (decide (act = 2%Z)) as [->|Hne].
      * rewrite !bool_decide_eq_true_2 by done. lia.
      * rewrite !bool_decide_eq_false_2 by congruence. lia.
    + rewrite process_msg_guide by (by apply command_of_None).
      cbn [mbind option_bind].
      destruct (IH w Hno Hin) as (w' & -> & Hrest). exists w'. split; [done|].
      by rewrite bool_decide_eq_false_2 by done.
Qed.

(** X2: the trajectory of an utterance.  Starting from an empty window,
    after messages without utterance and then one utterance, exactly one
    example is emitted.  Its trajectory is what the commands since the
    window was emptied put there, then the bundle of the location they led
    to, cut to the last [maxlen] elements, then the end marker; its
    location is the one reported there; the window is empty again. *)
Theorem segment_trajectory L A fl bnd nbh w msgs utt :
  tokens_distinct = true →
  forallb (λ m, negb (is_utterance m)) msgs = true →
  is_utterance utt = true →
  items (act_obs_memory w) = [] →
  ∃ w', process_dialog (allocate L A) fl bnd nbh w (msgs ++ [utt]) = Some w'
      ∧ loc w' = moved bnd (loc w) msgs
      ∧ Xs (out w') = Xs (out w)
          ++ [keep_last (maxlen (act_obs_memory w))
                (happened fl bnd nbh (loc w) msgs
                 ++ [EObs (obs_emb fl nbh (moved bnd (loc w) msgs))])
              ++ [EInt (end_idx (allocate L A))]]
      ∧ tourist_locs (out w') = tourist_locs (out w)
          ++ [(get_landmarks_2d nbh bnd (moved bnd (loc w) msgs)).2]
      ∧ ys (out w') = ys (out w) ++ [encode (msg_text utt) true]
      ∧ items (act_obs_memory w') = []
      ∧ maxlen (act_obs_memory w') = maxlen (act_obs_memory w).
Proof.
  intros Hd Hno Hutt Hempty.
  assert (within (act_obs_memory w)) as Hin.
  { intros k _. rewrite Hempty. cbn. lia. }
  destruct (process_dialog_commands (allocate L A) fl bnd nbh msgs w Hno Hin)
    as (w1 & Hw1 & Hloc & Hitems & Hmax & HX & Hy & Hl & _).
  rewrite process_dialog_app, Hw1. cbn [mbind option_bind process_dialog].
  destruct (tok2i_lookup L A Hd) as (_ & He & _).
  rewrite (process_msg_say _ fl bnd nbh w1 utt _ Hutt He).
  cbn [mbind option_bind]. eexists. split; [done|].
  cbn [loc out Xs tourist_locs ys act_obs_memory deque_clear items maxlen].
  destruct (deque_append_items (act_obs_memory w1) (EObs (obs_emb fl nbh (loc w1))))
    as [_ ->].
  rewrite Hitems, Hempty, Hmax, Hloc, HX, Hy, Hl. cbn [app].
  rewrite keep_last_app_dropped. done.
Qed.

(** A whole dialogue, from a window within its bound: it is processed
    without error, the location follows the commands, and the arrays grow
    by one entry per utterance (the landmarks also by one per token 2);
    every trajectory added is well formed. *)
Lemma process_dialog_run L A fl bnd nbh e msgs w :
  tok2i (allocate L A) !! END_TOKEN = Some e →
  within (act_obs_memory w) →
  forallb is_step (items (act_obs_memory w)) = true →
  ∃ w', process_dialog (allocate L A) fl bnd nbh w msgs = Some w'
      ∧ loc w' = moved bnd (loc w) msgs
      ∧ maxlen (act_obs_memory w') = maxlen (act_obs_memory w)
      ∧ within (act_obs_memory w')
      ∧ forallb is_step (items (act_obs_memory w')) = true
      ∧ (∃ new, Xs (out w') = Xs (out w) ++ new
              ∧ length new = n_utterances msgs
              ∧ Forall (well_formed_trajectory (maxlen (act_obs_memory w)) e) new)
      ∧ length (tourist_locs (out w')) = length (tourist_locs (out w)) + n_utterances msgs
      ∧ length (ys (out w')) = length (ys (out w)) + n_utterances msgs
      ∧ length (landmarks (out w')) =
          length (landmarks (out w)) + n_utterances msgs + n_token_2 msgs.
Proof.
  intros He. revert w. induction msgs as [|m msgs IH]; intros w Hin Hsteps.
  - exists w. split; [done|]. do 4 (split; [done|]). split.
    + exists []. by rewrite app_nil_r.
    + unfold n_utterances, n_token_2. cbn. lia.
  - cbn [process_dialog]. rewrite n_utterances_cons, n_token_2_cons, moved_cons.
    destruct (message_kind m) as [[act Hc]|[Hutt|(Hid & Hc & Hutt)]].
    + destruct (process_msg_step (allocate L A) fl bnd nbh w m act Hc)
        as (w1 & -> & Hloc & Hitems & Hmax & Hin1 & HX & Hy & Hl & Hlm).
      cbn [mbind option_bind]. rewrite Hc.
      destruct (IH w1 Hin1) as (w' & -> & Hloc' & Hmax' & Hin' & Hsteps' & Hnew & Hl' & Hy' & Hlm').
      { rewrite Hitems. apply Is_true_true, forallb_True, keep_last_Forall.
        apply Forall_app. split; [by apply forallb_True, Is_true_true|].
        apply command_of_Some in Hc as (_ & Hact%get_action_Some & _).
        apply Forall_cons. split.
        - cbn. apply Is_true_true. rewrite bool_decide_eq_true.
          destruct Hact as [[_ ->]|[[_ ->]|[_ ->]]]; auto.
        - case_bool_decide; by repeat constructor. }
      exists w'. split; [done|].
      apply command_of_Some in Hc as Hk. destruct Hk as (_ & _ & ->).
      rewrite Hloc', Hloc, Hmax', Hmax, Hl', Hl, Hy', Hy, Hlm', Hlm, <- HX.
      do 4 (split; [done|]). rewrite Hmax in Hnew. split; [done|].
      do 2 (split; [lia|]).
      destruct (decide (act = 2%Z)) as [->|Hne].
      * rewrite !bool_decide_eq_true_2 by done. lia.
      * rewrite !bool_decide_eq_false_2 by congruence. lia.
    + rewrite (process_msg_say _ fl bnd nbh w m e Hutt He).
      cbn [mbind option_bind].
      apply is_utterance_true in Hutt as Hk. destruct Hk as (_ & _ & Hc).
      rewrite Hc, Hutt, bool_decide_eq_false_2 by done.
      edestruct (IH) as (w' & -> & Hloc' & Hmax' & Hin' & Hsteps' & (new & HX' & Hlen & Hwf)
                          & Hl' & Hy' & Hlm').
      { cbn [act_obs_memory deque_clear]. intros k _. cbn. lia. }
      { done. }
      cbn [loc act_obs_memory out deque_clear maxlen items Xs tourist_locs ys landmarks] in *.
      destruct (deque_append_items (act_obs_memory w) (EObs (obs_emb fl nbh (loc w))))
        as [_ Hm].
      rewrite Hm in *.
      exists w'. split; [done|]. do 4 (split; [done|]).
      rewrite !length_app in *. cbn [length] in *.
      split; [|lia].
      eexists (_ :: new). split; [by rewrite HX', <- app_assoc|].
      split; [cbn; lia|]. apply Forall_cons. split; [|done].
      eexists. split; [done|]. split.
      * apply Is_true_true, forallb_True, keep_last_Forall, Forall_app.
        split; [by apply forallb_True, Is_true_true | by repeat constructor].
      * intros k ->. apply keep_last_length.
    + rewrite process_msg_guide by done. cbn [mbind option_bind].
      rewrite Hc, Hutt, bool_decide_eq_false_2 by congruence.
      destruct (IH w Hin Hsteps) as (w' & -> & Hrest). by exists w'.
Qed.
End SegmenterRuns.

(** ** Utterances *)

Section UtteranceFacts.
Context `{SpecialTokens} `{Collaborators}.

(** The first append to a fresh window keeps the element unless the
    window has capacity 0. *)
Lemma deque_append_new (ctxlen : option nat) (x : elem) :
  items (deque_append (deque_new ctxlen) x)
  = if bool_decide (ctxlen = Some 0%nat) then [] else [x].
Proof.
  destruct ctxlen as [[|m]|]; done.
Qed.

(** Landmark sets are only ever appended. *)
Lemma process_dialog_landmarks_grow aod fl bnd nbh msgs (w w' : walk) :
  process_dialog aod fl bnd nbh w msgs = Some w' →
  ∃ new, landmarks (out w') = landmarks (out w) ++ new.
Proof.
  revert w. induction msgs as [|m msgs IH]; intros w Hrun.
  - injection Hrun as <-. exists []. by rewrite app_nil_r.
  - cbn [process_dialog] in Hrun.
    destruct (process_msg aod fl bnd nbh w m) as [w1|] eqn:Hm; [|done].
    cbn [mbind option_bind] in Hrun.
    destruct (IH w1 Hrun) as [new Hnew].
    assert (∃ new1, landmarks (out w1) = landmarks (out w) ++ new1) as [new1 Hnew1].
    { unfold process_msg in Hm. case_bool_decide.
      - destruct (get_action (msg_text m)) as [act|].
        + case_bool_decide.
          * destruct (get_landmarks_2d _ _ _) as [ls tl]. injection Hm as <-.
            by eexists.
          * injection Hm as <-. exists []. by rewrite app_nil_r.
        + destruct (get_landmarks_2d _ _ _) as [ls tl].
          destruct (tok2i aod !! END_TOKEN); [|done].
          injection Hm as <-. by eexists.
      - injection Hm as <-. exists []. by rewrite app_nil_r. }
    exists (new1 ++ new). by rewrite Hnew, Hnew1, app_assoc.
Qed.

(** A dialogue whose only utterance comes before any command: turns of the
    guide, the utterance, then commands and turns of the guide. *)
Lemma build_single_utterance L A fl ctxlen cfg pre utt post :
  tokens_distinct = true →
  dialog cfg = pre ++ utt :: post →
  no_tourist_turn pre = true →
  forallb (λ m, negb (is_utterance m)) post = true →
  msg_id utt = "Tourist" →
  get_action (msg_text utt) = None →
  ∃ d more,
    build_data (allocate L A) fl ctxlen data_empty [cfg] = Some d
    ∧ Xs d = [items (deque_append (deque_new ctxlen)
                       (EObs (obs_emb fl (neighborhood cfg) (start_location cfg))))
              ++ [EInt (end_idx (allocate L A))]]
    ∧ tourist_locs d =
        [(get_landmarks_2d (neighborhood cfg) (boundaries cfg) (start_location cfg)).2]
    ∧ landmarks d =
        (get_landmarks_2d (neighborhood cfg) (boundaries cfg) (start_location cfg)).1 :: more
    ∧ length more = n_token_2 post
    ∧ ys d = [encode (msg_text utt) true].
Proof.
  intros Hd Hdialog Hpre Hpost Hid Hact.
  cbn [build_data]. unfold process_config. rewrite Hdialog.
  rewrite process_dialog_app, process_dialog_no_tourist by done.
  cbn [mbind option_bind process_dialog].
  rewrite process_msg_utterance by done.
  cbn [mbind option_bind loc act_obs_memory out].
  match goal with
  | |- context [process_dialog _ _ _ _ ?w post] =>
      destruct (process_dialog_commands (allocate L A) fl (boundaries cfg)
                  (neighborhood cfg) post w Hpost)
        as (w' & Hw' & _ & _ & _ & HX & Hy & Hl & Hlm)
  end.
  { intros k _. cbn. lia. }
  destruct (process_dialog_landmarks_grow _ _ _ _ _ _ _ Hw') as [more Hmore].
  rewrite Hw'.
  cbn [mbind option_bind out Xs ys tourist_locs landmarks data_empty app length] in *.
  exists (out w'), more. split; [done|].
  rewrite HX, Hy, Hl, Hmore. do 3 (split; [done|]). split; [|done].
  rewrite Hmore in Hlm. cbn [length] in Hlm. lia.
Qed.

(** C7, amended: a free-text tourist turn emits exactly one Example; its
    Trajectory is the content of the bounded window after the bundle of the
    current location has been appended to it (no movement), followed by the
    end marker; its location is the one reported for the current position
    and its target the text encoded with the end token forced.  A dialogue
    with exactly one tourist utterance and no action before it (turns of
    the guide may come before, commands and turns of the guide after)
    yields exactly one Example; its Trajectory is the bundle followed by
    the end marker when the context length is unbounded or at least 1, and
    the end marker alone when the context length is 0.  The landmark sets
    start with the one of that Example; one more follows for every later
    command carrying the token 2. *)
Theorem C7_utterance_emits_example L A fl :
  tokens_distinct = true →
  (∀ bnd nbh (w : walk) msg,
     msg_id msg = "Tourist" →
     get_action (msg_text msg) = None →
     ∃ w', process_msg (allocate L A) fl bnd nbh w msg = Some w'
         ∧ loc w' = loc w
         ∧ Xs (out w') = Xs (out w)
             ++ [items (deque_append (act_obs_memory w) (EObs (obs_emb fl nbh (loc w))))
                 ++ [EInt (end_idx (allocate L A))]]
         ∧ tourist_locs (out w') =
             tourist_locs (out w) ++ [(get_landmarks_2d nbh bnd (loc w)).2]
         ∧ landmarks (out w') =
             landmarks (out w) ++ [(get_landmarks_2d nbh bnd (loc w)).1]
         ∧ ys (out w') = ys (out w) ++ [encode (msg_text msg) true]
         ∧ items (act_obs_memory w') = [])
  ∧ (∀ ctxlen cfg pre utt post temp_build,
       dialog cfg = pre ++ utt :: post →
       no_tourist_turn pre = true →
       forallb (λ m, negb (is_utterance m)) post = true →
       msg_id utt = "Tourist" →
       get_action (msg_text utt) = None →
       ∃ d saved more,
         load_data (allocate L A) fl ctxlen None [cfg] temp_build = Some (d, saved)
         ∧ Xs d =
             [(if bool_decide (ctxlen = Some 0%nat) then []
               else [EObs (obs_emb fl (neighborhood cfg) (start_location cfg))])
              ++ [EInt (end_idx (allocate L A))]]
         ∧ tourist_locs d =
             [(get_landmarks_2d (neighborhood cfg) (boundaries cfg) (start_location cfg)).2]
         ∧ landmarks d =
             (get_landmarks_2d (neighborhood cfg) (boundaries cfg) (start_location cfg)).1
             :: more
         ∧ length more = n_token_2 post
         ∧ ys d = [encode (msg_text utt) true]).
Proof.
  intros Hd. split.
  - intros bnd nbh w msg Hid Hact. eexists.
    split; [by apply process_msg_utterance|]. done.
  - intros ctxlen cfg pre utt post temp_build Hdialog Hpre Hpost Hid Hact.
    unfold load_data.
    destruct (build_single_utterance L A fl ctxlen cfg pre utt post)
      as (d & more & -> & HX & Hl & Hlm & Hmore & Hy); try done.
    cbn [mbind option_bind]. exists d. eexists. exists more. split; [done|].
    rewrite HX, deque_append_new. done.
Qed.
End UtteranceFacts.

(** The guide greets, the tourist answers in free text, turns right and
    walks on, the guide replies. *)
Lemma C7_utterance_emits_example_witness :
  ∃ d saved,
    load_data (H := sample_tokens) (H0 := sample_world)
      (allocate (H := sample_tokens) 11 3) (<["goldstandard" := 7%Z]> ∅) None None
      [ {| start_location := [2; 3; 0]%Z : @Location sample_world;
           boundaries := [0; 0; 3; 3]%Z : @Boundaries sample_world;
           neighborhood := "fidi" : @Neighborhood sample_world;
           dialog := [ {| msg_id := "Guide"; msg_text := "hello" |};
                       {| msg_id := "Tourist"; msg_text := "i see a bank" |};
                       {| msg_id := "Tourist"; msg_text := "ACTION:TURNRIGHT" |};
                       {| msg_id := "Tourist"; msg_text := "ACTION:FORWARD" |};
                       {| msg_id := "Guide"; msg_text := "ok" |} ] |} ]
      true = Some (d, saved)
    ∧ Xs d = [[EObs (<["goldstandard" := [7; 2; 3; 0]%Z]> ∅); EInt 16]]
    ∧ tourist_locs d = [(2, 3)%Z]
    ∧ length (landmarks d) = 2
    ∧ ys d = [[12; 1]%Z].
Proof.
  destruct (proj2 (C7_utterance_emits_example (H := sample_tokens) (H0 := sample_world)
                     11 3 (<["goldstandard" := 7%Z]> ∅) eq_refl)
              None
              {| start_location := [2; 3; 0]%Z : @Location sample_world;
                 boundaries := [0; 0; 3; 3]%Z : @Boundaries sample_world;
                 neighborhood := "fidi" : @Neighborhood sample_world;
                 dialog := [ {| msg_id := "Guide"; msg_text := "hello" |};
                             {| msg_id := "Tourist"; msg_text := "i see a bank" |};
                             {| msg_id := "Tourist"; msg_text := "ACTION:TURNRIGHT" |};
                             {| msg_id := "Tourist"; msg_text := "ACTION:FORWARD" |};
                             {| msg_id := "Guide"; msg_text := "ok" |} ] |}
              [ {| msg_id := "Guide"; msg_text := "hello" |} ]
              {| msg_id := "Tourist"; msg_text := "i see a bank" |}
              [ {| msg_id := "Tourist"; msg_text := "ACTION:TURNRIGHT" |};
                {| msg_id := "Tourist"; msg_text := "ACTION:FORWARD" |};
                {| msg_id := "Guide"; msg_text := "ok" |} ]
              true eq_refl eq_refl eq_refl eq_refl eq_refl)
    as (d & saved & more & Hload & HX & Hl & Hlm & Hmore & Hy).
  exists d, saved. split; [exact Hload|].
  split; [rewrite HX; vm_compute; reflexivity|].
  split; [exact Hl|]. split; [|exact Hy].
  rewrite Hlm. cbn [length]. rewrite Hmore. reflexivity.
Defined.

Section SegmenterData.
Context `{SpecialTokens} `{Collaborators}.

Lemma all_messages_cons (cfg : config) dataset :
  all_messages (cfg :: dataset) = dialog cfg ++ all_messages dataset.
Proof. done. Qed.

(** A whole dataset. *)
Lemma build_data_run L A fl ctx e dataset d0 :
  tok2i (allocate L A) !! END_TOKEN = Some e →
  ∃ d, build_data (allocate L A) fl ctx d0 dataset = Some d
     ∧ (∃ new, Xs d = Xs d0 ++ new
             ∧ length new = n_utterances (all_messages dataset)
             ∧ Forall (well_formed_trajectory ctx e) new)
     ∧ length (tourist_locs d) =
         length (tourist_locs d0) + n_utterances (all_messages dataset)
     ∧ length (ys d) = length (ys d0) + n_utterances (all_messages dataset)
     ∧ length (landmarks d) =
         length (landmarks d0) + n_utterances (all_messages dataset)
         + n_token_2 (all_messages dataset).
Proof.
  intros He. revert d0. induction dataset as [|cfg dataset IH]; intros d0.
  - exists d0. split; [done|]. split.
    + exists []. by rewrite app_nil_r.
    + unfold n_utterances, n_token_2. cbn. lia.
  - cbn [build_data]. unfold process_config.
    destruct (process_dialog_run L A fl (boundaries cfg) (neighborhood cfg) e (dialog cfg)
                {| loc := start_location cfg; act_obs_memory := deque_new ctx; out := d0 |}
                He)
      as (w' & -> & _ & _ & _ & _ & (new & HX & Hlen & Hwf) & Hl & Hy & Hlm);
      [| done |].
    { intros k _. cbn. lia. }
    cbn [mbind option_bind out act_obs_memory deque_new maxlen] in *.
    destruct (IH (out w')) as (d & -> & (new' & HX' & Hlen' & Hwf') & Hl' & Hy' & Hlm').
    exists d. split; [done|].
    rewrite all_messages_cons, n_utterances_app, n_token_2_app. split; [|lia].
    exists (new ++ new'). rewrite HX', HX, <- app_assoc. split; [done|].
    split; [rewrite length_app; lia | by apply Forall_app].
Qed.

(** X3: [load_data] builds the trajectories, the tourist locations and the
    targets as parallel arrays with one entry per utterance of the dataset;
    the landmarks get one entry per utterance and one more per tourist turn
    carrying the token 2, so they are longer than the other three arrays as
    soon as such a turn occurs. *)
Theorem build_data_array_lengths L A fl ctx (dataset : list config) :
  ∃ d, build_data (allocate L A) fl ctx data_empty dataset = Some d
     ∧ length (Xs d) = n_utterances (all_messages dataset)
     ∧ length (tourist_locs d) = length (Xs d)
     ∧ length (ys d) = length (Xs d)
     ∧ length (landmarks d) = length (Xs d) + n_token_2 (all_messages dataset).
Proof.
  destruct (tok2i_end_is_Some L A) as [e He].
  destruct (build_data_run L A fl ctx e dataset data_empty He)
    as (d & Hd & (new & HX & Hlen & _) & Hl & Hy & Hlm).
  exists d. split; [done|]. cbn [data_empty Xs tourist_locs ys landmarks length] in *.
  rewrite HX. cbn [app]. lia.
Qed.

(** X4: every trajectory [load_data] builds is a sequence of action tokens
    (1, 2 or 3) and observation bundles followed by the end marker. *)
Theorem build_data_trajectory_shape L A fl ctx (dataset : list config) :
  tokens_distinct = true →
  ∃ d, build_data (allocate L A) fl ctx data_empty dataset = Some d
     ∧ Forall (λ t, ∃ body, t = body ++ [EInt (end_idx (allocate L A))]
                          ∧ forallb is_step body = true) (Xs d).
Proof.
  intros Hd. destruct (tok2i_lookup L A Hd) as (_ & He & _).
  destruct (build_data_run L A fl ctx _ dataset data_empty He)
    as (d & Hbuild & (new & HX & _ & Hwf) & _).
  exists d. split; [done|]. rewrite HX. cbn [data_empty Xs app].
  eapply Forall_impl; [exact Hwf|]. intros t (body & -> & Hsteps & _). by exists body.
Qed.

(** X5: with [--num-steps k], [k ≥ 0], no trajectory has more than [k]
    elements before its end marker. *)
Theorem build_data_context_bound L A fl (num_steps : Z) (dataset : list config) :
  (0 ≤ num_steps)%Z →
  ∃ d, build_data (allocate L A) fl (contextlen num_steps) data_empty dataset = Some d
     ∧ Forall (λ t, length t ≤ Z.to_nat num_steps + 1) (Xs d).
Proof.
  intros Hn. unfold contextlen. rewrite bool_decide_eq_true_2 by done.
  destruct (tok2i_end_is_Some L A) as [e He].
  destruct (build_data_run L A fl (Some (Z.to_nat num_steps)) e dataset data_empty He)
    as (d & Hbuild & (new & HX & _ & Hwf) & _).
  exists d. split; [done|]. rewrite HX. cbn [data_empty Xs app].
  eapply Forall_impl; [exact Hwf|]. intros t (body & -> & _ & Hk).
  rewrite length_app. cbn [length]. specialize (Hk _ eq_refl). lia.
Qed.

(** X6: when the end index is above the action tokens (L + A > 1, as with
    the three actions of the program), the end marker occurs in a
    trajectory at its last position and nowhere else. *)
Theorem build_data_end_marker_once L A fl ctx (dataset : list config) :
  tokens_distinct = true →
  (1 < L + A)%Z →
  ∃ d, build_data (allocate L A) fl ctx data_empty dataset = Some d
     ∧ Forall (λ t, ∀ i, t !! i = Some (EInt (end_idx (allocate L A)))
                       ↔ S i = length t) (Xs d).
Proof.
  intros Hd HLA. destruct (tok2i_lookup L A Hd) as (_ & He & _).
  destruct (build_data_run L A fl ctx _ dataset data_empty He)
    as (d & Hbuild & (new & HX & _ & Hwf) & _).
  exists d. split; [done|]. rewrite HX. cbn [data_empty Xs app].
  eapply Forall_impl; [exact Hwf|]. intros t (body & -> & Hsteps & _) i.
  rewrite length_app. cbn [length]. split.
  - intros Hi. destruct (decide (i < length body)) as [Hlt|Hge].
    + rewrite lookup_app_l in Hi by done.
      apply Is_true_true, forallb_True in Hsteps.
      rewrite Forall_forall in Hsteps.
      apply list_elem_of_lookup_2, Hsteps in Hi. cbn in Hi.
      apply Is_true_true, bool_decide_eq_true in Hi.
      cbn [end_idx allocate] in Hi. lia.
    + apply lookup_lt_Some in Hi. rewrite length_app in Hi. cbn [length] in Hi. lia.
  - intros Hi. assert (i = length body) as -> by lia.
    rewrite lookup_app_r by lia. by rewrite Nat.sub_diag.
Qed.

(** X7: position tracking.  A dialogue is processed without error and the
    location it ends at is the start location moved by [step_aware] once
    for every recognised command, in order; utterances and turns of the
    guide do not move it. *)
Theorem process_dialog_location L A fl ctx (cfg : config) acc :
  ∃ w', process_dialog (allocate L A) fl (boundaries cfg) (neighborhood cfg)
          {| loc := start_location cfg; act_obs_memory := deque_new ctx; out := acc |}
          (dialog cfg) = Some w'
      ∧ loc w' = moved (boundaries cfg) (start_location cfg) (dialog cfg).
Proof.
  destruct (tok2i_end_is_Some L A) as [e He].
  destruct (process_dialog_run L A fl (boundaries cfg) (neighborhood cfg) e (dialog cfg)
              {| loc := start_location cfg; act_obs_memory := deque_new ctx; out := acc |}
              He)
    as (w' & Hw' & Hloc & _); [| done |].
  { intros k _. cbn. lia. }
  exists w'. by split.
Qed.
End SegmenterData.

Lemma segment_trajectory_witness :
  ∃ w',
    process_dialog (H := sample_tokens) (H0 := sample_world)
      (allocate (H := sample_tokens) 11 3) sample_loaders
      ([0; 0; 3; 3]%Z : @Boundaries sample_world) ("fidi" : @Neighborhood sample_world)
      {| loc := [2; 3; 0]%Z : @Location sample_world;
         act_obs_memory := deque_new (Some 2); out := data_empty |}
      (take 3 sample_dialog ++ [ {| msg_id := "Tourist"; msg_text := "i see a bank" |} ])
    = Some w'
    ∧ Xs (out w') =
        [[EInt 3;
          EObs (<["goldstandard" := [7; 2; 4; 1]%Z]> (<["resnet" := [9; 2; 4]%Z]> ∅));
          EInt 16]]
    ∧ tourist_locs (out w') = [(2, 4)%Z].
Proof.
  destruct (segment_trajectory (H := sample_tokens) (H0 := sample_world) 11 3
              sample_loaders
              ([0; 0; 3; 3]%Z : @Boundaries sample_world)
              ("fidi" : @Neighborhood sample_world)
              {| loc := [2; 3; 0]%Z : @Location sample_world;
                 act_obs_memory := deque_new (Some 2); out := data_empty |}
              (take 3 sample_dialog)
              {| msg_id := "Tourist"; msg_text := "i see a bank" |}
              eq_refl eq_refl eq_refl eq_refl)
    as (w' & Hw' & _ & HX & Hl & _).
  exists w'. split; [exact Hw'|]. split.
  - rewrite HX. vm_compute. reflexivity.
  - rewrite Hl. reflexivity.
Defined.

Lemma build_data_trajectory_shape_witness :
  ∃ d, build_data (H := sample_tokens) (allocate (H := sample_tokens) 11 3)
         sample_loaders None data_empty [sample_config] = Some d
     ∧ Forall (λ t, ∃ body, t = body ++ [EInt 16]
                          ∧ forallb is_step body = true) (Xs d).
Proof.
  exact (build_data_trajectory_shape (H := sample_tokens) 11 3 sample_loaders None
           [sample_config] eq_refl).
Defined.

Lemma build_data_end_marker_once_witness :
  ∃ d, build_data (H := sample_tokens) (allocate (H := sample_tokens) 11 3)
         sample_loaders None data_empty [sample_config] = Some d
     ∧ Forall (λ t, ∀ i, t !! i = Some (EInt 16) ↔ S i = length t) (Xs d).
Proof.
  exact (build_data_end_marker_once (H := sample_tokens) 11 3 sample_loaders None
           [sample_config] eq_refl ltac:(lia)).
Defined.

Lemma build_data_context_bound_witness :
  ∃ d, build_data (H := sample_tokens) (allocate (H := sample_tokens) 11 3)
         sample_loaders (contextlen 2) data_empty [sample_config] = Some d
     ∧ Forall (λ t, length t ≤ 3) (Xs d).
Proof.
  exact (build_data_context_bound (H := sample_tokens) 11 3 sample_loaders 2
           [sample_config] ltac:(lia)).
Defined.

(** ** More on the batch assembler *)

Section BatchMore.
Context `{SpecialTokens} `{Collaborators}.
Variable torch_sort_descending : list nat → list nat * list nat.

(** X13: an empty batch makes [create_batch] fail: [max] of an empty list
    raises, whether the trajectories or the targets are missing. *)
Theorem create_batch_empty aod (Xs : list (list elem))
    (tourist_locs : list TouristLoc) (ys : list (list Z)) :
  Xs = [] ∨ ys = [] →
  create_batch torch_sort_descending aod Xs tourist_locs ys = None.
Proof.
  intros [-> | ->]; unfold create_batch, assemble; cbn [fmap list_fmap py_max];
    [by destruct (py_max _) | done].
Qed.

(** Once the loop over the sorted indices runs past the end of a tensor it
    writes to, or of the target lengths, it fails. *)
Lemma sort_rows_overrun (u : unsorted) vals idxs i s :
  i ≤ length (y_lens u) → i ≤ length (sorted_tourist_loc_batch s) →
  length (y_lens u) < i + length idxs
  ∨ length (sorted_tourist_loc_batch s) < i + length idxs →
  sort_rows u vals idxs i s = None.
Proof.
  revert i s. induction idxs as [|idx rest IH]; intros i s Hiy Hil Hover.
  - cbn [length] in Hover. lia.
  - cbn [sort_rows length] in *.
    destruct (X_batch u !! idx) as [x_row|]; [|done]. cbn [mbind option_bind].
    destruct (update_row i _ (sorted_X_batch s)) as [sX|]; [|done].
    cbn [mbind option_bind].
    destruct (y_batch u !! idx) as [y_row|]; [|done]. cbn [mbind option_bind].
    destruct (update_row i _ (sorted_y_batch s)) as [sY|]; [|done].
    cbn [mbind option_bind].
    destruct (y_lens u !! i) as [y_len|] eqn:Hy; [|done]. cbn [mbind option_bind].
    destruct (tourist_loc_batch u !! idx) as [t_loc|]; [|done].
    cbn [mbind option_bind].
    destruct (update_row i _ (sorted_tourist_loc_batch s)) as [sL|] eqn:HsL; [|done].
    cbn [mbind option_bind].
    destruct (vals !! i) as [k|]; [|done]. cbn [mbind option_bind].
    destruct (update_row i _ (sorted_mask s)) as [sM|]; [|done].
    cbn [mbind option_bind].
    unfold update_row in HsL.
    destruct (sorted_tourist_loc_batch s !! i) as [l0|] eqn:Hl; [|done].
    cbn [mbind option_bind] in HsL. injection HsL as <-.
    apply lookup_lt_Some in Hy, Hl.
    apply IH; cbn [sorted_tourist_loc_batch]; rewrite ?length_insert; lia.
Qed.

Lemma fill_y_overrun (ys : list (list Z)) i G :
  i ≤ length G → length G < i + length ys → fill_y i ys G = None.
Proof.
  revert i G. induction ys as [|seq rest IH]; intros i G Hi Hover.
  - cbn [length] in Hover. lia.
  - cbn [fill_y length] in *. unfold update_row.
    destruct (G !! i) as [row|] eqn:Hrow; [|done]. cbn [mbind option_bind].
    apply lookup_lt_Some in Hrow.
    apply IH; rewrite length_insert; lia.
Qed.

(** X14: [create_batch] needs parallel arrays.  With a number of targets
    different from the number of trajectories, or with fewer locations than
    trajectories, it fails (an index runs out of range). *)
Theorem create_batch_misaligned aod (Xs : list (list elem))
    (tourist_locs : list TouristLoc) (ys : list (list Z)) :
  torch_sort_ok (length <$> Xs) (torch_sort_descending (length <$> Xs)) = true →
  length ys ≠ length Xs ∨ length tourist_locs < length Xs →
  create_batch torch_sort_descending aod Xs tourist_locs ys = None.
Proof.
  intros Hok Hbad. unfold create_batch.
  destruct (assemble Xs tourist_locs ys) as [u|] eqn:Hu; [|done].
  cbn [mbind option_bind].
  unfold assemble in Hu.
  destruct (py_max (length <$> ys)) as [my|]; [|done].
  destruct (py_max (length <$> Xs)) as [m|]; [|done].
  cbn [mbind option_bind] in Hu.
  destruct (fill_X 0 Xs _) as [Xb Mk].
  destruct (fill_y 0 ys _) as [Yb|] eqn:HY; [|done].
  cbn [mbind option_bind] in Hu. injection Hu as <-.
  cbn [seq_lens max_X_len max_y_len].
  destruct (torch_sort_descending (length <$> Xs)) as [vals idxs] eqn:Hsort.
  destruct (torch_sort_ok_inv _ _ _ Hok) as (Hperm & _).
  assert (length idxs = length Xs) as Hli.
  { by rewrite Hperm, length_seq, length_fmap. }
  destruct (tok2i aod !! PAD_TOKEN) as [pad|]; [|done]. cbn [mbind option_bind].
  rewrite sort_rows_overrun; [done | lia | lia |].
  cbn [y_lens sorted_tourist_loc_batch]. rewrite length_fmap, length_replicate.
  destruct (decide (length Xs < length ys)) as [Hlong|Hshort].
  - rewrite fill_y_overrun in HY; [done | lia |]. rewrite length_replicate. lia.
  - lia.
Qed.
End BatchMore.

Section BatchShape.
Context `{SpecialTokens} `{Collaborators}.
Variable torch_sort_descending : list nat → list nat * list nat.

(** Every row of the returned batch comes from some index of the sort. *)
Lemma sorted_index_of_row (Xs : list (list elem)) i :
  torch_sort_ok (length <$> Xs) (torch_sort_descending (length <$> Xs)) = true →
  i < length Xs →
  ∃ idx, (torch_sort_descending (length <$> Xs)).2 !! i = Some idx.
Proof.
  intros Hok Hi.
  destruct (torch_sort_descending (length <$> Xs)) as [vals idxs] eqn:Hsort.
  destruct (torch_sort_ok_inv _ _ _ Hok) as (Hperm & _). cbn [snd].
  apply lookup_lt_is_Some_2. by rewrite Hperm, length_seq, length_fmap.
Qed.

(** X15: shapes.  For N aligned examples the four returned tensors have N
    rows and both length lists N entries; every row of the source grid and
    of the mask has the largest source length, every row of the target
    grid the largest target length, which is also the returned maximum and
    bounds every returned target length. *)
Theorem create_batch_shapes L A (Xs : list (list elem))
    (tourist_locs : list TouristLoc) (ys : list (list Z)) :
  0 < length Xs →
  length tourist_locs = length Xs →
  length ys = length Xs →
  torch_sort_ok (length <$> Xs) (torch_sort_descending (length <$> Xs)) = true →
  ∃ b m,
    create_batch torch_sort_descending (allocate L A) Xs tourist_locs ys = Some b
    ∧ py_max (length <$> Xs) = Some m
    ∧ py_max (length <$> ys) = Some (b_max_len b)
    ∧ length (b_X b) = length Xs ∧ length (b_mask b) = length Xs
    ∧ length (b_tourist_loc b) = length Xs ∧ length (b_y b) = length Xs
    ∧ length (b_X_lengths b) = length Xs ∧ length (b_y_lengths b) = length Xs
    ∧ Forall (λ row, length row = m) (b_X b)
    ∧ Forall (λ row, length row = m) (b_mask b)
    ∧ Forall (λ row, length row = b_max_len b) (b_y b)
    ∧ Forall (λ n, n ≤ b_max_len b) (b_y_lengths b).
Proof.
  intros Hpos Hlocs Hys Hok.
  destruct (create_batch_rows torch_sort_descending L A Xs tourist_locs ys
              Hpos Hlocs Hys Hok)
    as (b & m & my & Hb & Hm & Hmy & HlX & HlY & HlL & HlM & Hyl & HXl & Hmax & Hrows).
  destruct (py_max_Some (length <$> Xs)) as (m' & Hm' & HallX & _).
  { by destruct Xs. }
  destruct (py_max_Some (length <$> ys)) as (my' & Hmy' & HallY & _).
  { destruct ys; [|done]. cbn in Hys. lia. }
  rewrite Hm in Hm'. injection Hm' as <-. rewrite Hmy in Hmy'. injection Hmy' as <-.
  exists b, m. rewrite Hmax. do 7 (split; [done|]).
  split. { rewrite HXl. destruct (sorted_reverse_spec (length <$> Xs)) as [_ ->].
           by rewrite length_fmap. }
  split. { by rewrite Hyl, length_fmap. }
  assert (∀ i, i < length Xs →
            ∃ seq y, length seq ≤ m ∧ length y ≤ my
              ∧ b_X b !! i = Some (seq ++ replicate (m - length seq) (EInt 0))
              ∧ b_mask b !! i = Some (replicate (length seq) 1%float
                                       ++ replicate (m - length seq) 0%float)
              ∧ b_y b !! i = Some (y ++ replicate (my - length y) dictionary_pad))
    as Hrow.
  { intros i Hi.
    destruct (sorted_index_of_row Xs i Hok Hi) as [idx Hidx].
    destruct (Hrows i idx Hidx) as (seq & y & t & Hseq & Hy & _ & HX & HM & HY & _).
    exists seq, y. rewrite Forall_forall in HallX, HallY.
    split; [|split; [|done]].
    - apply HallX, list_elem_of_fmap. exists seq. split; [done|].
      by eapply list_elem_of_lookup_2.
    - apply HallY, list_elem_of_fmap. exists y. split; [done|].
      by eapply list_elem_of_lookup_2. }
  split; [|split; [|split]].
  - apply Forall_lookup. intros i row Hi.
    destruct (Hrow i) as (seq & y & Hle & _ & HX & _).
    { rewrite <- HlX. by eapply lookup_lt_Some. }
    rewrite Hi in HX. injection HX as ->.
    rewrite length_app, length_replicate. lia.
  - apply Forall_lookup. intros i row Hi.
    destruct (Hrow i) as (seq & y & Hle & _ & _ & HM & _).
    { rewrite <- HlM. by eapply lookup_lt_Some. }
    rewrite Hi in HM. injection HM as ->.
    rewrite length_app, !length_replicate. lia.
  - apply Forall_lookup. intros i row Hi.
    destruct (Hrow i) as (seq & y & _ & Hle & _ & _ & HY).
    { rewrite <- HlY. by eapply lookup_lt_Some. }
    rewrite Hi in HY. injection HY as ->.
    rewrite length_app, length_replicate. lia.
  - by rewrite Hyl.
Qed.

(** X16: the mask agrees with the returned source lengths.  Row [i] of the
    mask holds 1.0 in its first [n] cells and 0.0 in the others, where [n]
    is entry [i] of the returned source lengths. *)
Theorem create_batch_mask_marks_lengths L A (Xs : list (list elem))
    (tourist_locs : list TouristLoc) (ys : list (list Z)) :
  0 < length Xs →
  length tourist_locs = length Xs →
  length ys = length Xs →
  torch_sort_ok (length <$> Xs) (torch_sort_descending (length <$> Xs)) = true →
  ∃ b m,
    create_batch torch_sort_descending (allocate L A) Xs tourist_locs ys = Some b
    ∧ py_max (length <$> Xs) = Some m
    ∧ ∀ i row, b_mask b !! i = Some row →
        ∃ n, b_X_lengths b !! i = Some n ∧ n ≤ m
           ∧ row = replicate n 1%float ++ replicate (m - n) 0%float.
Proof.
  intros Hpos Hlocs Hys Hok.
  destruct (create_batch_rows torch_sort_descending L A Xs tourist_locs ys
              Hpos Hlocs Hys Hok)
    as (b & m & my & Hb & Hm & Hmy & HlX & HlY & HlL & HlM & Hyl & HXl & Hmax & Hrows).
  destruct (py_max_Some (length <$> Xs)) as (m' & Hm' & HallX & _).
  { by destruct Xs. }
  rewrite Hm in Hm'. injection Hm' as <-.
  exists b, m. do 2 (split; [done|]). intros i row Hi.
  destruct (sorted_index_of_row Xs i Hok) as [idx Hidx].
  { rewrite <- HlM. by eapply lookup_lt_Some. }
  destruct (Hrows i idx Hidx) as (seq & y & t & Hseq & _ & _ & _ & HM & _).
  rewrite Hi in HM. injection HM as ->.
  exists (length seq). split; [|split; [|done]].
  - rewrite HXl.
    destruct (torch_sort_descending (length <$> Xs)) as [vals idxs] eqn:Hsort.
    rewrite <- (torch_sort_values _ _ _ Hok).
    destruct (torch_sort_ok_inv _ _ _ Hok) as (_ & _ & Hvals & _).
    destruct (Hvals i idx Hidx) as [-> _]. by rewrite list_lookup_fmap, Hseq.
  - rewrite Forall_forall in HallX. apply HallX, list_elem_of_fmap.
    exists seq. split; [done|]. by eapply list_elem_of_lookup_2.
Qed.

(** X17: the location tensor is completely written.  It is allocated
    uninitialised, but for N aligned examples every one of its rows is
    assigned, and its rows are the input locations rearranged. *)
Theorem create_batch_locations_written L A (Xs : list (list elem))
    (tourist_locs : list TouristLoc) (ys : list (list Z)) :
  0 < length Xs →
  length tourist_locs = length Xs →
  length ys = length Xs →
  torch_sort_ok (length <$> Xs) (torch_sort_descending (length <$> Xs)) = true →
  ∃ b,
    create_batch torch_sort_descending (allocate L A) Xs tourist_locs ys = Some b
    ∧ Forall is_Some (b_tourist_loc b)
    ∧ b_tourist_loc b ≡ₚ Some <$> tourist_locs.
Proof.
  intros Hpos Hlocs Hys Hok.
  destruct (create_batch_rows torch_sort_descending L A Xs tourist_locs ys
              Hpos Hlocs Hys Hok)
    as (b & m & my & Hb & Hm & Hmy & HlX & HlY & HlL & HlM & Hyl & HXl & Hmax & Hrows).
  exists b. split; [done|].
  destruct (torch_sort_descending (length <$> Xs)) as [vals idxs] eqn:Hsort.
  destruct (torch_sort_ok_inv _ _ _ Hok) as (Hperm & _). cbn [snd] in *.
  rewrite length_fmap in Hperm.
  assert (b_tourist_loc b = (λ idx, tourist_locs !! idx) <$> idxs) as Heq.
  { apply list_eq. intros i. rewrite list_lookup_fmap.
    destruct (idxs !! i) as [idx|] eqn:Hidx.
    - destruct (Hrows i idx Hidx) as (seq & y & t & _ & _ & Ht & _ & _ & _ & HL).
      rewrite HL. cbn. by rewrite Ht.
    - apply lookup_ge_None. apply lookup_ge_None in Hidx.
      rewrite HlL. by rewrite Hperm, length_seq in Hidx. }
  assert (b_tourist_loc b ≡ₚ Some <$> tourist_locs) as HP.
  { rewrite Heq, Hperm, <- Hlocs. by rewrite lookup_through_seq. }
  split; [|done]. rewrite HP. apply Forall_fmap, Forall_true. by eexists.
Qed.
End BatchShape.

Lemma create_batch_misaligned_witness :
  create_batch (H := sample_tokens) sample_sort (allocate (H := sample_tokens) 11 3)
    sample_Xs sample_locs [[5; 1]%Z] = None.
Proof.
  apply (create_batch_misaligned (H := sample_tokens) (H0 := sample_world) sample_sort);
    [reflexivity|].
  left. cbn. lia.
Defined.

Lemma create_batch_empty_witness :
  create_batch (H := sample_tokens) (H0 := sample_world) sample_sort
    (allocate (H := sample_tokens) 11 3) [] sample_locs sample_ys = None.
Proof.
  apply (create_batch_empty (H := sample_tokens) (H0 := sample_world) sample_sort).
  by left.
Defined.

Lemma create_batch_shapes_witness :
  ∃ b,
    create_batch (H := sample_tokens) sample_sort (allocate (H := sample_tokens) 11 3)
      sample_Xs sample_locs sample_ys = Some b
    ∧ Forall (λ row, length row = 3) (b_X b)
    ∧ Forall (λ row, length row = 3) (b_y b)
    ∧ b_max_len b = 3.
Proof.
  destruct (create_batch_shapes (H := sample_tokens) sample_sort 11 3
              sample_Xs sample_locs sample_ys (Nat.lt_0_succ _) eq_refl eq_refl eq_refl)
    as (b & m & Hb & Hm & Hmy & _ & _ & _ & _ & _ & _ & HX & _ & HY & _).
  vm_compute in Hm. injection Hm as <-.
  assert (b_max_len b = 3) as Hbm.
  { change (py_max (length <$> sample_ys)) with (Some 3) in Hmy. by injection Hmy. }
  rewrite Hbm in HY. exists b. by repeat split.
Defined.

Lemma create_batch_mask_marks_lengths_witness :
  ∃ b,
    create_batch (H := sample_tokens) sample_sort (allocate (H := sample_tokens) 11 3)
      sample_Xs sample_locs sample_ys = Some b
    ∧ ∀ row, b_mask b !! 1 = Some row →
        ∃ n, b_X_lengths b !! 1 = Some n
           ∧ row = replicate n 1%float ++ replicate (3 - n) 0%float.
Proof.
  destruct (create_batch_mask_marks_lengths (H := sample_tokens) sample_sort 11 3
              sample_Xs sample_locs sample_ys (Nat.lt_0_succ _) eq_refl eq_refl eq_refl)
    as (b & m & Hb & Hm & Hrows).
  vm_compute in Hm. injection Hm as <-.
  exists b. split; [exact Hb|]. intros row Hrow.
  destruct (Hrows 1 row Hrow) as (n & Hn & _ & Hr). by exists n.
Defined.

Lemma create_batch_locations_written_witness :
  ∃ b,
    create_batch (H := sample_tokens) sample_sort (allocate (H := sample_tokens) 11 3)
      sample_Xs sample_locs sample_ys = Some b
    ∧ Forall is_Some (b_tourist_loc b).
Proof.
  destruct (create_batch_locations_written (H := sample_tokens) sample_sort 11 3
              sample_Xs sample_locs sample_ys (Nat.lt_0_succ _) eq_refl eq_refl eq_refl)
    as (b & Hb & Hall & _).
  exists b. by split.
Defined.

(** ** More on the training loop *)

Lemma occurrences_app kind l1 l2 :
  occurrences kind (l1 ++ l2) = occurrences kind l1 + occurrences kind l2.
Proof. unfold occurrences. by rewrite List.filter_app, length_app. Qed.

Section TrainMore.
Context `{Collaborators} {X : Type}.

Implicit Types (st : train_state (X := X)).

(** The events of one comparison: the model is saved and tested exactly
    when [train] returns. *)
Lemma after_validation_events cfg st v :
  let '(st', evs, ret) := after_validation cfg st v in
  occurrences is_save evs = (if ret then 1 else 0)
  ∧ occurrences is_test evs = (if ret then 1 else 0)
  ∧ occurrences is_train_epoch evs = 0
  ∧ occurrences is_lr_step evs = 0
  ∧ (ret = true → last evs = Some EvalTest)
  ∧ (ret = true → cfg = valid_patience st + 1)%Z
  ∧ (0 ≤ valid_patience st → 0 ≤ valid_patience st')%Z.
Proof.
  unfold after_validation. destruct (v <? best_valid st)%float.
  - cbn. repeat split; try done; lia.
  - case_bool_decide; cbn; repeat split; try done; lia.
Qed.

(** From a state with counter [c], [k] losses in a row that do not
    improve on the best one, with [c + k] the configured patience: the loop
    returns at the last of them. *)
Lemma epochs_stop_after cfg draw valid k :
  ∀ (remaining epoch_num : nat) st sofar,
    0 < k → k ≤ remaining →
    (valid_patience st + Z.of_nat k = cfg)%Z →
    (0 ≤ valid_patience st)%Z →
    (∀ i, i < k → (valid (epoch_num + i)%nat <? best_valid st)%float = false) →
    let r := epochs cfg draw valid remaining epoch_num st sofar in
    stopped r = PatienceExhausted
    ∧ epochs_run r = epoch_num + k
    ∧ best_valid (final r) = best_valid st
    ∧ valid_patience (final r) = cfg.
Proof.
  induction k as [|k IH]; intros remaining epoch_num st sofar Hk Hrem Hcfg Hp Hvalid; [lia|].
  destruct remaining as [|remaining]; [lia|]. cbn [epochs]. unfold after_validation.
  cbn [shuffle_epoch best_valid valid_patience].
  pose proof (Hvalid 0 ltac:(lia)) as Hnow. rewrite Nat.add_0_r in Hnow.
  rewrite Hnow.
  case_bool_decide as Hstop.
  - assert (k = 0) as -> by lia. cbn. repeat split; [lia | lia].
  - destruct (decide (k = 0)) as [->|Hk0]; [lia|].
    edestruct (IH remaining (S epoch_num)) as (Hs & Hrun & Hbest & Hpat);
      [| | | | | rewrite Hs, Hrun, Hbest, Hpat];
      cbn [best_valid valid_patience]; try lia.
    + intros i Hi. replace (S epoch_num + i) with (epoch_num + S i) by lia.
      apply Hvalid. lia.
    + cbn [best_valid]. repeat split; lia.
Qed.

(** X21: early stopping counts losses in a row.  If the first loss improves
    on infinity and the [cfg] losses after it do not improve on it, [train]
    returns after epoch [cfg + 1] with that first loss as the best one. *)
Theorem train_stops_after_patience num_epochs cfg draw (valid : nat → float)
    (Xs : list X) tourist_locs landmarks ys :
  (0 < cfg)%Z → (cfg < num_epochs)%Z →
  (valid 0%nat <? infinity)%float = true →
  (∀ i, 1 ≤ i ≤ Z.to_nat cfg → (valid i <? valid 0%nat)%float = false) →
  let r := train num_epochs cfg draw valid Xs tourist_locs landmarks ys in
  stopped r = PatienceExhausted
  ∧ epochs_run r = Z.to_nat cfg + 1
  ∧ best_valid (final r) = valid 0.
Proof.
  intros Hcfg Hn H0 Hrest. cbv zeta. unfold train.
  destruct (Z.to_nat num_epochs) as [|remaining] eqn:Hnat; [lia|].
  cbn [epochs]. unfold after_validation.
  cbn [shuffle_epoch best_valid valid_patience train_init]. rewrite H0.
  match goal with
  | |- context [epochs cfg draw valid remaining 1 ?st1 ?sofar] =>
      destruct (epochs_stop_after cfg draw valid (Z.to_nat cfg) remaining 1 st1 sofar)
        as (Hs & Hrun & Hbest & _)
  end; [lia | lia | cbn; lia | cbn; lia | |].
  - intros i Hi. cbn [best_valid]. apply Hrest. lia.
  - rewrite Hs, Hrun, Hbest. cbn [best_valid]. repeat split; lia.
Qed.
End TrainMore.

Lemma train_stops_after_patience_witness :
  stopped (train (H := sample_world) 500 3 (λ _, [1; 0]) (λ _, 5%float)
             sample_Xs sample_locs sample_landmarks sample_ys) = PatienceExhausted
  ∧ epochs_run (train (H := sample_world) 500 3 (λ _, [1; 0]) (λ _, 5%float)
                  sample_Xs sample_locs sample_landmarks sample_ys) = 4.
Proof.
  destruct (train_stops_after_patience (H := sample_world) 500 3 (λ _, [1; 0])
              (λ _, 5%float) sample_Xs sample_locs sample_landmarks sample_ys
              ltac:(lia) ltac:(lia) eq_refl (λ _ _, eq_refl))
    as (Hs & Hrun & _).
  split; [exact Hs | exact Hrun].
Defined.

(** ** Mini-batches and evaluation *)

Lemma slices_cover {A} (s c : nat) (l : list A) :
  length l ≤ c * s →
  concat ((λ k, slice (k * s) s l) <$> seq 0 c) = l.
Proof.
  revert l. induction c as [|c IH]; intros l Hlen.
  - destruct l; [done|]. cbn in Hlen. lia.
  - cbn [seq fmap list_fmap concat]. rewrite <- fmap_S_seq, <- list_fmap_compose.
    transitivity (take s l ++ drop s l); [|apply take_drop]. f_equal.
    etrans; [|apply (IH (drop s l)); rewrite length_drop; lia].
    f_equal. apply list_fmap_ext. intros _ k _. unfold slice, compose.
    cbn [Nat.mul]. by rewrite drop_drop.
Qed.

Lemma range_count (n s : nat) :
  0 < s →
  n ≤ (n + s - 1) / s * s ∧ (0 < n → ((n + s - 1) / s - 1) * s < n).
Proof.
  intros Hs. pose proof (Nat.div_mod_eq (n + s - 1) s) as Hdm.
  pose proof (Nat.mod_upper_bound (n + s - 1) s ltac:(lia)) as Hmod.
  split; [nia|]. intros Hn.
  destruct ((n + s - 1) / s) as [|c] eqn:Hc; [nia|]. nia.
Qed.

(** The starts of the batches and the slices taken at them. *)
Lemma py_range_slices {A} (l : list A) (bsz : Z) :
  (0 < bsz)%Z →
  ∃ starts,
    py_range (length l) bsz = Some starts
    ∧ length starts = (length l + Z.to_nat bsz - 1) / Z.to_nat bsz
    ∧ concat ((λ jj, slice jj (Z.to_nat bsz) l) <$> starts) = l
    ∧ Forall (λ jj, jj < length l
                  ∧ 0 < length (slice jj (Z.to_nat bsz) l) ≤ Z.to_nat bsz) starts.
Proof.
  intros Hpos. unfold py_range.
  rewrite bool_decide_eq_false_2, bool_decide_eq_false_2 by lia.
  eexists. split; [done|].
  set (s := Z.to_nat bsz). assert (0 < s) as Hs by lia.
  destruct (range_count (length l) s Hs) as [Hcover Hlast].
  split; [by rewrite length_fmap, length_seq|]. split.
  - rewrite <- list_fmap_compose. by apply slices_cover.
  - apply Forall_fmap, Forall_forall. intros k Hk%elem_of_seq. cbn.
    assert (k * s < length l) as Hlt.
    { destruct (decide (length l = 0)) as [Hz|Hnz].
      - rewrite Hz in Hk. cbn in Hk.
        rewrite Nat.div_small in Hk by lia. lia.
      - specialize (Hlast ltac:(lia)). nia. }
    split; [done|]. unfold slice. rewrite length_take, length_drop. lia.
Qed.

(** X22: the mini-batches of a pass.  With a positive batch size the loop
    starts a batch at 0, bsz, 2·bsz, ...; the batches, in order, make up
    the whole array, so that every example is in exactly one of them; each
    batch is non-empty and has at most bsz examples. *)
Theorem mini_batches_partition {A} (l : list A) (bsz : Z) :
  (0 < bsz)%Z →
  ∃ starts,
    py_range (length l) bsz = Some starts
    ∧ length starts = (length l + Z.to_nat bsz - 1) / Z.to_nat bsz
    ∧ concat ((λ jj, slice jj (Z.to_nat bsz) l) <$> starts) = l
    ∧ Forall (λ jj, jj < length l
                  ∧ 0 < length (slice jj (Z.to_nat bsz) l) ≤ Z.to_nat bsz) starts.
Proof. apply py_range_slices. Qed.

Lemma take_indices_nil {A} (indices : list nat) :
  take_indices indices (@nil A) = [].
Proof. induction indices as [|i p IH]; [done|]. by rewrite take_indices_cons. Qed.

Section EvalFacts.
Context `{SpecialTokens} `{Collaborators}.
Variable torch_sort_descending : list nat → list nat * list nat.
Variable forward_loss : batch → float.

(** X24: an empty split cannot be evaluated.  With no example there is no
    batch, and [total_loss/total] divides by zero; a batch size of 0 fails
    even earlier, when the range is built. *)
Theorem eval_epoch_empty_split aod (bsz : Z) indices :
  eval_epoch torch_sort_descending forward_loss aod bsz indices [] [] []
  = inl (if bool_decide (bsz = 0)%Z then RangeStepZero else DivisionByZero).
Proof.
  unfold eval_epoch, py_range. rewrite !take_indices_nil. cbn [length].
  case_bool_decide; [done|]. case_bool_decide; [done|].
  rewrite Nat.div_small by lia. done.
Qed.

(** The loop over the batches, when every batch can be assembled. *)
Lemma eval_batches_run L A (bsz : nat) (Xs : list (list elem))
    (tourist_locs : list TouristLoc) (ys : list (list Z)) starts acc :
  length tourist_locs = length Xs →
  length ys = length Xs →
  Forall (λ jj, 0 < length (slice jj bsz Xs)) starts →
  sort_ok_on torch_sort_descending bsz Xs starts = true →
  ∃ acc', eval_batches torch_sort_descending forward_loss (allocate L A) bsz
            Xs tourist_locs ys starts acc = Some acc'
        ∧ batch_num acc' = batch_num acc + length starts.
Proof.
  intros Hl Hy. revert acc. induction starts as [|jj rest IH]; intros acc Hne Hok.
  - exists acc. split; [done|]. cbn. lia.
  - apply Forall_cons in Hne as [Hjj Hne].
    unfold sort_ok_on in Hok. cbn [forallb] in Hok.
    apply andb_true_iff in Hok as [Hokjj Hok]. cbn [eval_batches].
    destruct (create_batch_rows torch_sort_descending L A
                (slice jj bsz Xs) (slice jj bsz tourist_locs) (slice jj bsz ys))
      as (b & _ & _ & -> & _); [done | | | done |].
    { unfold slice. rewrite !length_take, !length_drop. lia. }
    { unfold slice. rewrite !length_take, !length_drop. lia. }
    cbn [mbind option_bind].
    destruct (IH {| total_loss := (total_loss acc + forward_loss b)%float;
                    total := (total acc + 1)%float;
                    batch_num := S (batch_num acc) |} Hne Hok)
      as (acc' & -> & Hnum).
    exists acc'. split; [done|]. cbn [batch_num length] in *. lia.
Qed.

(** X23: evaluation never fails while assembling batches.  On aligned
    arrays, with a positive batch size and a sort that behaves as specified
    on each mini-batch, every call of [create_batch] in the loop succeeds;
    the loop makes one call per batch, ⌈n / bsz⌉ in all. *)
Theorem eval_batches_all_assembled L A (bsz : Z) (Xs : list (list elem))
    (tourist_locs : list TouristLoc) (ys : list (list Z)) :
  (0 < bsz)%Z →
  length tourist_locs = length Xs →
  length ys = length Xs →
  (∀ starts, py_range (length Xs) bsz = Some starts →
             sort_ok_on torch_sort_descending (Z.to_nat bsz) Xs starts = true) →
  ∃ starts acc,
    py_range (length Xs) bsz = Some starts
    ∧ eval_batches torch_sort_descending forward_loss (allocate L A) (Z.to_nat bsz)
        Xs tourist_locs ys starts {| total_loss := 0; total := 0; batch_num := 0 |}
      = Some acc
    ∧ batch_num acc = (length Xs + Z.to_nat bsz - 1) / Z.to_nat bsz.
Proof.
  intros Hpos Hl Hy Hsort.
  destruct (py_range_slices Xs bsz Hpos) as (starts & Hrange & Hlen & _ & Hall).
  destruct (eval_batches_run L A (Z.to_nat bsz) Xs tourist_locs ys starts
              {| total_loss := 0; total := 0; batch_num := 0 |} Hl Hy)
    as (acc & Hacc & Hnum).
  { eapply Forall_impl; [exact Hall|]. intros jj (_ & Hjj & _). exact Hjj. }
  { by apply Hsort. }
  exists starts, acc. split; [done|]. split; [done|].
  rewrite Hnum. cbn [batch_num]. lia.
Qed.
End EvalFacts.

Lemma mini_batches_partition_witness :
  ∃ starts,
    py_range (length [1; 2; 3; 4; 5]%Z) 2 = Some starts
    ∧ length starts = 3
    ∧ concat ((λ jj, slice jj 2 [1; 2; 3; 4; 5]%Z) <$> starts) = [1; 2; 3; 4; 5]%Z.
Proof.
  destruct (mini_batches_partition [1; 2; 3; 4; 5]%Z 2 ltac:(lia))
    as (starts & Hr & Hlen & Hcat & _).
  exists starts. split; [exact Hr|]. split; [exact Hlen | exact Hcat].
Defined.

Lemma eval_batches_all_assembled_witness :
  ∃ starts acc,
    py_range (length sample_Xs) 1 = Some starts
    ∧ eval_batches (H := sample_tokens) sample_sort (λ _, 2%float)
        (allocate (H := sample_tokens) 11 3) 1
        sample_Xs sample_locs sample_ys starts
        {| total_loss := 0; total := 0; batch_num := 0 |} = Some acc
    ∧ batch_num acc = 2.
Proof.
  destruct (eval_batches_all_assembled (H := sample_tokens) sample_sort
              (λ _, 2%float) 11 3 1 sample_Xs sample_locs sample_ys
              ltac:(lia) eq_refl eq_refl)
    as (starts & acc & Hr & Hacc & Hnum).
  { intros starts Hs. vm_compute in Hs. injection Hs as <-. reflexivity. }
  exists starts, acc. split; [exact Hr|]. split; [exact Hacc | exact Hnum].
Defined.


(** ** [train] with its loops in place *)

(** One more shuffle: the entry at position [i] is the one that stood at
    position [q[i]] before it. *)
Lemma origin_snoc (draws : list (list nat)) (q : list nat) (i : nat) :
  origin (draws ++ [q]) i = q !! i ≫= origin draws.
Proof.
  unfold origin. rewrite foldr_app. cbn [foldr mbind option_bind].
  generalize (q !! i). intros o.
  induction draws as [|d draws IH]; cbn [foldr]; [by destruct o|].
  rewrite IH. by destruct o.
Qed.

Section TrainRunFacts.
Context `{SpecialTokens} `{Collaborators}.
Variable torch_sort_descending : list nat → list nat * list nat.
Variable train_forward : nat → nat → batch → float.
Variable eval_forward : nat → batch → float.
Variable test_forward : batch → float.
Variable draw : nat → list nat.
Variable vdraw : nat → list nat.
Variable tdraw : list nat.
Variable aod : ActionObservationDictionary.
Variable bsz : Z.
Variable cfg : Z.
Variable valid_data test_data : data.

Local Abbreviation epochs_from :=
  (run_epochs torch_sort_descending train_forward eval_forward
     test_forward draw vdraw tdraw aod bsz cfg valid_data test_data).
Local Abbreviation train_on :=
  (run_train torch_sort_descending train_forward eval_forward
     test_forward draw vdraw tdraw aod bsz cfg valid_data test_data).
Local Abbreviation losses :=
  (valid_loss_of torch_sort_descending eval_forward vdraw aod bsz valid_data).

(** What the log of a run holds, however the run ends. *)
Lemma run_epochs_log remaining epoch_num st sofar :
  let R := epochs_from remaining epoch_num st sofar in
  occurrences is_save (r_log R) ≤ occurrences is_save sofar + 1
  ∧ occurrences is_test (r_log R) + occurrences is_save sofar
      ≤ occurrences is_save (r_log R) + occurrences is_test sofar
  ∧ occurrences is_train_epoch (r_log R)
      = occurrences is_train_epoch sofar + (r_epochs R - epoch_num)
  ∧ occurrences is_lr_step (r_log R)
      ≤ occurrences is_lr_step sofar + (r_epochs R - epoch_num)
  ∧ epoch_num ≤ r_epochs R ≤ epoch_num + remaining
  ∧ ∀ s, r_outcome R = inr s →
      occurrences is_save (r_log R) = occurrences is_save sofar + 1
      ∧ occurrences is_test (r_log R) = occurrences is_test sofar + 1
      ∧ last (r_log R) = Some EvalTest
      ∧ occurrences is_lr_step (r_log R)
          = occurrences is_lr_step sofar + (r_epochs R - epoch_num)
      ∧ (s = EpochsExhausted → r_epochs R = epoch_num + remaining).
Proof.
  revert epoch_num st sofar.
  induction remaining as [|remaining IH]; intros epoch_num st sofar.
  - cbn [run_epochs].
    destruct (eval_split _ _ _ _ _ valid_data) as [f|v];
      [|destruct (eval_split _ _ _ _ _ test_data) as [f|t]];
      cbn [r_log r_epochs r_outcome]; rewrite ?occurrences_app, ?last_app; cbn;
      repeat split; try lia; try done.
  - cbn [run_epochs].
    destruct (shuffle_consistent _ _ _);
      [|cbn [r_log r_epochs r_outcome]; repeat split; try lia; done].
    destruct (train_pass _ _ _ _ _ _) as [e|l];
      [cbn [r_log r_epochs r_outcome]; rewrite ?occurrences_app; cbn;
       repeat split; try lia; done|].
    destruct (eval_split _ _ _ _ _ valid_data) as [f|v];
      [cbn [r_log r_epochs r_outcome]; rewrite ?occurrences_app; cbn;
       repeat split; try lia; done|].
    pose proof (after_validation_events cfg (shuffle_epoch (draw epoch_num) st) v) as Hev.
    destruct (after_validation cfg _ _) as [[st2 evs] ret].
    destruct Hev as (Hsave & Htest & Htr & Hlr & Hlast & _).
    destruct ret.
    + destruct (eval_split _ _ _ _ _ test_data) as [f|t];
        cbn [r_log r_epochs r_outcome];
        rewrite ?occurrences_app, Hsave, Htest, Htr, Hlr, ?last_app, ?(Hlast eq_refl);
        cbn; repeat split; try lia; try done; congruence.
    + specialize (IH (S epoch_num) st2
        (((sofar ++ [TrainEpoch epoch_num]) ++ [EvalEpoch]) ++ [LrSchedulerStep v] ++ evs)).
      cbv zeta in IH |- *.
      set (R := epochs_from remaining (S epoch_num) st2 _) in *.
      rewrite !occurrences_app, Hsave, Htest, Htr, Hlr in IH. cbn in IH.
      destruct IH as (H1 & H2 & H3 & H4 & H5 & H6).
      repeat split; try lia.
      all: destruct (H6 s) as (? & ? & ? & ? & Hs); try done; try lia.
      intros Hx. specialize (Hs Hx). lia.
Qed.

(** When nothing raises, the run is the run of the loop given the
    validation losses, [epochs], on the losses the validations returned. *)
Lemma run_epochs_returns remaining epoch_num st sofar s :
  r_outcome (epochs_from remaining epoch_num st sofar) = inr s →
  let R := epochs_from remaining epoch_num st sofar in
  let r := epochs cfg draw losses remaining epoch_num st sofar in
  r_state R = final r ∧ r_log R = log r ∧ s = stopped r ∧ r_epochs R = epochs_run r.
Proof.
  revert epoch_num st sofar.
  induction remaining as [|remaining IH]; intros epoch_num st sofar; cbv zeta.
  - cbn [run_epochs epochs].
    destruct (eval_split _ _ _ _ _ valid_data) as [f|v]; [done|].
    destruct (eval_split _ _ _ _ _ test_data) as [f|t]; [done|].
    cbn [r_outcome r_state r_log r_epochs final log stopped epochs_run].
    intros [= <-]. by rewrite <- app_assoc.
  - cbn [run_epochs epochs].
    destruct (shuffle_consistent _ _ _); [|done].
    destruct (train_pass _ _ _ _ _ _) as [e|l]; [done|].
    destruct (eval_split _ _ _ _ _ valid_data) as [f|v] eqn:Hv; [done|].
    assert (losses epoch_num = v) as -> by (unfold valid_loss_of; by rewrite Hv).
    destruct (after_validation cfg _ _) as [[st2 evs] ret].
    assert (((sofar ++ [TrainEpoch epoch_num]) ++ [EvalEpoch]) ++ [LrSchedulerStep v] ++ evs
            = sofar ++ [TrainEpoch epoch_num; EvalEpoch; LrSchedulerStep v] ++ evs) as ->.
    { by rewrite <- !app_assoc. }
    destruct ret.
    + destruct (eval_split _ _ _ _ _ test_data) as [f|t]; [done|].
      cbn [r_outcome r_state r_log r_epochs final log stopped epochs_run].
      by intros [= <-].
    + apply IH.
Qed.

(** Aligned arrays pass the length check of [shuffle]. *)
Lemma aligned_consistent p (Xs0 : list (list elem)) locs0 lms0 ys0 st :
  length locs0 = length Xs0 → length ys0 = length Xs0 →
  p ≡ₚ seq 0 (length Xs0) →
  aligned_through p Xs0 locs0 lms0 ys0 st →
  shuffle_consistent (t_Xs st) (t_tourist_locs st) (t_ys st) = true.
Proof.
  intros Hl Hy Hp (HX & HL & HY & _).
  pose proof (range_perm_valid _ _ Hp) as Hvalid.
  unfold shuffle_consistent. rewrite HX, HL, HY.
  rewrite (take_indices_length p Xs0) by done.
  rewrite (take_indices_length p locs0) by (by rewrite Hl).
  rewrite (take_indices_length p ys0) by (by rewrite Hy).
  by rewrite !bool_decide_eq_true_2.
Qed.

(** The arrays of the loop, however the run ends: they are the arrays
    [train] started from, read through the orders drawn so far. *)
Lemma run_epochs_arrays (Xs0 : list (list elem)) locs0 lms0 ys0 :
  length locs0 = length Xs0 → length ys0 = length Xs0 →
  (∀ e, is_range_perm (draw e) (length Xs0) = true) →
  ∀ remaining epoch_num st sofar p,
    p ≡ₚ seq 0 (length Xs0) →
    aligned_through p Xs0 locs0 lms0 ys0 st →
    (∀ i, i < length Xs0 → p !! i = origin (draw <$> seq 0 epoch_num) i) →
    let R := epochs_from remaining epoch_num st sofar in
    (0 < remaining → epoch_num < r_epochs R)
    ∧ ∃ p', p' ≡ₚ seq 0 (length Xs0)
          ∧ aligned_through p' Xs0 locs0 lms0 ys0 (r_state R)
          ∧ ∀ i, i < length Xs0 → p' !! i = origin (draw <$> seq 0 (r_epochs R)) i.
Proof.
  intros Hl Hy Hdraw.
  induction remaining as [|remaining IH]; intros epoch_num st sofar p Hp Hal Hor.
  - cbn [run_epochs]. split; [lia|]. exists p.
    destruct (eval_split _ _ _ _ _ valid_data) as [f|v];
      [|destruct (eval_split _ _ _ _ _ test_data) as [f|t]];
      cbn [r_state r_epochs]; done.
  - cbn [run_epochs].
    rewrite (aligned_consistent p Xs0 locs0 lms0 ys0 st) by done.
    pose proof (Hdraw epoch_num) as Hq%is_range_perm_spec.
    pose proof (shuffle_epoch_aligned _ _ _ _ _ _ _ Hl Hy Hq Hp Hal) as Hal1.
    pose proof (take_indices_perm _ _ _ Hq Hp) as Hp1.
    assert (∀ i, i < length Xs0 →
              take_indices (draw epoch_num) p !! i
              = origin (draw <$> seq 0 (S epoch_num)) i) as Hor1.
    { intros i Hi. rewrite seq_S, fmap_app. cbn [fmap list_fmap Nat.add].
      rewrite origin_snoc, take_indices_lookup.
      - destruct (draw epoch_num !! i) as [j|] eqn:Hj; [|done]. cbn [mbind option_bind].
        apply Hor. apply range_perm_valid in Hq. rewrite Forall_forall in Hq.
        apply Hq. by eapply list_elem_of_lookup_2.
      - assert (length p = length Xs0) as -> by (by rewrite Hp, length_seq).
        by apply range_perm_valid. }
    destruct (train_pass _ _ _ _ _ _) as [e|l].
    { cbn [r_state r_epochs]. split; [lia|]. by eexists. }
    destruct (eval_split _ _ _ _ _ valid_data) as [f|v].
    { cbn [r_state r_epochs]. split; [lia|]. by eexists. }
    pose proof (after_validation_data cfg (shuffle_epoch (draw epoch_num) st) v) as Hdata.
    destruct (after_validation cfg _ _) as [[st2 evs] ret]. cbn [fst] in Hdata.
    destruct Hdata as (HX & HL & HY & HM).
    assert (aligned_through (take_indices (draw epoch_num) p) Xs0 locs0 lms0 ys0 st2)
      as Hal2.
    { destruct Hal1 as (? & ? & ? & ?). unfold aligned_through.
      by rewrite HX, HL, HY, HM. }
    destruct ret.
    + destruct (eval_split _ _ _ _ _ test_data) as [f|t];
        cbn [r_state r_epochs]; (split; [lia|]); by eexists.
    + edestruct (IH (S epoch_num) st2) as [Hprog Hrest]; [exact Hp1|exact Hal2|exact Hor1|].
      split; [|exact Hrest]. intros _.
      destruct remaining as [|remaining'].
      * cbn [run_epochs].
        destruct (eval_split _ _ _ _ _ valid_data) as [f|v'];
          [|destruct (eval_split _ _ _ _ _ test_data) as [f|t]];
          cbn [r_epochs]; lia.
      * specialize (Hprog ltac:(lia)). lia.
Qed.

(** C10, amended: at the start of every epoch the trajectories, the
    tourist locations and the targets are read through the one order drawn
    by [shuffle], and the landmarks are left as they were loaded.  With
    aligned arrays the shuffle of the first epoch is always reached; and
    wherever [train] stops, by a return or by an exception, entry [i] of
    the three shuffled arrays is entry [j] of the loaded ones, for one and
    the same [j]: the index that the orders drawn so far, composed, give
    for [i].  Every loaded index is some position's [j] (no example is
    lost).  Entry [i] of the landmarks is still the loaded entry [i]: it
    goes with the triple at [i] where [j = i], and does not where the
    loaded trajectory at [j] differs from the one at [i]. *)
Theorem C10_landmarks_left_unshuffled num_epochs (train_data : data) :
  length (tourist_locs train_data) = length (Xs train_data) →
  length (ys train_data) = length (Xs train_data) →
  (∀ e, is_range_perm (draw e) (length (Xs train_data)) = true) →
  let R := train_on num_epochs train_data in
  let st := r_state R in
  let draws := draw <$> seq 0 (r_epochs R) in
  ((0 < num_epochs)%Z → 0 < r_epochs R)
  ∧ t_landmarks st = landmarks train_data
  ∧ (∀ i, i < length (Xs train_data) →
       ∃ j, origin draws i = Some j ∧ j < length (Xs train_data)
          ∧ t_Xs st !! i = Xs train_data !! j
          ∧ t_tourist_locs st !! i = tourist_locs train_data !! j
          ∧ t_ys st !! i = ys train_data !! j
          ∧ t_landmarks st !! i = landmarks train_data !! i)
  ∧ (∀ j, j < length (Xs train_data) →
       ∃ i, i < length (Xs train_data) ∧ origin draws i = Some j)
  ∧ (∀ i j, i < length (Xs train_data) → origin draws i = Some j →
       (j = i → t_Xs st !! i = Xs train_data !! i
                ∧ t_tourist_locs st !! i = tourist_locs train_data !! i
                ∧ t_ys st !! i = ys train_data !! i)
       ∧ (Xs train_data !! j ≠ Xs train_data !! i →
            t_Xs st !! i ≠ Xs train_data !! i)).
Proof.
  intros Hl Hy Hdraw. cbv zeta. unfold run_train.
  destruct (run_epochs_arrays (Xs train_data) (tourist_locs train_data) (landmarks train_data)
              (ys train_data) Hl Hy Hdraw (Z.to_nat num_epochs) 0
              (train_init (Xs train_data) (tourist_locs train_data)
                 (landmarks train_data) (ys train_data)) []
              (seq 0 (length (Xs train_data))))
    as (Hprog & p & Hp & (HX & HL & HY & HM) & Hor).
  { done. }
  { unfold aligned_through, train_init. cbn [t_Xs t_tourist_locs t_ys t_landmarks].
    split; [by rewrite take_indices_seq|].
    split; [by rewrite <- Hl, take_indices_seq|].
    split; [by rewrite <- Hy, take_indices_seq|done]. }
  { intros i Hi. cbn. by apply lookup_seq_lt. }
  set (N := length (Xs train_data)) in *.
  set (R := run_epochs _ _ _ _ _ _ _ _ _ _ _ _ _ _ _ _) in *.
  pose proof (range_perm_valid _ _ Hp) as Hvalid.
  assert (length p = N) as Hlp by (by rewrite Hp, length_seq).
  assert (∀ i, i < N →
            ∃ j, origin (draw <$> seq 0 (r_epochs R)) i = Some j ∧ j < N
               ∧ t_Xs (r_state R) !! i = Xs train_data !! j
               ∧ t_tourist_locs (r_state R) !! i = tourist_locs train_data !! j
               ∧ t_ys (r_state R) !! i = ys train_data !! j
               ∧ t_landmarks (r_state R) !! i = landmarks train_data !! i) as Hrows.
  { intros i Hi.
    destruct (lookup_lt_is_Some_2 p i) as [j Hj]; [lia|].
    exists j. rewrite <- (Hor i Hi). split; [done|]. split.
    { rewrite Forall_forall in Hvalid. apply Hvalid. by eapply list_elem_of_lookup_2. }
    rewrite HX, HL, HY, HM.
    rewrite !take_indices_lookup, Hj; [done | by rewrite Hy | by rewrite Hl | done]. }
  split; [intros Hn; apply Hprog; lia|].
  split; [done|]. split; [done|]. split.
  - intros j Hj.
    assert (j ∈ p) as Hin by (rewrite Hp; apply elem_of_seq; lia).
    apply list_elem_of_lookup in Hin as [i Hi].
    assert (i < N) as Hlt by (rewrite <- Hlp; by eapply lookup_lt_Some).
    exists i. split; [done|]. by rewrite <- (Hor i Hlt).
  - intros i j Hi Hj.
    destruct (Hrows i Hi) as (j' & Hj' & _ & HXi & HLi & HYi & _).
    rewrite Hj in Hj'. injection Hj' as <-. split.
    + intros ->. done.
    + intros Hne. by rewrite HXi.
Qed.

(** With a patience of 0 or less the counter never equals it. *)
Lemma run_epochs_never_patient remaining epoch_num st sofar :
  (cfg ≤ 0)%Z → (0 ≤ valid_patience st)%Z →
  r_outcome (epochs_from remaining epoch_num st sofar) ≠ inr PatienceExhausted.
Proof.
  intros Hcfg. revert epoch_num st sofar.
  induction remaining as [|remaining IH]; intros epoch_num st sofar Hp.
  - cbn [run_epochs].
    destruct (eval_split _ _ _ _ _ valid_data) as [f|v];
      [|destruct (eval_split _ _ _ _ _ test_data) as [f|t]]; done.
  - cbn [run_epochs].
    destruct (shuffle_consistent _ _ _); [|done].
    destruct (train_pass _ _ _ _ _ _) as [e|l]; [done|].
    destruct (eval_split _ _ _ _ _ valid_data) as [f|v]; [done|].
    pose proof (after_validation_events cfg (shuffle_epoch (draw epoch_num) st) v) as Hev.
    destruct (after_validation cfg _ _) as [[st2 evs] ret].
    destruct Hev as (_ & _ & _ & _ & _ & Hret & Hnn).
    cbn [shuffle_epoch valid_patience] in Hret, Hnn.
    specialize (Hnn Hp). destruct ret; [|by apply IH].
    specialize (Hret eq_refl). lia.
Qed.

(** X18: however [train] ends, the model is saved at most once, and the
    test is started at most once and only in a run that saves the model;
    when [train] returns, by either of its two returns, it has saved the
    model exactly once and run the test exactly once, as the last thing it
    did. *)
Theorem train_saves_and_tests_once num_epochs (train_data : data) :
  let R := train_on num_epochs train_data in
  occurrences is_save (r_log R) ≤ 1
  ∧ occurrences is_test (r_log R) ≤ occurrences is_save (r_log R)
  ∧ ∀ s, r_outcome R = inr s →
      occurrences is_save (r_log R) = 1
      ∧ occurrences is_test (r_log R) = 1
      ∧ last (r_log R) = Some EvalTest.
Proof.
  cbv zeta. unfold run_train.
  pose proof (run_epochs_log (Z.to_nat num_epochs) 0
                (train_init (Xs train_data) (tourist_locs train_data)
                   (landmarks train_data) (ys train_data)) []) as Hlog.
  cbv zeta in Hlog. destruct Hlog as (Hsave & Htest & _ & _ & _ & Hret).
  cbn in Hsave, Htest. split; [lia|]. split; [lia|].
  intros s Hs. destruct (Hret s Hs) as (-> & -> & -> & _). done.
Qed.

(** X19: epoch accounting.  [train] enters at most [num_epochs] epochs
    and starts one mini-batch loop in each; the learning-rate scheduler is
    stepped at most once per epoch entered, and exactly once when [train]
    returns; it falls out of the loop only after all [num_epochs] epochs;
    and when [num_epochs] is not positive a returning run only saves,
    validates and tests. *)
Theorem train_epoch_accounting num_epochs (train_data : data) :
  let R := train_on num_epochs train_data in
  r_epochs R ≤ Z.to_nat num_epochs
  ∧ occurrences is_train_epoch (r_log R) = r_epochs R
  ∧ occurrences is_lr_step (r_log R) ≤ r_epochs R
  ∧ ∀ s, r_outcome R = inr s →
      occurrences is_lr_step (r_log R) = r_epochs R
      ∧ (s = EpochsExhausted → r_epochs R = Z.to_nat num_epochs)
      ∧ ((num_epochs ≤ 0)%Z → r_log R = [SaveModel; EvalEpoch; EvalTest]).
Proof.
  cbv zeta. unfold run_train.
  pose proof (run_epochs_log (Z.to_nat num_epochs) 0
                (train_init (Xs train_data) (tourist_locs train_data)
                   (landmarks train_data) (ys train_data)) []) as Hlog.
  cbv zeta in Hlog. destruct Hlog as (_ & _ & Htr & Hlr & Hrun & Hret).
  cbn in Htr, Hlr. split; [lia|]. split; [lia|]. split; [lia|].
  intros s Hs. destruct (Hret s Hs) as (_ & _ & _ & Hlr' & Hstop).
  cbn in Hlr'. split; [lia|]. split; [intros Hx; specialize (Hstop Hx); lia|].
  intros Hn. revert Hs. replace (Z.to_nat num_epochs) with 0 by lia.
  cbn [run_epochs].
  destruct (eval_split _ _ _ _ _ valid_data) as [f|v];
    [|destruct (eval_split _ _ _ _ _ test_data) as [f|t]]; done.
Qed.

(** X20: a patience of 0 or less switches early stopping off.  The counter
    is compared with the configured patience only after it has been
    incremented, so it never equals it: [train] never takes the return
    inside the loop, and when it returns it has run all [num_epochs]
    epochs, whatever the validation losses were. *)
Theorem train_patience_not_positive num_epochs (train_data : data) :
  (cfg ≤ 0)%Z →
  let R := train_on num_epochs train_data in
  r_outcome R ≠ inr PatienceExhausted
  ∧ ∀ s, r_outcome R = inr s →
      s = EpochsExhausted ∧ r_epochs R = Z.to_nat num_epochs.
Proof.
  intros Hcfg. cbv zeta.
  assert (r_outcome (train_on num_epochs train_data) ≠ inr PatienceExhausted) as Hnever.
  { unfold run_train. by apply run_epochs_never_patient. }
  split; [done|]. intros s Hs.
  assert (s = EpochsExhausted) as -> by (destruct s; congruence).
  split; [done|].
  pose proof (run_epochs_log (Z.to_nat num_epochs) 0
                (train_init (Xs train_data) (tourist_locs train_data)
                   (landmarks train_data) (ys train_data)) []) as Hlog.
  cbv zeta in Hlog. destruct Hlog as (_ & _ & _ & _ & _ & Hret).
  unfold run_train in *. destruct (Hret _ Hs) as (_ & _ & _ & _ & Hstop).
  rewrite (Hstop eq_refl). lia.
Qed.

(** X26: what [train] needs to get through its first epoch.  With at least
    one epoch to run: arrays of different lengths make [shuffle] raise
    before anything is done; a batch size of 0 makes [range] raise at the
    first mini-batch loop; a negative batch size or an empty training set
    leaves that loop without a batch, and the [print] after it divides by
    zero.  In all three cases nothing has been saved. *)
Theorem train_raises_in_first_epoch num_epochs (train_data : data) :
  (0 < num_epochs)%Z →
  let R := train_on num_epochs train_data in
  let aligned := length (tourist_locs train_data) = length (Xs train_data)
                 ∧ length (ys train_data) = length (Xs train_data) in
  (¬ aligned → r_outcome R = inl (Training, ShuffleLengths) ∧ r_log R = [])
  ∧ (aligned → bsz = 0%Z →
       r_outcome R = inl (Training, Loop RangeStepZero) ∧ r_log R = [TrainEpoch 0])
  ∧ (aligned → (bsz < 0)%Z ∨ (bsz ≠ 0%Z ∧ Xs train_data = []) →
       r_outcome R = inl (Training, Loop DivisionByZero) ∧ r_log R = [TrainEpoch 0]).
Proof.
  intros Hn. cbv zeta. unfold run_train.
  destruct (Z.to_nat num_epochs) as [|remaining] eqn:Hnat; [lia|].
  cbn [run_epochs train_init t_Xs t_tourist_locs t_ys]. unfold shuffle_consistent.
  split; [|split].
  - intros Hna.
    destruct (decide (length (tourist_locs train_data) = length (Xs train_data)));
      destruct (decide (length (ys train_data) = length (Xs train_data)));
      rewrite ?bool_decide_eq_true_2, ?bool_decide_eq_false_2 by done;
      try done; try (by rewrite andb_false_r). by destruct Hna.
  - intros [Hl Hy] ->. rewrite !bool_decide_eq_true_2 by done. cbn [andb].
    unfold train_pass, py_range. by rewrite bool_decide_eq_true_2.
  - intros [Hl Hy] Hcase. rewrite !bool_decide_eq_true_2 by done. cbn [andb].
    unfold train_pass. cbn [shuffle_epoch train_init t_Xs t_tourist_locs t_ys].
    assert (py_range (length (take_indices (draw 0) (Xs train_data))) bsz = Some [])
      as ->; [|done].
    unfold py_range. destruct Hcase as [Hneg|[Hnz ->]].
    + rewrite bool_decide_eq_false_2 by lia. by rewrite bool_decide_eq_true_2.
    + rewrite take_indices_nil. rewrite bool_decide_eq_false_2 by done.
      case_bool_decide; [done|]. cbn [length]. f_equal.
      replace ((0 + Z.to_nat bsz - 1) / Z.to_nat bsz) with 0; [done|].
      symmetry. apply Nat.div_small. lia.
Qed.
End TrainRunFacts.

(** One epoch on two examples, the shuffle drawing the order [1; 0]. *)
Lemma C10_landmarks_left_unshuffled_witness :
  r_epochs (sample_run 1 2 2 (λ _, [1; 0]) sample_train_data) = 1
  ∧ t_Xs (r_state (sample_run 1 2 2 (λ _, [1; 0]) sample_train_data)) !! 0
    = sample_Xs !! 1
  ∧ t_tourist_locs (r_state (sample_run 1 2 2 (λ _, [1; 0]) sample_train_data)) !! 0
    = sample_locs !! 1
  ∧ t_ys (r_state (sample_run 1 2 2 (λ _, [1; 0]) sample_train_data)) !! 0
    = sample_ys !! 1
  ∧ t_landmarks (r_state (sample_run 1 2 2 (λ _, [1; 0]) sample_train_data)) !! 0
    = sample_landmarks !! 0.
Proof.
  destruct (C10_landmarks_left_unshuffled (H := sample_tokens) sample_sort
              (λ _ _ _, 1%float) (λ e _, sample_valid e) (λ _, 2%float)
              (λ _, [1; 0]) (λ _, [0; 1]) [1; 0] (allocate (H := sample_tokens) 11 3)
              2 2 sample_train_data sample_train_data 1 sample_train_data
              eq_refl eq_refl (λ _, eq_refl))
    as (Hprog & _ & Hrows & _).
  split; [vm_compute; reflexivity|].
  destruct (Hrows 0 (Nat.lt_0_succ _)) as (j & Hj & _ & HX & HL & HY & HM).
  vm_compute in Hj. injection Hj as <-.
  split; [exact HX|]. split; [exact HL|]. split; [exact HY | exact HM].
Defined.

(** C10 fails as stated on a training set with a single example: the only
    order [shuffle] can draw is [0], so after the shuffle of the first
    epoch the landmark set at index 0 still belongs to the trajectory,
    location and target at index 0. *)
Lemma C10_counterexample :
  (∀ q, is_range_perm q 1 = true → q = [0])
  ∧ r_outcome (sample_run 1 2 1 (λ _, [0]) single_data) = inr EpochsExhausted
  ∧ r_epochs (sample_run 1 2 1 (λ _, [0]) single_data) = 1
  ∧ t_Xs (r_state (sample_run 1 2 1 (λ _, [0]) single_data)) !! 0
    = Xs single_data !! 0
  ∧ t_tourist_locs (r_state (sample_run 1 2 1 (λ _, [0]) single_data)) !! 0
    = tourist_locs single_data !! 0
  ∧ t_ys (r_state (sample_run 1 2 1 (λ _, [0]) single_data)) !! 0
    = ys single_data !! 0
  ∧ t_landmarks (r_state (sample_run 1 2 1 (λ _, [0]) single_data)) !! 0
    = landmarks single_data !! 0.
Proof.
  split.
  - intros q Hq. apply is_range_perm_spec in Hq.
    apply Permutation_singleton_r in Hq. done.
  - vm_compute. repeat split.
Qed.

(** A run that stops for patience after five epochs. *)
Lemma train_saves_and_tests_once_witness :
  r_outcome (sample_run 500 2 2 (λ _, [1; 0]) sample_train_data) = inr PatienceExhausted
  ∧ occurrences is_save (r_log (sample_run 500 2 2 (λ _, [1; 0]) sample_train_data)) = 1
  ∧ occurrences is_test (r_log (sample_run 500 2 2 (λ _, [1; 0]) sample_train_data)) = 1.
Proof.
  assert (r_outcome (sample_run 500 2 2 (λ _, [1; 0]) sample_train_data)
          = inr PatienceExhausted) as Hret by (vm_compute; reflexivity).
  split; [exact Hret|].
  destruct (train_saves_and_tests_once (H := sample_tokens) sample_sort
              (λ _ _ _, 1%float) (λ e _, sample_valid e) (λ _, 2%float)
              (λ _, [1; 0]) (λ _, [0; 1]) [1; 0] (allocate (H := sample_tokens) 11 3)
              2 2 sample_train_data sample_train_data 500 sample_train_data)
    as (_ & _ & Hall).
  destruct (Hall PatienceExhausted Hret) as (Hsave & Htest & _).
  split; [exact Hsave | exact Htest].
Defined.

Lemma train_epoch_accounting_witness :
  r_outcome (sample_run 500 2 2 (λ _, [1; 0]) sample_train_data) = inr PatienceExhausted
  ∧ r_epochs (sample_run 500 2 2 (λ _, [1; 0]) sample_train_data) = 5
  ∧ occurrences is_lr_step (r_log (sample_run 500 2 2 (λ _, [1; 0]) sample_train_data)) = 5.
Proof.
  assert (r_outcome (sample_run 500 2 2 (λ _, [1; 0]) sample_train_data)
          = inr PatienceExhausted) as Hret by (vm_compute; reflexivity).
  assert (r_epochs (sample_run 500 2 2 (λ _, [1; 0]) sample_train_data) = 5)
    as Hrun by (vm_compute; reflexivity).
  split; [exact Hret|]. split; [exact Hrun|].
  destruct (train_epoch_accounting (H := sample_tokens) sample_sort
              (λ _ _ _, 1%float) (λ e _, sample_valid e) (λ _, 2%float)
              (λ _, [1; 0]) (λ _, [0; 1]) [1; 0] (allocate (H := sample_tokens) 11 3)
              2 2 sample_train_data sample_train_data 500 sample_train_data)
    as (_ & _ & _ & Hall).
  destruct (Hall PatienceExhausted Hret) as (Hlr & _).
  rewrite <- Hrun. exact Hlr.
Defined.

(** Three epochs with patience 0. *)
Lemma train_patience_not_positive_witness :
  r_outcome (sample_run 3 0 2 (λ _, [1; 0]) sample_train_data) = inr EpochsExhausted
  ∧ r_epochs (sample_run 3 0 2 (λ _, [1; 0]) sample_train_data) = 3.
Proof.
  assert (r_outcome (sample_run 3 0 2 (λ _, [1; 0]) sample_train_data)
          = inr EpochsExhausted) as Hret by (vm_compute; reflexivity).
  split; [exact Hret|].
  destruct (train_patience_not_positive (H := sample_tokens) sample_sort
              (λ _ _ _, 1%float) (λ e _, sample_valid e) (λ _, 2%float)
              (λ _, [1; 0]) (λ _, [0; 1]) [1; 0] (allocate (H := sample_tokens) 11 3)
              2 0 sample_train_data sample_train_data 3 sample_train_data ltac:(lia))
    as (_ & Hall).
  destruct (Hall EpochsExhausted Hret) as (_ & Hrun). exact Hrun.
Defined.

(** An empty training set. *)
Lemma train_raises_in_first_epoch_witness :
  r_outcome (sample_run 5 2 2 (λ _, []) data_empty)
  = inl (Training, Loop DivisionByZero)
  ∧ r_log (sample_run 5 2 2 (λ _, []) data_empty) = [TrainEpoch 0].
Proof.
  destruct (train_raises_in_first_epoch (H := sample_tokens) sample_sort
              (λ _ _ _, 1%float) (λ e _, sample_valid e) (λ _, 2%float)
              (λ _, []) (λ _, [0; 1]) [1; 0] (allocate (H := sample_tokens) 11 3)
              2 2 sample_train_data sample_train_data 5 data_empty ltac:(lia))
    as (_ & _ & Hdiv).
  apply Hdiv; [by split|]. right. split; [lia|reflexivity].
Defined.

(** ** str2bool *)

Lemma lower_upper_ascii (c : Ascii.ascii) : lower_ascii (upper_ascii c) = lower_ascii c.
Proof. by destruct c as [[] [] [] [] [] [] [] []]. Qed.

Lemma lower_lower_ascii (c : Ascii.ascii) : lower_ascii (lower_ascii c) = lower_ascii c.
Proof. by destruct c as [[] [] [] [] [] [] [] []]. Qed.

Lemma lower_upper (s : string) : lower (upper s) = lower s.
Proof. induction s as [|c s IH]; [done|]. cbn. by rewrite lower_upper_ascii, IH. Qed.

Lemma lower_lower (s : string) : lower (lower s) = lower s.
Proof. induction s as [|c s IH]; [done|]. cbn. by rewrite lower_lower_ascii, IH. Qed.

(** X25: [str2bool] does not look at the case of ASCII letters: a string,
    its upper-case form and its lower-case form get the same answer. *)
Theorem str2bool_ignores_case (s : string) :
  str2bool (upper s) = str2bool s ∧ str2bool (lower s) = str2bool s.
Proof. unfold str2bool. by rewrite lower_upper, lower_lower. Qed.

(** ** The index allocator and the action tokens *)

Section AllocatorMore.
Context `{SpecialTokens}.

(** X11: under pairwise different token strings, [tok2i] holds the four
    special tokens with the indices of their fields and no other key. *)
Theorem tok2i_exact (L A : Z) (s : string) (i : Z) :
  tokens_distinct = true →
  tok2i (allocate L A) !! s = Some i ↔
    (s = START_TOKEN ∧ i = start_idx (allocate L A))
    ∨ (s = END_TOKEN ∧ i = end_idx (allocate L A))
    ∨ (s = PAD_TOKEN ∧ i = pad_idx (allocate L A))
    ∨ (s = UNK_TOKEN ∧ i = unk_idx (allocate L A)).
Proof.
  intros Hd. destruct (tok2i_lookup L A Hd) as (Hs & He & Hp & Hu). split.
  - cbn [tok2i allocate start_idx end_idx pad_idx unk_idx].
    rewrite !lookup_insert_Some, lookup_empty.
    intros [[<- <-]|[_ [[<- <-]|[_ [[<- <-]|[_ [[<- <-]|[_ ?]]]]]]]]; auto; done.
  - intros [[-> ->]|[[-> ->]|[[-> ->]|[-> ->]]]]; done.
Qed.

(** X12: the action tokens and the pad index.  With the three actions of
    the program, every token [get_action] returns lies strictly below the
    pad index exactly when the landmark vocabulary is not empty; with an
    empty one the token of 'ACTION:FORWARD' is the pad index itself. *)
Theorem action_tokens_below_pad (L : Z) :
  (0 ≤ L)%Z →
  (∀ msg act, get_action msg = Some act → (0 < act < pad_idx (allocate L 3))%Z)
  ↔ (0 < L)%Z.
Proof.
  intros HL. cbn [pad_idx allocate]. split.
  - intros Hall. specialize (Hall "ACTION:FORWARD" 3%Z get_action_forward). lia.
  - intros Hpos msg act [[_ ->]|[[_ ->]|[_ ->]]]%get_action_Some; lia.
Qed.
End AllocatorMore.

Section SetupFacts.
Context `{SpecialTokens} `{Collaborators}.

Lemma obs_emb_lookup fl nbh (l : Location) k :
  obs_emb fl nbh l !! k =
    (λ loader, if bool_decide (k = "goldstandard")
               then loader_get_loc loader nbh l
               else loader_get_xy loader nbh (loc_0 l) (loc_1 l)) <$> fl !! k.
Proof. unfold obs_emb. rewrite map_lookup_imap. by destruct (fl !! k). Qed.

(** X8: the modalities of a bundle.  A bundle built with the loaders that
    [setup_feature_loaders] installs has exactly the entries whose flag is
    set: 'goldstandard' read at the location itself, 'resnet' and
    'fasttext' read at its two coordinates. *)
Theorem observation_modalities (ft rn gs : bool) (fasttext resnet goldstandard : Loader)
    nbh (l : Location) (k : string) :
  obs_emb (setup_feature_loaders ft rn gs fasttext resnet goldstandard) nbh l !! k =
    if bool_decide (k = "goldstandard") then
      (if gs then Some (loader_get_loc goldstandard nbh l) else None)
    else if bool_decide (k = "resnet") then
      (if rn then Some (loader_get_xy resnet nbh (loc_0 l) (loc_1 l)) else None)
    else if bool_decide (k = "fasttext") then
      (if ft then Some (loader_get_xy fasttext nbh (loc_0 l) (loc_1 l)) else None)
    else None.
Proof.
  rewrite obs_emb_lookup. unfold setup_feature_loaders.
  destruct ft, rn, gs; repeat case_bool_decide; by simplify_map_eq.
Qed.

(** X9: a tourist turn whose text is not exactly one of the three command
    strings is taken as an utterance: it emits one example and does not
    move the tourist. *)
Theorem unrecognised_text_is_utterance L A fl bnd nbh (w : walk) (m : message) :
  msg_id m = "Tourist" →
  msg_text m ∉ ["ACTION:TURNLEFT"; "ACTION:TURNRIGHT"; "ACTION:FORWARD"] →
  ∃ w', process_msg (allocate L A) fl bnd nbh w m = Some w'
      ∧ loc w' = loc w
      ∧ length (Xs (out w')) = S (length (Xs (out w)))
      ∧ ys (out w') = ys (out w) ++ [encode (msg_text m) true].
Proof.
  intros Hid Hnot.
  assert (is_utterance m = true) as Hutt.
  { unfold is_utterance. rewrite bool_decide_eq_true_2 by done.
    apply bool_decide_eq_true. destruct (get_action (msg_text m)) as [act|] eqn:Hact; [|done].
    exfalso. apply Hnot. apply get_action_Some in Hact.
    rewrite !elem_of_cons. destruct Hact as [[-> _]|[[-> _]|[-> _]]]; auto. }
  destruct (tok2i_end_is_Some L A) as [e He].
  rewrite (process_msg_say _ fl bnd nbh w m e Hutt He). eexists. split; [done|].
  cbn [loc out Xs ys]. rewrite length_app. cbn [length]. repeat split; lia.
Qed.

(** X10: [setup_model] after [load_data].  The maximal trajectory length it
    computes does not exist when the training set has no utterance ([max]
    of an empty list raises); otherwise it is at least 1 and, with a
    context length [k], at most [k + 1]. *)
Theorem setup_max_len_of_built_data L A fl ctx (dataset : list config) :
  ∃ d, build_data (allocate L A) fl ctx data_empty dataset = Some d
     ∧ (n_utterances (all_messages dataset) = 0 → setup_max_len d = None)
     ∧ (0 < n_utterances (all_messages dataset) →
          ∃ m, setup_max_len d = Some m ∧ 1 ≤ m ∧ ∀ k, ctx = Some k → m ≤ k + 1).
Proof.
  destruct (tok2i_end_is_Some L A) as [e He].
  destruct (build_data_run L A fl ctx e dataset data_empty He)
    as (d & Hbuild & (new & HX & Hlen & Hwf) & _).
  exists d. split; [done|]. unfold setup_max_len. rewrite HX. cbn [data_empty Xs app].
  split.
  - intros Hz. rewrite Hz in Hlen. by destruct new.
  - intros Hpos.
    destruct (py_max_Some (length <$> new)) as (m & Hm & _ & Hin).
    { destruct new; [cbn in Hlen; lia | done]. }
    exists m. split; [done|].
    apply list_elem_of_fmap in Hin as (t & -> & Ht).
    rewrite Forall_forall in Hwf. destruct (Hwf t Ht) as (body & -> & _ & Hk).
    rewrite length_app. cbn [length]. split; [lia|].
    intros k Hctx. specialize (Hk k Hctx). lia.
Qed.
End SetupFacts.

Lemma tok2i_exact_witness :
  tok2i (allocate (H := sample_tokens) 11 3) !! "__end__" = Some 16%Z.
Proof.
  apply (tok2i_exact (H := sample_tokens) 11 3 "__end__" 16 eq_refl).
  right; left. by split.
Defined.

Lemma action_tokens_below_pad_witness :
  (0 < 3 < pad_idx (allocate (H := sample_tokens) 11 3))%Z.
Proof.
  apply (proj2 (action_tokens_below_pad (H := sample_tokens) 11 ltac:(lia)) ltac:(lia)
           "ACTION:FORWARD" 3%Z).
  reflexivity.
Defined.

Lemma unrecognised_text_is_utterance_witness :
  ∃ w', process_msg (H := sample_tokens) (H0 := sample_world)
          (allocate (H := sample_tokens) 11 3) sample_loaders
          ([0; 0; 3; 3]%Z : @Boundaries sample_world) ("fidi" : @Neighborhood sample_world)
          {| loc := [2; 3; 0]%Z : @Location sample_world;
             act_obs_memory := deque_new None; out := data_empty |}
          {| msg_id := "Tourist"; msg_text := "action:forward" |} = Some w'
      ∧ loc w' = ([2; 3; 0]%Z : @Location sample_world)
      ∧ length (Xs (out w')) = 1.
Proof.
  destruct (unrecognised_text_is_utterance (H := sample_tokens) (H0 := sample_world)
              11 3 sample_loaders
              ([0; 0; 3; 3]%Z : @Boundaries sample_world)
              ("fidi" : @Neighborhood sample_world)
              {| loc := [2; 3; 0]%Z : @Location sample_world;
                 act_obs_memory := deque_new None; out := data_empty |}
              {| msg_id := "Tourist"; msg_text := "action:forward" |}
              eq_refl)
    as (w' & Hw' & Hloc & Hlen & _).
  { rewrite !elem_of_cons, elem_of_nil. intros [?|[?|[?|[]]]]; discriminate. }
  exists w'. split; [exact Hw'|]. split; [exact Hloc | exact Hlen].
Defined.

Lemma setup_max_len_of_built_data_witness :
  ∃ d, build_data (H := sample_tokens) (allocate (H := sample_tokens) 11 3)
         sample_loaders (Some 2) data_empty [sample_config] = Some d
     ∧ ∃ m, setup_max_len d = Some m ∧ 1 ≤ m ≤ 3.
Proof.
  destruct (setup_max_len_of_built_data (H := sample_tokens) 11 3 sample_loaders
              (Some 2) [sample_config])
    as (d & Hd & _ & Hsome).
  exists d. split; [exact Hd|].
  destruct (Hsome (Nat.lt_0_succ _)) as (m & Hm & H1 & Hk).
  exists m. split; [exact Hm|]. split; [exact H1|]. exact (Hk 2 eq_refl).
Defined.
